(** * map_reducer: the split / map / reduce handlers of [main.go]

    A shallow embedding of the three gin handlers of [main.go].  Go strings
    are byte strings ([string]), Go [int] is a 64-bit two's-complement
    integer (the Dockerfile builds for amd64),
    [map[string]int] is a [gmap string Z], and the S3 bucket store is an
    explicit world that every handler threads through. *)

From Stdlib Require Import ZArith Ascii String List Lia.
From Stdlib Require Import DecimalString DecimalFacts DecimalPos DecimalZ.
From stdpp Require Import base option list strings gmap fin_maps fin_sets.

Local Open Scope Z_scope.

(** ** Go integers *)

Module GoInt.

(** [int] on amd64: arithmetic wraps around modulo 2^64 into
    [-2^63, 2^63). *)
Definition min_int : Z := - 2 ^ 63.
Definition max_int : Z := 2 ^ 63 - 1.

Definition wrap64 (z : Z) : Z := (z + 2 ^ 63) mod 2 ^ 64 - 2 ^ 63.

Definition in_range (z : Z) : Prop := min_int ≤ z ≤ max_int.

(** [a / b] on [int]: truncated division; a zero divisor panics. *)
Definition div (a b : Z) : option Z :=
  if decide (b = 0) then None else Some (wrap64 (Z.quot a b)).

End GoInt.

Export GoInt.

(** ** Go strings and slices *)

Module GoStrings.

Definition byte_val (c : ascii) : Z := Z.of_N (N_of_ascii c).
Definition byte_chr (z : Z) : ascii := ascii_of_N (Z.to_N z).

(** [len(s)] *)
Definition len (s : string) : Z := Z.of_nat (String.length s).

(** [s[lo:hi]] on a string; out-of-range bounds panic ([None]). *)
Definition str_slice (s : string) (lo hi : Z) : option string :=
  if decide (0 ≤ lo ∧ lo ≤ hi ∧ hi ≤ len s)
  then Some (String.substring (Z.to_nat lo) (Z.to_nat (hi - lo)) s)
  else None.

(** [l[lo:hi]] on a slice whose capacity equals its length (the result of
    [strings.Split]); out-of-range bounds panic ([None]). *)
Definition slice {A} (l : list A) (lo hi : Z) : option (list A) :=
  if decide (0 ≤ lo ∧ lo ≤ hi ∧ hi ≤ Z.of_nat (length l))
  then Some (take (Z.to_nat (hi - lo)) (drop (Z.to_nat lo) l))
  else None.

(** [strings.HasPrefix] *)
Fixpoint HasPrefix (s p : string) {struct p} : bool :=
  match p, s with
  | EmptyString, _ => true
  | String a p', String b s' => if decide (a = b) then HasPrefix s' p' else false
  | String _ _, EmptyString => false
  end.

Fixpoint skip (n : nat) (s : string) : string :=
  match n, s with
  | O, _ => s
  | S n', String _ s' => skip n' s'
  | S _, EmptyString => EmptyString
  end.

(** [strings.TrimPrefix]: [s] without the leading [p], or [s] itself. *)
Definition TrimPrefix (s p : string) : string :=
  if HasPrefix s p then skip (String.length p) s else s.

(** [strings.HasSuffix]: [len(s) >= len(p) && s[len(s)-len(p):] == p] *)
Definition HasSuffix (s p : string) : bool :=
  bool_decide (String.length p ≤ String.length s)%nat
  && bool_decide (skip (String.length s - String.length p) s = p).

(** [strings.TrimSuffix]: [s] without the trailing [p], or [s] itself. *)
Definition TrimSuffix (s p : string) : string :=
  if HasSuffix s p
  then String.substring 0 (String.length s - String.length p) s
  else s.

(** [strings.IndexByte]: index of the first [c] in [s], or [-1]. *)
Fixpoint IndexByte (s : string) (c : ascii) : Z :=
  match s with
  | EmptyString => -1
  | String a s' =>
      if decide (a = c) then 0
      else let i := IndexByte s' c in if decide (i = -1) then -1 else i + 1
  end.

(** [strings.Split(s, sep)] for a one-byte separator: the pieces between
    the separators, always at least one piece. *)
Fixpoint Split_go (cur : string) (s : string) (sep : ascii) : list string :=
  match s with
  | EmptyString => [cur]
  | String a s' =>
      if decide (a = sep) then cur :: Split_go EmptyString s' sep
      else Split_go (cur +:+ String a EmptyString) s' sep
  end.
Definition Split (s : string) (sep : ascii) : list string :=
  Split_go EmptyString s sep.

(** [strings.Join(elems, sep)] *)
Fixpoint Join (elems : list string) (sep : string) : string :=
  match elems with
  | [] => EmptyString
  | [e] => e
  | e :: rest => e +:+ sep +:+ Join rest sep
  end.

(** [%d] of [fmt.Sprintf] and [strconv.Itoa] *)
Definition Itoa (z : Z) : string := NilZero.string_of_int (Z.to_int z).

End GoStrings.

Export GoStrings.

(** ** parseS3 *)

(** [parseS3] of [main.go]: strips one leading "s3://", cuts at the first
    '/'.  When there is no '/', [i = -1] and [trim[:i]] panics. *)
Definition parseS3 (url : string) : option (string * string) :=
  let trim := TrimPrefix url "s3://" in
  let i := IndexByte trim "/"%char in
  bucket ← str_slice trim 0 i;
  key ← str_slice trim (i + 1) (len trim);
  Some (bucket, key).

(** An address with no '/' left once a leading "s3://" is removed. *)
Definition noSeparator (url : string) : Prop :=
  IndexByte (TrimPrefix url "s3://") "/" = -1.

(** ** The blob store and the request context *)

(** Calls that reach the store, in the order they are issued. *)
Inductive StoreOp : Type :=
| GetObject (bucket key : string)
| PutObject (bucket key body : string).

(** The world a handler runs in: the buckets with their objects, and the
    log of store calls issued so far (oldest first).  A get fails on a
    missing bucket or key, a put fails on a missing bucket. *)
Record World : Type := mkWorld {
  buckets : gmap string (gmap string string);
  trace : list StoreOp
}.

Definition record (op : StoreOp) (w : World) : World :=
  mkWorld (buckets w) (trace w ++ [op]).

(** The object stored under [key] of [bucket], if any. *)
Definition object (w : World) (bucket key : string) : option string :=
  objs ← buckets w !! bucket; objs !! key.

Inductive Result (A : Type) : Type :=
| Ok (a : A)
| Err (msg : string).
Arguments Ok {A} a.
Arguments Err {A} msg.

(** [downloader.Download] into a fresh buffer, then [buf.Bytes()]. *)
Definition Download (bucket key : string) (w : World) : Result string * World :=
  let w' := record (GetObject bucket key) w in
  match buckets w !! bucket with
  | None => (Err "NoSuchBucket", w')
  | Some objs =>
      match objs !! key with
      | None => (Err "NoSuchKey", w')
      | Some body => (Ok body, w')
      end
  end.

(** [uploader.Upload]: last writer wins. *)
Definition Upload (bucket key body : string) (w : World) : Result unit * World :=
  match buckets w !! bucket with
  | None => (Err "NoSuchBucket", record (PutObject bucket key body) w)
  | Some objs =>
      (Ok (), mkWorld (<[bucket := <[key := body]> objs]> (buckets w))
                      (trace w ++ [PutObject bucket key body]))
  end.

(** What a handler leaves as the answer of the call. *)
Inductive Response : Type :=
| RString (code : Z) (body : string)       (* c.String(code, body) *)
| RUrls (code : Z) (urls : list string)    (* c.JSON(code, urls) *)
| ROutput (code : Z) (output : string)     (* c.JSON(code, gin.H{"output": output}) *)
| RPanic.                                   (* a run-time panic unwound the handler;
                                               gin.Default() recovers it as a 500 *)

(** [*gin.Context], as far as the handlers read it: the query parameters in
    the order of the request line. *)
Record Context : Type := mkContext { query : list (string * string) }.

(** [c.Query(key)]: the first value of [key], or the empty string. *)
Fixpoint lookupQuery (q : list (string * string)) (key : string) : string :=
  match q with
  | [] => EmptyString
  | (k, v) :: q' => if decide (k = key) then v else lookupQuery q' key
  end.
Definition Query (c : Context) (key : string) : string := lookupQuery (query c) key.

(** [c.QueryArray(key)]: every value of [key], in order. *)
Definition QueryArray (c : Context) (key : string) : list string :=
  snd <$> filter (λ kv, fst kv = key) (query c).

(** ** Handler bodies: world passing with early exit *)

(** A step of a handler body either goes on with a value or has already
    answered (an early [return] after [c.String], or a panic). *)
Inductive Outcome (A : Type) : Type :=
| Next (a : A)
| Done (r : Response).
Arguments Next {A} a.
Arguments Done {A} r.

Definition Handler (A : Type) : Type := World → Outcome A * World.

Definition hret {A} (a : A) : Handler A := λ w, (Next a, w).
Definition hbind {A B} (m : Handler A) (k : A → Handler B) : Handler B :=
  λ w, match m w with
       | (Next a, w') => k a w'
       | (Done r, w') => (Done r, w')
       end.

Notation "x ←ₕ m ; k" := (hbind m (λ x, k))
  (at level 20, m at level 100, k at level 200, right associativity,
   format "x  ←ₕ  m ;  '/' k").
Notation "' p ←ₕ m ; k" := (hbind m (λ x, match x with p => k end))
  (at level 20, p pattern, m at level 100, k at level 200, right associativity).

(** [c.String(code, body); return] *)
Definition reply {A} (r : Response) : Handler A := λ w, (Done r, w).

(** A Go operation that panics when it has no result. *)
Definition must {A} (o : option A) : Handler A :=
  λ w, match o with
       | Some a => (Next a, w)
       | None => (Done RPanic, w)
       end.

(** [x, err := op(...); if err != nil { c.String(500, err.Error()); return }] *)
Definition try {A} (op : World → Result A * World) : Handler A :=
  λ w, match op w with
       | (Ok a, w') => (Next a, w')
       | (Err msg, w') => (Done (RString 500 msg), w')
       end.

(** The answer of a whole handler and the world it leaves. *)
Definition serve (h : Handler Response) (w : World) : Response * World :=
  match h w with
  | (Next r, w') => (r, w')
  | (Done r, w') => (r, w')
  end.

(** ** Library models: unicode/utf8, strings.ToLower, regexp, encoding/json *)

Module UTF8.

Definition RuneError : Z := 0xFFFD.

Definition is_cont (b : Z) : bool := bool_decide (0x80 ≤ b ≤ 0xBF).

(** For a leading byte: the accepted range of the second byte and the
    length of the sequence ([first] and [acceptRanges] of unicode/utf8). *)
Definition lead (b0 : Z) : option (Z * Z * nat) :=
  if bool_decide (0xC2 ≤ b0 ≤ 0xDF) then Some (0x80, 0xBF, 2%nat)
  else if bool_decide (b0 = 0xE0) then Some (0xA0, 0xBF, 3%nat)
  else if bool_decide (0xE1 ≤ b0 ≤ 0xEC) then Some (0x80, 0xBF, 3%nat)
  else if bool_decide (b0 = 0xED) then Some (0x80, 0x9F, 3%nat)
  else if bool_decide (0xEE ≤ b0 ≤ 0xEF) then Some (0x80, 0xBF, 3%nat)
  else if bool_decide (b0 = 0xF0) then Some (0x90, 0xBF, 4%nat)
  else if bool_decide (0xF1 ≤ b0 ≤ 0xF3) then Some (0x80, 0xBF, 4%nat)
  else if bool_decide (b0 = 0xF4) then Some (0x80, 0x8F, 4%nat)
  else None.

(** [utf8.DecodeRuneInString]: the first rune and its width; an invalid
    or truncated sequence decodes as [(RuneError, 1)]. *)
Definition DecodeRune (s : string) : Z * nat :=
  match s with
  | EmptyString => (RuneError, 0%nat)
  | String c0 s1 =>
      let b0 := byte_val c0 in
      if bool_decide (b0 < 0x80) then (b0, 1%nat)
      else match lead b0, s1 with
           | Some (lo, hi, 2%nat), String c1 _ =>
               let b1 := byte_val c1 in
               if bool_decide (lo ≤ b1 ≤ hi)
               then (Z.lor (Z.shiftl (Z.land b0 0x1F) 6) (Z.land b1 0x3F), 2%nat)
               else (RuneError, 1%nat)
           | Some (lo, hi, 3%nat), String c1 (String c2 _) =>
               let b1 := byte_val c1 in
               let b2 := byte_val c2 in
               if bool_decide (lo ≤ b1 ≤ hi) && is_cont b2
               then (Z.lor (Z.shiftl (Z.land b0 0x0F) 12)
                       (Z.lor (Z.shiftl (Z.land b1 0x3F) 6) (Z.land b2 0x3F)), 3%nat)
               else (RuneError, 1%nat)
           | Some (lo, hi, 4%nat), String c1 (String c2 (String c3 _)) =>
               let b1 := byte_val c1 in
               let b2 := byte_val c2 in
               let b3 := byte_val c3 in
               if bool_decide (lo ≤ b1 ≤ hi) && is_cont b2 && is_cont b3
               then (Z.lor (Z.shiftl (Z.land b0 0x07) 18)
                       (Z.lor (Z.shiftl (Z.land b1 0x3F) 12)
                          (Z.lor (Z.shiftl (Z.land b2 0x3F) 6) (Z.land b3 0x3F))), 4%nat)
               else (RuneError, 1%nat)
           | _, _ => (RuneError, 1%nat)
           end
  end.

Definition bytes (l : list Z) : string :=
  foldr (λ b s, String (byte_chr b) s) EmptyString l.

(** [utf8.AppendRune]: surrogates and runes out of range are written as
    [RuneError]. *)
Definition EncodeRune (r : Z) : string :=
  if bool_decide (0 ≤ r ≤ 0x7F) then bytes [r]
  else if bool_decide (0x80 ≤ r ≤ 0x7FF)
       then bytes [Z.lor 0xC0 (Z.shiftr r 6); Z.lor 0x80 (Z.land r 0x3F)]
  else if bool_decide (r < 0 ∨ 0x10FFFF < r ∨ 0xD800 ≤ r ≤ 0xDFFF)
       then bytes [0xEF; 0xBF; 0xBD]
  else if bool_decide (r ≤ 0xFFFF)
       then bytes [Z.lor 0xE0 (Z.shiftr r 12);
                   Z.lor 0x80 (Z.land (Z.shiftr r 6) 0x3F);
                   Z.lor 0x80 (Z.land r 0x3F)]
  else bytes [Z.lor 0xF0 (Z.shiftr r 18);
              Z.lor 0x80 (Z.land (Z.shiftr r 12) 0x3F);
              Z.lor 0x80 (Z.land (Z.shiftr r 6) 0x3F);
              Z.lor 0x80 (Z.land r 0x3F)].

End UTF8.

(** The lower-case mapping of the non-ASCII runes ([unicode.CaseRanges]);
    the table itself is not reproduced, the development is parametric in
    it. *)
Class CaseTable : Type := tableToLower : Z → Z.

Module Unicode.

(** [unicode.ToLower]: ASCII is handled in place, the rest by the table. *)
Definition ToLower {table : CaseTable} (r : Z) : Z :=
  if bool_decide (r ≤ 0x7F)
  then (if bool_decide (0x41 ≤ r ≤ 0x5A) then r + 0x20 else r)
  else tableToLower r.

(** The entries of the table for Latin-1, U+0130 and the letter-like
    symbols U+212A (KELVIN SIGN) and U+212B (ANGSTROM SIGN); every other
    rune is left alone by this instance. *)
Definition latin_table : CaseTable := λ r,
  if bool_decide (0xC0 ≤ r ≤ 0xD6 ∨ 0xD8 ≤ r ≤ 0xDE) then r + 32
  else if bool_decide (r = 0x130) then r - 199
  else if bool_decide (r = 0x212A) then r - 8383
  else if bool_decide (r = 0x212B) then r - 8262
  else r.

End Unicode.

Module Strings.

Definition isASCII (s : string) : bool :=
  forallb (λ c, bool_decide (byte_val c < 0x80)) (list_ascii_of_string s).

Definition lowerByte (c : ascii) : ascii :=
  let b := byte_val c in
  if bool_decide (0x41 ≤ b ≤ 0x5A) then byte_chr (b + 0x20) else c.

Fixpoint mapBytes (f : ascii → ascii) (s : string) : string :=
  match s with
  | EmptyString => EmptyString
  | String c s' => String (f c) (mapBytes f s')
  end.

(** [strings.Map]: every rune of [s] (an invalid byte counts as
    [RuneError]) is replaced by its image; a negative image is dropped. *)
Fixpoint Map_go (fuel : nat) (mapping : Z → Z) (s : string) : string :=
  match fuel, s with
  | O, _ | _, EmptyString => EmptyString
  | S fuel', _ =>
      let '(c, width) := UTF8.DecodeRune s in
      let r := mapping c in
      (if bool_decide (0 ≤ r) then UTF8.EncodeRune r else EmptyString)
      +:+ Map_go fuel' mapping (skip width s)
  end.
Definition Map (mapping : Z → Z) (s : string) : string :=
  Map_go (String.length s) mapping s.

(** [strings.ToLower]: the byte loop for ASCII-only strings, and
    [Map(unicode.ToLower, s)] otherwise. *)
Definition ToLower {table : CaseTable} (s : string) : string :=
  if isASCII s then mapBytes lowerByte s else Map Unicode.ToLower s.

End Strings.

Module Regexp.

(** The class [[A-Za-z0-9]]; it holds ASCII bytes only, so no byte of a
    multi-byte rune is in it. *)
Definition wordByte (c : ascii) : bool :=
  let b := byte_val c in
  bool_decide (0x41 ≤ b ≤ 0x5A) || bool_decide (0x61 ≤ b ≤ 0x7A)
  || bool_decide (0x30 ≤ b ≤ 0x39).

Definition flush (run : string) : list string :=
  if decide (run = EmptyString) then [] else [run].

(** [regexp.MustCompile(`[A-Za-z0-9]+`).FindAllString(s, -1)]: the
    successive leftmost matches, each extended greedily; [run] is the
    match under construction. *)
Fixpoint FindAll_go (run : string) (s : string) : list string :=
  match s with
  | EmptyString => flush run
  | String c s' =>
      if wordByte c then FindAll_go (run +:+ String c EmptyString) s'
      else flush run ++ FindAll_go EmptyString s'
  end.
Definition FindAllString (s : string) : list string := FindAll_go EmptyString s.

(** The run that ends at [pos], if one started at [start]. *)
Definition flushIndex (start : option nat) (pos : nat) : list (nat * nat) :=
  match start with
  | Some i => [(i, (pos - i)%nat)]
  | None => []
  end.

(** [FindAllStringIndex(s, -1)] of the same expression: where each match
    starts and how long it is; [start] is where the match under
    construction began, [pos] is the index of the next byte. *)
Fixpoint FindAllIndex_go (start : option nat) (pos : nat) (s : string)
    : list (nat * nat) :=
  match s with
  | EmptyString => flushIndex start pos
  | String c s' =>
      if wordByte c then FindAllIndex_go (Some (default pos start)) (S pos) s'
      else flushIndex start pos ++ FindAllIndex_go None (S pos) s'
  end.
Definition FindAllStringIndex (s : string) : list (nat * nat) :=
  FindAllIndex_go None 0 s.

End Regexp.

(** [encoding/json] on [map[string]int].  The model covers the fragment the
    pipeline exchanges: an object whose keys need no escaping and whose
    values are integers in the range of [int]; white space between tokens
    is accepted.  Input that is not a JSON text is an error and leaves the
    destination untouched, as in the library.  JSON outside the fragment
    (escapes, fractions, nested values) is answered with an error too. *)
Module JSON.

Fixpoint insertSorted (kv : string * Z) (l : list (string * Z)) : list (string * Z) :=
  match l with
  | [] => [kv]
  | kv' :: l' =>
      if String.leb (fst kv) (fst kv') then kv :: l
      else kv' :: insertSorted kv l'
  end.

(** The entries in the byte order of their keys. *)
Definition sortedEntries (m : gmap string Z) : list (string * Z) :=
  foldr insertSorted [] (map_to_list m).

Definition quote : ascii := "034"%char.

Definition entry (kv : string * Z) : string :=
  String quote (fst kv) +:+ String quote ":" +:+ Itoa (snd kv).

(** [json.Marshal(m)] *)
Definition Marshal (m : gmap string Z) : string :=
  "{" +:+ Join (entry <$> sortedEntries m) "," +:+ "}".

Inductive state : Type :=
| SStart                                   (* before the opening brace *)
| SOpen                                    (* after the opening brace *)
| SKey (k : string)                        (* inside a key *)
| SColon (k : string)                      (* after a key *)
| SValue (k : string)                      (* after the colon *)
| SMinus (k : string)                      (* after a minus sign *)
| SZero (k : string)                       (* after a leading zero *)
| SDigits (k : string) (neg : bool) (n : Z)  (* inside a number *)
| SNext                                    (* after a value *)
| SComma                                   (* after a comma *)
| SEnd                                     (* after the closing brace *)
| SFail.

Definition isSpace (c : ascii) : bool :=
  bool_decide (byte_val c = 0x20 ∨ byte_val c = 0x09
               ∨ byte_val c = 0x0A ∨ byte_val c = 0x0D).

Definition digit (c : ascii) : option Z :=
  let b := byte_val c in
  if bool_decide (0x30 ≤ b ≤ 0x39) then Some (b - 0x30) else None.

Definition signed (neg : bool) (n : Z) : Z := if neg then - n else n.

(** A finished value: it is stored when it fits [int]. *)
Definition store (k : string) (v : Z) (next : state) (m : gmap string Z)
  : state * gmap string Z :=
  if bool_decide (min_int ≤ v ≤ max_int) then (next, <[k := v]> m) else (SFail, m).

Definition after (c : ascii) : state :=
  if isSpace c then SNext
  else if decide (c = ","%char) then SComma
  else if decide (c = "}"%char) then SEnd
  else SFail.

Definition step (st : state) (m : gmap string Z) (c : ascii) : state * gmap string Z :=
  match st with
  | SStart =>
      if isSpace c then (SStart, m)
      else if decide (c = "{"%char) then (SOpen, m) else (SFail, m)
  | SOpen =>
      if isSpace c then (SOpen, m)
      else if decide (c = quote) then (SKey EmptyString, m)
      else if decide (c = "}"%char) then (SEnd, m) else (SFail, m)
  | SKey k =>
      if decide (c = quote) then (SColon k, m)
      else if decide (c = "092"%char) then (SFail, m)
      else if bool_decide (byte_val c < 0x20) then (SFail, m)
      else (SKey (k +:+ String c EmptyString), m)
  | SColon k =>
      if isSpace c then (SColon k, m)
      else if decide (c = ":"%char) then (SValue k, m) else (SFail, m)
  | SValue k =>
      if isSpace c then (SValue k, m)
      else if decide (c = "-"%char) then (SMinus k, m)
      else match digit c with
           | Some 0 => (SZero k, m)
           | Some d => (SDigits k false d, m)
           | None => (SFail, m)
           end
  | SMinus k =>
      match digit c with
      | Some 0 => (SZero k, m)
      | Some d => (SDigits k true d, m)
      | None => (SFail, m)
      end
  | SZero k =>
      match after c with
      | SFail => (SFail, m)
      | next => store k 0 next m
      end
  | SDigits k neg n =>
      match digit c with
      | Some d => (SDigits k neg (10 * n + d), m)
      | None =>
          match after c with
          | SFail => (SFail, m)
          | next => store k (signed neg n) next m
          end
      end
  | SNext =>
      if isSpace c then (SNext, m)
      else if decide (c = ","%char) then (SComma, m)
      else if decide (c = "}"%char) then (SEnd, m) else (SFail, m)
  | SComma =>
      if isSpace c then (SComma, m)
      else if decide (c = quote) then (SKey EmptyString, m) else (SFail, m)
  | SEnd => if isSpace c then (SEnd, m) else (SFail, m)
  | SFail => (SFail, m)
  end.

Fixpoint run (st : state) (m : gmap string Z) (s : string) : state * gmap string Z :=
  match s with
  | EmptyString => (st, m)
  | String c s' => let '(st', m') := step st m c in run st' m' s'
  end.

(** [json.Unmarshal(data, &m)]: the entries of [data] are stored into
    [m] (a later entry for the same key wins); on an error [m] is left
    as it was. *)
Definition Unmarshal (data : string) (m : gmap string Z) : gmap string Z * option string :=
  match run SStart ∅ data with
  | (SEnd, parsed) => (parsed ∪ m, None)
  | _ => (m, Some "json: cannot unmarshal")
  end.

End JSON.

(** ** The handlers of main.go *)

(** [m[k]] on a [map[string]int]: an absent key reads as 0. *)
Definition get (m : gmap string Z) (k : string) : Z := default 0 (m !! k).

Section Splitter.

Definition newline : string := String "010" EmptyString.

(** Lines 89-94: the lines of chunk [i]; the end is clamped to
    [len(lines)], the start is not. *)
Definition cut (lines : list string) (chunkSize i : Z) : option (list string) :=
  let start := wrap64 (i * chunkSize) in
  let end_ := wrap64 ((i + 1) * chunkSize) in
  let end_ := if bool_decide (end_ > Z.of_nat (length lines))
              then Z.of_nat (length lines) else end_ in
  slice lines start end_.

(** [fmt.Sprintf("%schunk-%d.txt", strings.TrimSuffix(prefix, "/")+"/", i)] *)
Definition chunkKey (prefix : string) (i : Z) : string :=
  (TrimSuffix prefix "/" +:+ "/") +:+ "chunk-" +:+ Itoa i +:+ ".txt".

(** [fmt.Sprintf("s3://%s/%s", bucket, outKey)] *)
Definition chunkUrl (bucket outKey : string) : string :=
  "s3://" +:+ bucket +:+ "/" +:+ outKey.

(** The chunk loop of the split handler, [for i := 0; i < parts; i++],
    with [n] iterations left. *)
Fixpoint splitLoop (n : nat) (i : Z) (lines : list string) (chunkSize : Z)
    (bucket prefix : string) (urls : list string) : Handler (list string) :=
  match n with
  | O => hret urls
  | S n' =>
      part ←ₕ must (cut lines chunkSize i);
      let chunk := Join part newline in
      let outKey := chunkKey prefix i in
      _ ←ₕ try (Upload bucket outKey chunk);
      splitLoop n' (i + 1) lines chunkSize bucket prefix
        (urls ++ [chunkUrl bucket outKey])
  end.

(** Lines 81-113 for a given part count: cut [content] into lines, size
    the chunks by ceiling division, upload each chunk. *)
Definition splitInto (parts : Z) (content bucket prefix : string) : Handler (list string) :=
  let lines := Split content "010" in
  chunkSize ←ₕ must (GoInt.div (wrap64 (Z.of_nat (length lines) + parts - 1)) parts);
  splitLoop (Z.to_nat parts) 0 lines chunkSize bucket prefix [].

(** GET /split.  The part count is the constant 3; the query parameter
    [parts] is not read. *)
Definition splitHandler (mode : string) (c : Context) : Handler Response :=
  if decide (mode ≠ "splitter")
  then reply (RString 400 "This task is not a splitter")
  else
    let input := Query c "input_s3" in
    let parts := 3 in
    let prefix := Query c "out_prefix" in
    '(bucket, key) ←ₕ must (parseS3 input);
    content ←ₕ try (Download bucket key);
    urls ←ₕ splitInto parts content bucket prefix;
    hret (RUrls 200 urls).

End Splitter.

Section Mapper.

Context {table : CaseTable}.

(** [counts[w]++] *)
Definition increment (counts : gmap string Z) (w : string) : gmap string Z :=
  <[w := wrap64 (get counts w + 1)]> counts.

(** [re.FindAllString(strings.ToLower(text), -1)] *)
Definition wordsOf (text : string) : list string :=
  Regexp.FindAllString (Strings.ToLower text).

(** Lines 143-150: the counts of the words of a chunk. *)
Definition countWords (text : string) : gmap string Z :=
  foldl increment ∅ (wordsOf text).

(** GET /map *)
Definition mapHandler (mode : string) (c : Context) : Handler Response :=
  if decide (mode ≠ "mapper")
  then reply (RString 400 "This task is not a mapper")
  else
    let chunkS3 := Query c "chunk_s3" in
    let outS3 := Query c "out_s3" in
    '(bucket, key) ←ₕ must (parseS3 chunkS3);
    text ←ₕ try (Download bucket key);
    let counts := countWords text in
    let js := JSON.Marshal counts in
    '(outBucket, outKey) ←ₕ must (parseS3 outS3);
    _ ←ₕ try (Upload outBucket outKey js);
    hret (ROutput 200 outS3).

End Mapper.

Section Reducer.

(** [for k, v := range m { total[k] += v }] *)
Definition addCounts (total m : gmap string Z) : gmap string Z :=
  map_fold (λ k v total, <[k := wrap64 (get total k + v)]> total) total m.

(** The fold of lines 183-203 over partials that are already decoded. *)
Definition reduceFold (partials : list (gmap string Z)) : gmap string Z :=
  foldl addCounts ∅ partials.

(** The loop of lines 185-203; the error of [json.Unmarshal] is
    dropped. *)
Fixpoint reduceLoop (inputs : list string) (total : gmap string Z)
    : Handler (gmap string Z) :=
  match inputs with
  | [] => hret total
  | input :: rest =>
      '(bucket, key) ←ₕ must (parseS3 input);
      body ←ₕ try (Download bucket key);
      let m := fst (JSON.Unmarshal body ∅) in
      reduceLoop rest (addCounts total m)
  end.

(** GET /reduce *)
Definition reduceHandler (mode : string) (c : Context) : Handler Response :=
  if decide (mode ≠ "reducer")
  then reply (RString 400 "This task is not a reducer")
  else
    let inputs := QueryArray c "in" in
    let outS3 := Query c "out_s3" in
    total ←ₕ reduceLoop inputs ∅;
    let js := JSON.Marshal total in
    '(outBucket, outKey) ←ₕ must (parseS3 outS3);
    _ ←ₕ try (Upload outBucket outKey js);
    hret (ROutput 200 outS3).

End Reducer.

(** ** Map of each chunk, then reduce of all partials *)

(** The two later stages of the pipeline, one call after the other:
    every map call has answered before the reduce call is made.  (The
    script test.sh starts its map calls in the background and does not
    wait for them; that interleaving is not modelled.) *)

Section MapReduce.

Context {table : CaseTable}.

(** One map call per job, a job being the address of a chunk and the
    address for its counts; the calls are made one after the other, and
    the answers are kept. *)
Fixpoint mapEach (jobs : list (string * string)) (w : World) : list Response * World :=
  match jobs with
  | [] => ([], w)
  | job :: rest =>
      let '(answer, w1) :=
        serve (mapHandler "mapper"
                 (mkContext [("chunk_s3", job.1); ("out_s3", job.2)])) w in
      let '(answers, w2) := mapEach rest w1 in
      (answer :: answers, w2)
  end.

(** The reduce call over the partials at [partials], in this order. *)
Definition reduceAll (partials : list string) (outS3 : string) : Handler Response :=
  reduceHandler "reducer"
    (mkContext (((λ input, ("in", input)) <$> partials) ++ [("out_s3", outS3)])).

(** Map of each chunk, then reduce of all partials. *)
Definition mapReduce (jobs : list (string * string)) (outS3 : string) (w : World)
    : (list Response * Response) * World :=
  let '(answers, w1) := mapEach jobs w in
  let '(answer, w2) := serve (reduceAll (snd <$> jobs) outS3) w1 in
  ((answers, answer), w2).

End MapReduce.

(** ** What a run of the chunk loop leaves behind *)

(** The puts of the chunks [parts], numbered from [i]. *)
Fixpoint chunkPuts (bucket prefix : string) (i : Z) (parts : list (list string))
    : list StoreOp :=
  match parts with
  | [] => []
  | p :: ps =>
      PutObject bucket (chunkKey prefix i) (Join p newline)
      :: chunkPuts bucket prefix (i + 1) ps
  end.

(** The addresses of [n] chunks, numbered from [i]. *)
Fixpoint chunkUrls (bucket prefix : string) (i : Z) (n : nat) : list string :=
  match n with
  | O => []
  | S n' => chunkUrl bucket (chunkKey prefix i) :: chunkUrls bucket prefix (i + 1) n'
  end.

(** ** Maximal runs, in the words of the specification *)

(** The byte at index [j] of [s] is an ASCII letter or digit. *)
Definition wordAt (s : string) (j : nat) : Prop :=
  ∃ c, String.get j s = Some c ∧ Regexp.wordByte c = true.

(** The [n] bytes of [s] from index [i] on are a maximal run of ASCII
    letters and digits: a letter or digit each, at least one, with no
    letter or digit right before or right after. *)
Definition maximalRun (s : string) (i n : nat) : Prop :=
  (0 < n)%nat
  ∧ (∀ j, (i ≤ j < i + n)%nat → wordAt s j)
  ∧ (i = 0%nat ∨ ¬ wordAt s (i - 1))
  ∧ ¬ wordAt s (i + n).

(** The piece of [s] a span stands for. *)
Definition piece (s : string) (span : nat * nat) : string :=
  String.substring span.1 span.2 s.

(** What the scanner knows at index [pos] of [whole]. *)
Definition scanning (whole : string) (start : option nat) (pos : nat) (run : string) : Prop :=
  match start with
  | Some i =>
      (i < pos)%nat
      ∧ run = String.substring i (pos - i) whole
      ∧ run ≠ EmptyString
      ∧ (∀ j, (i ≤ j < pos)%nat → wordAt whole j)
      ∧ (i = 0%nat ∨ ¬ wordAt whole (i - 1))
  | None => run = EmptyString ∧ (pos = 0%nat ∨ ¬ wordAt whole (pos - 1))
  end.

(** ** Keys that [json.Marshal] writes as they are *)

(** No quote, no backslash, no control byte.  (The encoder also escapes
    the bytes of <, > and &, and non-ASCII bytes that are not UTF-8; the
    decoder of this model takes them as they are.) *)
Definition plainByte (c : ascii) : bool :=
  negb (bool_decide (c = JSON.quote)) && negb (bool_decide (c = "092"%char))
  && negb (bool_decide (byte_val c < 0x20)).

Fixpoint plainKey (k : string) : bool :=
  match k with
  | EmptyString => true
  | String c k' => plainByte c && plainKey k'
  end.

(** Every byte of [s] is an ASCII letter or digit. *)
Fixpoint wordBytes (s : string) : bool :=
  match s with
  | EmptyString => true
  | String c s' => Regexp.wordByte c && wordBytes s'
  end.

(** The entries of [l] stored one after the other, as the decoder does. *)
Definition storeAll (l : list (string * Z)) (m : gmap string Z) : gmap string Z :=
  foldl (λ acc kv, <[kv.1 := kv.2]> acc) m l.

(** ** Measures on count maps *)

(** The sum of all values of a count map. *)
Definition sumValues (m : gmap string Z) : Z := map_fold (λ _ v acc, v + acc) 0 m.

(** The number of occurrences of [w] in a list of words. *)
Definition occurrences (w : string) (words : list string) : Z :=
  Z.of_nat (length (filter (λ x, x = w) words)).

(** The sum of the values of [k] over a list of count maps, an absent key
    counting as 0. *)
Definition sumAt (k : string) (partials : list (gmap string Z)) : Z :=
  foldr (λ m acc, get m k + acc) 0 partials.

(** ** Sample texts *)

(** The text of the end-to-end example. *)
Definition kingText : string := "The king. The king is dead. Long live the king!".

(** The single rune U+212A, KELVIN SIGN, in UTF-8. *)
Definition kelvinText : string := UTF8.bytes [0xE2; 0x84; 0xAA].

(** ** What a run of the reduce loop has read *)

(** [input] is a parsable address of an object of [w] with content
    [body]. *)
Definition fetched (w : World) (input body : string) : Prop :=
  ∃ bucket key, parseS3 input = Some (bucket, key) ∧ object w bucket key = Some body.

(** The count map the reduce loop takes from the content of a partial. *)
Definition decode (body : string) : gmap string Z := fst (JSON.Unmarshal body ∅).

(** ** What the map calls need *)

(** The bucket [bucket] exists in [w]. *)
Definition hasBucket (w : World) (bucket : string) : Prop :=
  is_Some (buckets w !! bucket).

(** The jobs [jobs] can run on [w] one after the other: the chunk
    addresses hold [chunks], the output addresses parse to [outs] in
    buckets that exist, no two outputs share an address, and no output
    takes the address of a chunk. *)
Definition runnable (w : World) (jobs : list (string * string)) (chunks : list string)
    (outs : list (string * string)) : Prop :=
  Forall2 (λ job chunk, ∃ bucket key,
             parseS3 job.1 = Some (bucket, key)
             ∧ object w bucket key = Some chunk
             ∧ (bucket, key) ∉ outs) jobs chunks
  ∧ Forall2 (λ job out, parseS3 job.2 = Some out ∧ hasBucket w out.1) jobs outs
  ∧ NoDup outs.

(** ** Sample worlds *)

(** A store with the single bucket [bucket]. *)
Definition bucketOf (bucket : string) (objs : gmap string string) : World :=
  mkWorld {[ bucket := objs ]} [].

(** A document of four lines. *)
Definition fourLines : string :=
  "To be, or not to be" +:+ newline +:+ "that is the question" +:+ newline
  +:+ "Whether 'tis nobler" +:+ newline +:+ "in the mind to suffer".

(** The operations a call has added to the log. *)
Definition issued (w w' : World) : list StoreOp := drop (length (trace w)) (trace w').

(** Partial results: a well-formed one, the same cut short after eight
    bytes, and one whose count is 2^62. *)
Definition partialAB : string := JSON.Marshal {[ "a" := 1; "b" := 2 ]}.
Definition partialCut : string := String.substring 0 8 partialAB.
Definition partialBig : string := JSON.Marshal {[ "a" := 2 ^ 62 ]}.

(** The request of the driver for [PARTS] chunks of doc.txt. *)
Definition splitRequest (PARTS : Z) : Context :=
  mkContext [("input_s3", "s3://bucket/doc.txt"); ("parts", Itoa PARTS);
             ("out_prefix", "splits/run-" +:+ Itoa PARTS +:+ "/")].

(** The world of the end-to-end example: doc.txt holds [kingText]. *)
Definition kingWorld : World := bucketOf "bucket" {[ "doc.txt" := kingText ]}.

(** The two chunks of the example when doc.txt has been cut under the
    prefix splits/run-2/: its single line, and an empty chunk. *)
Definition kingChunks : World :=
  bucketOf "bucket" {[ "splits/run-2/chunk-0.txt" := kingText;
                       "splits/run-2/chunk-1.txt" := EmptyString ]}.

(** One job per chunk of [kingChunks]. *)
Definition kingJobs : list (string * string) :=
  [("s3://bucket/splits/run-2/chunk-0.txt", "s3://bucket/maps/run-2/map-0.json");
   ("s3://bucket/splits/run-2/chunk-1.txt", "s3://bucket/maps/run-2/map-1.json")].

(** The counts of the words of [kingText]. *)
Definition kingCounts : gmap string Z :=
  {[ "the" := 3; "king" := 3; "is" := 1; "dead" := 1; "long" := 1; "live" := 1 ]}.

(** The mapping the specification gives for the example. *)
Definition kingCountsStated : gmap string Z :=
  {[ "the" := 4; "king" := 3; "is" := 1; "dead" := 1; "long" := 1; "live" := 1 ]}.

(** ** The store after a run of the chunk loop *)

(** The objects of the chunk bucket after the puts of [parts], numbered
    from [i]: a later put wins. *)
Fixpoint storeChunks (prefix : string) (i : Z) (parts : list (list string))
    (objs : gmap string string) : gmap string string :=
  match parts with
  | [] => objs
  | p :: ps => storeChunks prefix (i + 1) ps (<[chunkKey prefix i := Join p newline]> objs)
  end.

(** The lines of chunk [j] when the chunk size is [chunkSize]. *)
Definition chunkLines (lines : list string) (chunkSize : Z) (j : nat) : list string :=
  take (Z.to_nat (Z.min ((Z.of_nat j + 1) * chunkSize) (Z.of_nat (length lines))
                  - Z.of_nat j * chunkSize))
       (drop (Z.to_nat (Z.of_nat j * chunkSize)) lines).

(** A store whose doc.txt holds [fourLines]. *)
Definition fourLinesWorld : World := bucketOf "bucket" {[ "doc.txt" := fourLines ]}.

(** A document of six lines. *)
Definition sixLines : string :=
  "a" +:+ newline +:+ "b" +:+ newline +:+ "c" +:+ newline
  +:+ "d" +:+ newline +:+ "e" +:+ newline +:+ "f".

(** ** The reads of a reduce call *)

(** The get of one input, when its address parses. *)
Definition getOf (input : string) : list StoreOp :=
  match parseS3 input with
  | Some (bucket, key) => [GetObject bucket key]
  | None => []
  end.

(** The gets of the inputs, in order. *)
Definition reads (inputs : list string) : list StoreOp := inputs ≫= getOf.

(** * Properties *)

(** ** The models at work *)

Example parseS3_address : parseS3 "s3://bucket/a/b.txt" = Some ("bucket", "a/b.txt").
Proof. reflexivity. Qed.

Example parseS3_no_slash : parseS3 "s3://bucket" = None.
Proof. reflexivity. Qed.

Example parseS3_one_slash : parseS3 "s3:/bucket" = Some ("s3:", "bucket").
Proof. reflexivity. Qed.

Example Split_lines :
  Split ("ab" +:+ newline +:+ "c" +:+ newline) "010" = ["ab"; "c"; EmptyString].
Proof. reflexivity. Qed.

Example Split_empty : Split EmptyString "010" = [EmptyString].
Proof. reflexivity. Qed.

Example chunkKey_prefixes :
  chunkKey "splits/run-3/" 0 = "splits/run-3/chunk-0.txt"
  ∧ chunkKey "splits" 12 = "splits/chunk-12.txt"
  ∧ chunkKey "a//" 1 = "a//chunk-1.txt"
  ∧ chunkKey EmptyString 2 = "/chunk-2.txt".
Proof. repeat split. Qed.

Example cut_two_lines :
  cut ["a"; "b"] 1 0 = Some ["a"] ∧ cut ["a"; "b"] 1 1 = Some ["b"]
  ∧ cut ["a"; "b"] 1 2 = Some [].
Proof. repeat split. Qed.

Example wrap64_overflow : wrap64 (max_int + 1) = min_int.
Proof. reflexivity. Qed.

Example ToLower_ascii (table : CaseTable) :
  Strings.ToLower "The King, 2nd!" = "the king, 2nd!".
Proof. reflexivity. Qed.

Example ToLower_kelvin :
  Strings.ToLower (table := Unicode.latin_table) kelvinText = "k".
Proof. reflexivity. Qed.

Example FindAllString_words :
  Regexp.FindAllString "the king, 2nd!" = ["the"; "king"; "2nd"]
  ∧ Regexp.FindAllStringIndex "the king, 2nd!" = [(0, 3); (4, 4); (10, 3)]%nat.
Proof. split; reflexivity. Qed.

Example Marshal_sorted :
  JSON.Marshal {[ "b" := 2; "a" := 1 ]}
  = "{" +:+ String JSON.quote "a" +:+ String JSON.quote ":1,"
    +:+ String JSON.quote "b" +:+ String JSON.quote ":2}".
Proof. vm_compute. reflexivity. Qed.

Example Unmarshal_object :
  JSON.Unmarshal (JSON.Marshal {[ "b" := 2; "a" := -1 ]}) ∅ = ({[ "b" := 2; "a" := -1 ]}, None).
Proof. vm_compute. reflexivity. Qed.

Example Unmarshal_not_json :
  JSON.Unmarshal "not json" {[ "a" := 1 ]}
  = ({[ "a" := 1 ]}, Some "json: cannot unmarshal").
Proof. vm_compute. reflexivity. Qed.

(** ** Go integers *)

Lemma wrap64_id z : in_range z → wrap64 z = z.
Proof.
  unfold in_range, min_int, max_int, wrap64. intros Hz.
  rewrite Z.mod_small by lia. lia.
Qed.

Lemma wrap64_range z : in_range (wrap64 z).
Proof.
  unfold in_range, min_int, max_int, wrap64.
  pose proof (Z.mod_pos_bound (z + 2 ^ 63) (2 ^ 64) ltac:(lia)). lia.
Qed.

Lemma wrap64_add_l a b : wrap64 (wrap64 a + b) = wrap64 (a + b).
Proof.
  unfold wrap64. f_equal.
  replace ((a + 2 ^ 63) mod 2 ^ 64 - 2 ^ 63 + b + 2 ^ 63)
    with ((a + 2 ^ 63) mod 2 ^ 64 + b) by lia.
  rewrite Zplus_mod_idemp_l. f_equal. lia.
Qed.

Lemma wrap64_add_r a b : wrap64 (a + wrap64 b) = wrap64 (a + b).
Proof. rewrite (Z.add_comm a), wrap64_add_l. f_equal. lia. Qed.

(** ** Strings *)

Lemma append_cons a s t : String a s +:+ t = String a (s +:+ t).
Proof. reflexivity. Qed.

Lemma append_nil_l s : EmptyString +:+ s = s.
Proof. reflexivity. Qed.

Lemma append_nil_r s : s +:+ EmptyString = s.
Proof. induction s as [|a s IH]; [done|]. by rewrite append_cons, IH. Qed.

Lemma append_assoc s t u : (s +:+ t) +:+ u = s +:+ (t +:+ u).
Proof. induction s as [|a s IH]; [done|]. by rewrite !append_cons, IH. Qed.

Lemma length_append s t :
  String.length (s +:+ t) = (String.length s + String.length t)%nat.
Proof. induction s as [|a s IH]; [done|]. rewrite append_cons. simpl. by rewrite IH. Qed.

Lemma IndexByte_range s c : IndexByte s c = -1 ∨ 0 ≤ IndexByte s c < len s.
Proof.
  unfold len. induction s as [|a s IH]; [by left|].
  cbn [IndexByte String.length].
  destruct (decide (a = c)); [right; lia|].
  destruct (decide (IndexByte s c = -1)); [by left|]. right. lia.
Qed.

Lemma substring_0_length s t : String.substring 0 (String.length s) (s +:+ t) = s.
Proof.
  induction s as [|a s IH].
  - by destruct t.
  - rewrite append_cons. simpl. by rewrite IH.
Qed.

Lemma substring_all s : String.substring 0 (String.length s) s = s.
Proof. induction s as [|a s IH]; simpl; [done|by rewrite IH]. Qed.

Lemma substring_skip n m s : String.substring n m s = String.substring 0 m (skip n s).
Proof.
  revert s. induction n as [|n IH]; intros s; [done|].
  destruct s as [|a s]; simpl; [by destruct m|]. apply IH.
Qed.

Lemma skip_append s t : skip (String.length s) (s +:+ t) = t.
Proof. induction s as [|a s IH]; [done|]. by rewrite append_cons. Qed.

(** No '/' occurs before the first '/'. *)
Lemma IndexByte_prefix s c :
  0 ≤ IndexByte s c →
  IndexByte (String.substring 0 (Z.to_nat (IndexByte s c)) s) c = -1.
Proof.
  induction s as [|a s IH]; simpl; [lia|].
  destruct (decide (a = c)) as [->|Hne]; [done|].
  destruct (decide (IndexByte s c = -1)) as [|Hi]; [lia|]. intros _.
  destruct (IndexByte_range s c) as [|[? _]]; [done|].
  replace (Z.to_nat (IndexByte s c + 1)) with (S (Z.to_nat (IndexByte s c))) by lia.
  simpl. rewrite decide_False by done. rewrite IH by done. done.
Qed.

Lemma IndexByte_append s c t :
  IndexByte s c = -1 → IndexByte (s +:+ String c t) c = len s.
Proof.
  unfold len. induction s as [|a s IH].
  - intros _. simpl. by rewrite decide_True.
  - rewrite append_cons. cbn [IndexByte String.length].
    destruct (decide (a = c)); [done|].
    pose proof (IndexByte_range s c).
    destruct (decide (IndexByte s c = -1)) as [Hs|]; [|lia]. intros _.
    rewrite IH by done. destruct (decide _); lia.
Qed.

(** ** parseS3 *)

Lemma parseS3_None url : parseS3 url = None ↔ noSeparator url.
Proof.
  unfold parseS3, noSeparator, str_slice.
  set (trim := TrimPrefix url "s3://").
  pose proof (IndexByte_range trim "/") as Hi. cbv zeta.
  destruct (decide (0 ≤ 0 ∧ _)) as [?|?]; simpl.
  - destruct (decide (0 ≤ _ ∧ _)) as [?|?]; simpl; [|lia]. split; [done|lia].
  - split; [|done]. lia.
Qed.

Lemma parseS3_Some url bucket key :
  parseS3 url = Some (bucket, key) → IndexByte bucket "/" = -1.
Proof.
  unfold parseS3, str_slice.
  set (trim := TrimPrefix url "s3://").
  cbv zeta. destruct (decide (0 ≤ 0 ∧ _)) as [Hi|]; [|done]. simpl.
  destruct (decide (0 ≤ _ ∧ _)); [|done]. simpl.
  intros [= <- _].
  rewrite Z.sub_0_r. change (Z.to_nat 0) with 0%nat. apply IndexByte_prefix. lia.
Qed.

(** Parsing an address built as the split handler builds it gives the
    bucket and the key back. *)
Lemma parseS3_format bucket key :
  IndexByte bucket "/" = -1 →
  parseS3 ("s3://" +:+ bucket +:+ "/" +:+ key) = Some (bucket, key).
Proof.
  intros Hb. unfold parseS3.
  assert (TrimPrefix ("s3://" +:+ bucket +:+ "/" +:+ key) "s3://"
          = bucket +:+ String "/" key) as ->.
  { reflexivity. }
  rewrite IndexByte_append by done. unfold str_slice, len.
  rewrite length_append. simpl String.length.
  destruct (decide (0 ≤ 0 ∧ _)) as [?|?]; [|lia]. simpl.
  destruct (decide (0 ≤ _ ∧ _)) as [?|?]; [|lia]. simpl.
  rewrite Z.sub_0_r, Nat2Z.id, substring_0_length.
  replace (Z.to_nat (Z.of_nat (String.length bucket) + 1))
    with (String.length (bucket +:+ "/")) by (rewrite length_append; simpl; lia).
  replace (Z.to_nat _) with (String.length key) by lia.
  rewrite substring_skip.
  replace (bucket +:+ String "/" key) with ((bucket +:+ "/") +:+ key)
    by (by rewrite append_assoc).
  by rewrite skip_append, substring_all.
Qed.

(** ** Running handler bodies *)

Ltac handler_unfold :=
  unfold serve, splitHandler, mapHandler, reduceHandler, splitInto,
    hbind, must, try, hret, reply.

Lemma trace_Download bucket key w :
  trace (snd (Download bucket key w)) = trace w ++ [GetObject bucket key].
Proof. unfold Download. by repeat case_match. Qed.

Lemma trace_Upload bucket key body w :
  trace (snd (Upload bucket key body w)) = trace w ++ [PutObject bucket key body].
Proof. unfold Upload. by repeat case_match. Qed.

Lemma Download_object bucket key w text :
  object w bucket key = Some text →
  Download bucket key w = (Ok text, record (GetObject bucket key) w).
Proof.
  unfold object, Download. destruct (buckets w !! bucket) as [objs|]; [|done].
  simpl. by intros ->.
Qed.

Lemma Upload_bucket bucket key body w objs :
  buckets w !! bucket = Some objs →
  Upload bucket key body w
  = (Ok (), mkWorld (<[bucket := <[key := body]> objs]> (buckets w))
                    (trace w ++ [PutObject bucket key body])).
Proof. unfold Upload. by intros ->. Qed.

(** A run of the chunk loop that reaches its end has put one chunk per
    iteration, each cut by [cut], all into [bucket], and has appended
    their addresses in order. *)
Lemma splitLoop_Next n i lines chunkSize bucket prefix urls w urls' w' :
  splitLoop n i lines chunkSize bucket prefix urls w = (Next urls', w') →
  ∃ parts : list (list string),
    length parts = n
    ∧ (∀ (j : nat) p, parts !! j = Some p → cut lines chunkSize (i + Z.of_nat j) = Some p)
    ∧ urls' = urls ++ chunkUrls bucket prefix i n
    ∧ trace w' = trace w ++ chunkPuts bucket prefix i parts.
Proof.
  revert i urls w. induction n as [|n IH]; intros i urls w; simpl.
  - unfold hret. intros [= <- <-]. exists []. by rewrite !app_nil_r.
  - unfold hbind at 1, must.
    destruct (cut lines chunkSize i) as [part|] eqn:Hcut; [|done].
    unfold hbind at 1, try.
    destruct (Upload _ _ _ w) as [[[]|msg] w1] eqn:Hup; [|done].
    intros (parts & Hlen & Hcuts & -> & ->)%IH.
    exists (part :: parts). split_and!.
    + simpl. by rewrite Hlen.
    + intros [|j] p; simpl.
      * intros [= <-]. by rewrite Z.add_0_r.
      * intros Hj%Hcuts. rewrite <- Hj. f_equal. lia.
    + by rewrite <- app_assoc.
    + pose proof (trace_Upload bucket (chunkKey prefix i) (Join part newline) w) as Htr.
      rewrite Hup in Htr. simpl in Htr. rewrite Htr. by rewrite <- app_assoc.
Qed.

(** The loop ends early only by a panic or by a failed upload. *)
Lemma splitLoop_Done n i lines chunkSize bucket prefix urls w r w' :
  splitLoop n i lines chunkSize bucket prefix urls w = (Done r, w') →
  r = RPanic ∨ ∃ msg, r = RString 500 msg.
Proof.
  revert i urls w. induction n as [|n IH]; intros i urls w; simpl; [done|].
  unfold hbind at 1, must.
  destruct (cut lines chunkSize i) as [part|]; [|intros [= <- _]; by left].
  unfold hbind at 1, try.
  destruct (Upload _ _ _ w) as [[[]|msg] w1]; [by apply IH|].
  intros [= <- _]. eauto.
Qed.

Lemma chunkPuts_bucket bucket prefix i parts b k body :
  PutObject b k body ∈ chunkPuts bucket prefix i parts →
  b = bucket ∧ ∃ j, k = chunkKey prefix j.
Proof.
  revert i. induction parts as [|p ps IH]; intros i; simpl.
  - by intros ?%elem_of_nil.
  - intros [[= -> -> ->]|Hin]%elem_of_cons; [eauto|]. by eapply IH.
Qed.

Lemma chunkUrls_parse bucket prefix i n u :
  IndexByte bucket "/" = -1 →
  u ∈ chunkUrls bucket prefix i n →
  ∃ j, parseS3 u = Some (bucket, chunkKey prefix j).
Proof.
  intros Hb. revert i. induction n as [|n IH]; intros i; simpl.
  - by intros ?%elem_of_nil.
  - intros [->|Hin]%elem_of_cons; [|by eapply IH].
    exists i. by apply parseS3_format.
Qed.

(** What a split call that answers with a list of addresses has done. *)
Lemma splitHandler_success mode c w code urls w' :
  serve (splitHandler mode c) w = (RUrls code urls, w') →
  ∃ bucket key content chunkSize (parts : list (list string)),
    parseS3 (Query c "input_s3") = Some (bucket, key)
    ∧ object w bucket key = Some content
    ∧ GoInt.div (wrap64 (Z.of_nat (length (Split content "010")) + 3 - 1)) 3 = Some chunkSize
    ∧ length parts = 3%nat
    ∧ (∀ (j : nat) p, parts !! j = Some p →
         cut (Split content "010") chunkSize (Z.of_nat j) = Some p)
    ∧ code = 200
    ∧ urls = chunkUrls bucket (Query c "out_prefix") 0 3
    ∧ trace w' = trace w ++ GetObject bucket key
                   :: chunkPuts bucket (Query c "out_prefix") 0 parts.
Proof.
  handler_unfold. destruct (decide (mode ≠ "splitter")); [done|].
  destruct (parseS3 (Query c "input_s3")) as [[bucket key]|] eqn:Hparse; [|done].
  destruct (Download bucket key w) as [[content|msg] w1] eqn:Hdl; [|done].
  destruct (GoInt.div _ 3) as [chunkSize|] eqn:Hdiv; [|done].
  destruct (splitLoop _ _ _ _ _ _ _ w1) as [[urls1|r] w2] eqn:Hloop;
    [|apply splitLoop_Done in Hloop as [->|[msg ->]]; done].
  intros [= <- <- <-].
  apply splitLoop_Next in Hloop as (parts & Hlen & Hcuts & -> & Htr).
  exists bucket, key, content, chunkSize, parts. split_and!; try done.
  - unfold Download in Hdl. unfold object.
    destruct (buckets w !! bucket) as [objs|]; [|done]. simpl.
    by destruct (objs !! key); simplify_eq.
  - pose proof (trace_Download bucket key w) as Htr1. rewrite Hdl in Htr1.
    simpl in Htr1. rewrite Htr, Htr1. by rewrite <- app_assoc.
Qed.

(** ** Address parsing and the store (C2) *)

Section ParseFailure.

Context {table : CaseTable}.

Lemma reduceLoop_first_unparsed first rest total w :
  noSeparator first → reduceLoop (first :: rest) total w = (Done RPanic, w).
Proof.
  intros Hno%parseS3_None. simpl. unfold hbind, must. by rewrite Hno.
Qed.

(** C2, as the code has it.  [parseS3] rejects an address exactly when no
    '/' is left after a leading "s3://" is removed, so "s3:/bucket" is
    accepted (container "s3:", key "bucket").  A rejected source address
    of split, chunk address of map or first partial address of reduce
    (or output address of a reduce without partials) ends the call by the
    panic of [parseS3] with no store operation; a rejected output address
    of map ends the call the same way after the get of the chunk. *)
Theorem parse_failure_before_io (w : World) (c : Context) :
  (∀ url, parseS3 url = None ↔ noSeparator url)
  ∧ parseS3 "s3:/bucket" = Some ("s3:", "bucket")
  ∧ (noSeparator (Query c "input_s3") →
     serve (splitHandler "splitter" c) w = (RPanic, w))
  ∧ (noSeparator (Query c "chunk_s3") →
     serve (mapHandler "mapper" c) w = (RPanic, w))
  ∧ (∀ first rest, QueryArray c "in" = first :: rest → noSeparator first →
     serve (reduceHandler "reducer" c) w = (RPanic, w))
  ∧ (QueryArray c "in" = [] → noSeparator (Query c "out_s3") →
     serve (reduceHandler "reducer" c) w = (RPanic, w))
  ∧ (∀ bucket key text,
       parseS3 (Query c "chunk_s3") = Some (bucket, key) →
       object w bucket key = Some text →
       noSeparator (Query c "out_s3") →
       serve (mapHandler "mapper" c) w = (RPanic, record (GetObject bucket key) w)).
Proof.
  split_and!.
  - apply parseS3_None.
  - reflexivity.
  - intros Hno%parseS3_None. handler_unfold. simpl. by rewrite Hno.
  - intros Hno%parseS3_None. handler_unfold. simpl. by rewrite Hno.
  - intros first rest Hin Hno. handler_unfold. simpl. rewrite Hin.
    by rewrite (reduceLoop_first_unparsed first rest ∅ w Hno).
  - intros Hin Hno%parseS3_None. handler_unfold. simpl. rewrite Hin. simpl.
    unfold hret. by rewrite Hno.
  - intros bucket key text Hparse Hobj Hno%parseS3_None.
    handler_unfold. simpl. rewrite Hparse.
    rewrite (Download_object _ _ _ _ Hobj). by rewrite Hno.
Qed.

End ParseFailure.

Lemma parse_failure_before_io_witness :
  serve (splitHandler "splitter" (mkContext [("input_s3", "s3://bucket")]))
        (bucketOf "bucket" ∅)
  = (RPanic, bucketOf "bucket" ∅).
Proof.
  destruct (parse_failure_before_io (table := Unicode.latin_table) (bucketOf "bucket" ∅)
              (mkContext [("input_s3", "s3://bucket")])) as (_ & _ & Hsplit & _).
  apply Hsplit. reflexivity.
Defined.

(** C2 as stated fails.  The address of the claim's own example is
    accepted, and the split call given it goes on to the store; and a map
    call whose output address has no separator at all has already read the
    chunk when it fails. *)
Lemma parse_failure_counterexample :
  serve (splitHandler "splitter" (mkContext [("input_s3", "s3:/bucket")]))
        (bucketOf "bucket" ∅)
  = (RString 500 "NoSuchBucket",
     record (GetObject "s3:" "bucket") (bucketOf "bucket" ∅))
  ∧ ¬ (∀ (w : World) (c : Context),
         noSeparator (Query c "chunk_s3") ∨ noSeparator (Query c "out_s3") →
         issued w (snd (serve (mapHandler (table := Unicode.latin_table) "mapper" c) w)) = []).
Proof.
  split; [reflexivity|].
  intros Hclaim.
  specialize (Hclaim (bucketOf "bucket" {[ "chunk-0.txt" := "a b" ]})
                (mkContext [("chunk_s3", "s3://bucket/chunk-0.txt");
                            ("out_s3", "s3://bucket")])).
  vm_compute in Hclaim. discriminate Hclaim. by right.
Qed.

(** ** The bucket of the chunks (C9) *)

(** C9.  A split call that answers with the list of addresses has parsed a
    bucket and a key out of its source address; every operation it issued
    is the get of that object or a put into that same bucket under a key
    built from the output prefix, and every returned address parses to
    that same bucket and such a key. *)
Theorem split_same_bucket mode c w code urls w' :
  serve (splitHandler mode c) w = (RUrls code urls, w') →
  ∃ bucket key,
    parseS3 (Query c "input_s3") = Some (bucket, key)
    ∧ (∀ op, op ∈ issued w w' →
         op = GetObject bucket key
         ∨ ∃ j body, op = PutObject bucket (chunkKey (Query c "out_prefix") j) body)
    ∧ (∀ u, u ∈ urls →
         ∃ j, parseS3 u = Some (bucket, chunkKey (Query c "out_prefix") j)).
Proof.
  intros (bucket & key & content & chunkSize & parts & Hparse & _ & _ & _ & _
          & _ & -> & Htr)%splitHandler_success.
  exists bucket, key. split_and!; [done|..].
  - intros op. unfold issued. rewrite Htr, drop_app_length.
    intros [->|Hin]%elem_of_cons; [by left|]. right.
    destruct op as [b k|b k body]; [exfalso|].
    + clear -Hin. revert Hin. generalize 0. induction parts as [|p ps IH]; intros i; simpl.
      * by intros ?%elem_of_nil.
      * intros [?|?]%elem_of_cons; [done|by eapply IH].
    + apply chunkPuts_bucket in Hin as [-> [j ->]]. eauto.
  - intros u Hu. eapply chunkUrls_parse; [|done]. by eapply parseS3_Some.
Qed.

Lemma split_same_bucket_witness :
  let c := mkContext [("input_s3", "s3://bucket/doc.txt"); ("parts", "3");
                      ("out_prefix", "splits/run-3/")] in
  let w := bucketOf "bucket" {[ "doc.txt" := fourLines ]} in
  ∃ bucket key,
    parseS3 (Query c "input_s3") = Some (bucket, key)
    ∧ (∀ op, op ∈ issued w (snd (serve (splitHandler "splitter" c) w)) →
         op = GetObject bucket key
         ∨ ∃ j body, op = PutObject bucket (chunkKey (Query c "out_prefix") j) body)
    ∧ (∀ u, u ∈ ["s3://bucket/splits/run-3/chunk-0.txt";
                 "s3://bucket/splits/run-3/chunk-1.txt";
                 "s3://bucket/splits/run-3/chunk-2.txt"] →
         ∃ j, parseS3 u = Some (bucket, chunkKey (Query c "out_prefix") j)).
Proof.
  intros c w.
  apply (split_same_bucket "splitter" c w 200).
  vm_compute. reflexivity.
Defined.

(** ** Count maps *)

Lemma get_insert (m : gmap string Z) k v k' :
  get (<[k := v]> m) k' = if decide (k = k') then v else get m k'.
Proof. unfold get. rewrite lookup_insert. by case_decide. Qed.

Lemma get_empty k : get ∅ k = 0.
Proof. unfold get. by rewrite lookup_empty. Qed.

Lemma sumValues_empty : sumValues ∅ = 0.
Proof. unfold sumValues. by rewrite map_fold_empty. Qed.

Lemma sumValues_insert_None (m : gmap string Z) k v :
  m !! k = None → sumValues (<[k := v]> m) = v + sumValues m.
Proof.
  intros Hk. unfold sumValues. rewrite map_fold_insert_L; [done| |done].
  intros. lia.
Qed.

Lemma sumValues_insert (m : gmap string Z) k v :
  sumValues (<[k := v]> m) = sumValues m - get m k + v.
Proof.
  unfold get. destruct (m !! k) as [v0|] eqn:Hk; simpl.
  - rewrite <- (insert_delete_eq m k v).
    rewrite sumValues_insert_None by apply lookup_delete_eq.
    rewrite <- (insert_delete_id m k v0) at 2 by done.
    rewrite (sumValues_insert_None (delete k m) k v0) by apply lookup_delete_eq. lia.
  - rewrite sumValues_insert_None by done. lia.
Qed.

(** ** The mapper's counts (C6, C10) *)

Lemma occurrences_nil w : occurrences w [] = 0.
Proof. done. Qed.

Lemma occurrences_snoc w words x :
  occurrences w (words ++ [x]) = occurrences w words + (if decide (x = w) then 1 else 0).
Proof.
  unfold occurrences. rewrite filter_app, length_app, filter_cons, filter_nil.
  case_decide; simpl; lia.
Qed.

Lemma occurrences_bounds w words :
  0 ≤ occurrences w words ≤ Z.of_nat (length words).
Proof. unfold occurrences. pose proof (length_filter (λ x, x = w) words). lia. Qed.

Lemma occurrences_pos w words : w ∈ words ↔ 1 ≤ occurrences w words.
Proof.
  unfold occurrences. split.
  - intros Hin. assert (w ∈ filter (λ x, x = w) words) as Hf
      by (by apply list_elem_of_filter).
    destruct (filter _ words); [by apply elem_of_nil in Hf|simpl; lia].
  - intros Hlen. destruct (filter (λ x, x = w) words) as [|x l] eqn:Hf; [simpl in Hlen; lia|].
    assert (x ∈ filter (λ x, x = w) words) as [-> ?]%list_elem_of_filter
      by (rewrite Hf; left). done.
Qed.

(** The counting loop, word by word: as long as the number of words fits
    an [int], every word read so far is a key, its value is the number of
    its occurrences, and the values add up to the number of words read. *)
Lemma counting_loop words :
  Z.of_nat (length words) ≤ max_int →
  let counts := foldl increment ∅ words in
  (∀ w, counts !! w = if decide (w ∈ words) then Some (occurrences w words) else None)
  ∧ sumValues counts = Z.of_nat (length words).
Proof.
  induction words as [|x words IH] using rev_ind; intros Hlen counts.
  - subst counts. simpl. split; [|apply sumValues_empty].
    intros w. rewrite lookup_empty. by destruct (decide (w ∈ [])) as [?%elem_of_nil|].
  - rewrite length_app in Hlen. simpl in Hlen.
    destruct IH as [IHl IHs]; [lia|].
    subst counts. rewrite foldl_snoc. set (counts := foldl increment ∅ words) in *.
    assert (get counts x = occurrences x words) as Hget.
    { unfold get. rewrite IHl. case_decide as Hin; [done|]. simpl.
      pose proof (occurrences_bounds x words).
      destruct (decide (1 ≤ occurrences x words)) as [?%occurrences_pos|]; [done|lia]. }
    assert (wrap64 (get counts x + 1) = occurrences x words + 1) as Hw.
    { rewrite Hget. apply wrap64_id. pose proof (occurrences_bounds x words).
      unfold in_range, min_int, max_int in *. lia. }
    unfold increment. rewrite Hw. split.
    + intros w. rewrite lookup_insert, occurrences_snoc.
      destruct (decide (x = w)) as [->|Hne].
      * rewrite decide_True by (apply elem_of_app; right; left). done.
      * rewrite IHl. rewrite Z.add_0_r.
        destruct (decide (w ∈ words)) as [Hin|Hin].
        -- rewrite decide_True by (apply elem_of_app; by left). done.
        -- rewrite decide_False; [done|].
           intros [?|?%list_elem_of_singleton]%elem_of_app; done.
    + rewrite sumValues_insert, IHs, Hget, length_app. simpl. lia.
Qed.

Lemma FindAll_go_length run s :
  (length (Regexp.FindAll_go run s) ≤ length (Regexp.flush run) + String.length s)%nat.
Proof.
  revert run. induction s as [|c s IH]; intros run; simpl; [lia|].
  destruct (Regexp.wordByte c).
  - etrans; [apply IH|]. unfold Regexp.flush at 1.
    destruct (decide _) as [Heq|_]; [by destruct run|]. simpl. lia.
  - rewrite length_app. specialize (IH EmptyString). simpl in IH. lia.
Qed.

Lemma FindAllString_length s :
  Z.of_nat (length (Regexp.FindAllString s)) ≤ len s.
Proof.
  unfold len, Regexp.FindAllString.
  pose proof (FindAll_go_length EmptyString s) as Hle.
  change (Regexp.flush EmptyString) with (@nil string) in Hle. simpl in Hle. lia.
Qed.

Lemma mapBytes_append f s t :
  Strings.mapBytes f (s +:+ t) = Strings.mapBytes f s +:+ Strings.mapBytes f t.
Proof. induction s as [|c s IH]; [done|]. rewrite append_cons. simpl. by rewrite IH. Qed.

Lemma wordByte_lowerByte c : Regexp.wordByte (Strings.lowerByte c) = Regexp.wordByte c.
Proof. by destruct c as [[] [] [] [] [] [] [] []]. Qed.

(** On ASCII text it does not matter whether the words are cut before or
    after lower-casing. *)
Lemma FindAll_go_lower run s :
  Regexp.FindAll_go (Strings.mapBytes Strings.lowerByte run)
                    (Strings.mapBytes Strings.lowerByte s)
  = Strings.mapBytes Strings.lowerByte <$> Regexp.FindAll_go run s.
Proof.
  assert (∀ r, Regexp.flush (Strings.mapBytes Strings.lowerByte r)
               = Strings.mapBytes Strings.lowerByte <$> Regexp.flush r) as Hflush.
  { by intros [|c r]. }
  revert run. induction s as [|c s IH]; intros run; simpl; [apply Hflush|].
  rewrite wordByte_lowerByte. destruct (Regexp.wordByte c).
  - rewrite <- IH. by rewrite mapBytes_append.
  - rewrite fmap_app, Hflush. f_equal. apply (IH EmptyString).
Qed.

(** ** The matches of the word expression are the maximal runs *)

Lemma get_append_mid pre c s : String.get (String.length pre) (pre +:+ String c s) = Some c.
Proof. induction pre as [|a pre IH]; [done|]. rewrite append_cons. apply IH. Qed.

Lemma get_length_None s j : (String.length s ≤ j)%nat → String.get j s = None.
Proof.
  revert j. induction s as [|a s IH]; intros j Hj; [done|].
  destruct j as [|j]; simpl in *; [lia|]. apply IH. lia.
Qed.

Lemma substring_zero i s : String.substring i 0 s = EmptyString.
Proof. revert i. induction s as [|a s IH]; intros [|i]; simpl; auto. Qed.

Lemma substring_snoc s i pos c :
  (i ≤ pos)%nat → String.get pos s = Some c →
  String.substring i (pos - i) s +:+ String c EmptyString
  = String.substring i (S pos - i) s.
Proof.
  revert i pos. induction s as [|a s IH]; intros i pos Hle Hget; [by destruct pos|].
  destruct i as [|i].
  - rewrite !Nat.sub_0_r. clear Hle. revert a s IH Hget.
    induction pos as [|pos IHpos]; intros a s IH Hget.
    + simpl in *. injection Hget as ->. by rewrite substring_zero.
    + change (String.substring 0 (S pos) (String a s))
        with (String a (String.substring 0 pos s)).
      change (String.substring 0 (S (S pos)) (String a s))
        with (String a (String.substring 0 (S pos) s)).
      rewrite append_cons. f_equal.
      specialize (IH 0%nat pos). rewrite !Nat.sub_0_r in IH. apply IH; [lia|done].
  - destruct pos as [|pos]; [lia|].
    change (String.substring (S i) (S pos - S i) (String a s))
      with (String.substring i (pos - i) s).
    change (String.substring (S i) (S (S pos) - S i) (String a s))
      with (String.substring i (S pos - i) s).
    apply IH; [lia|done].
Qed.

Lemma run_in_bounds s i n :
  (0 < n)%nat → (∀ j, (i ≤ j < i + n)%nat → wordAt s j) →
  (i + n ≤ String.length s)%nat.
Proof.
  intros Hn Hrun. destruct (Hrun (i + n - 1)%nat) as (c & Hget & _); [lia|].
  destruct (decide (i + n ≤ String.length s)%nat); [done|].
  rewrite get_length_None in Hget by lia. done.
Qed.

(** Two runs that end at the same index and cannot be extended to the
    left start at the same index. *)
Lemma run_start_unique s i i' e :
  (i < e)%nat → (i' < e)%nat →
  (∀ j, (i ≤ j < e)%nat → wordAt s j) → (i = 0%nat ∨ ¬ wordAt s (i - 1)) →
  (∀ j, (i' ≤ j < e)%nat → wordAt s j) → (i' = 0%nat ∨ ¬ wordAt s (i' - 1)) →
  i = i'.
Proof.
  intros Hi Hi' Hrun Hleft Hrun' Hleft'.
  destruct (Nat.lt_trichotomy i i') as [Hlt|[->|Hlt]]; [|done|].
  - destruct Hleft' as [->|Hn]; [lia|]. exfalso. apply Hn, Hrun. lia.
  - destruct Hleft as [->|Hn]; [lia|]. exfalso. apply Hn, Hrun'. lia.
Qed.


Lemma FindAll_go_spans whole s pre start run :
  whole = pre +:+ s →
  scanning whole start (String.length pre) run →
  Regexp.FindAll_go run s
  = piece whole <$> Regexp.FindAllIndex_go start (String.length pre) s
  ∧ ∀ i n, (i, n) ∈ Regexp.FindAllIndex_go start (String.length pre) s
           ↔ maximalRun whole i n ∧ (String.length pre ≤ i + n)%nat.
Proof.
  revert pre start run. induction s as [|c s IH]; intros pre start run Hwhole Hscan.
  - rewrite append_nil_r in Hwhole. subst pre. simpl. unfold Regexp.flushIndex.
    destruct start as [i0|]; simpl in Hscan.
    + destruct Hscan as (Hlt & -> & Hne & Hrun & Hleft). split.
      * unfold Regexp.flush. by rewrite decide_False.
      * intros i n. rewrite list_elem_of_singleton. split.
        -- intros [= -> ->]. split; [|lia].
           split_and!; [lia| |done|].
           ++ intros j Hj. apply Hrun. lia.
           ++ intros (c & Hget & _). rewrite get_length_None in Hget by lia. done.
        -- intros [(Hn & Hrun' & Hleft' & _) Hend].
           assert (i + n ≤ String.length whole)%nat as Hle
             by (by apply run_in_bounds).
           assert (i = i0) as ->.
           { apply (run_start_unique whole i i0 (String.length whole));
               [lia|done| |done|done|done].
             intros j Hj. apply Hrun'. lia. }
           f_equal. lia.
    + destruct Hscan as [-> Hleft]. split; [done|].
      intros i n. split; [by intros ?%elem_of_nil|].
      intros [(Hn & Hrun' & _ & _) Hend]. exfalso.
      assert (i + n ≤ String.length whole)%nat as Hle
        by (by apply run_in_bounds).
      destruct Hleft as [Hz|Hnw]; [lia|]. apply Hnw, Hrun'. lia.
  - assert (String.get (String.length pre) whole = Some c) as Hget
      by (rewrite Hwhole; apply get_append_mid).
    assert (whole = (pre +:+ String c EmptyString) +:+ s) as Hwhole'
      by (by rewrite append_assoc).
    assert (String.length (pre +:+ String c EmptyString) = S (String.length pre)) as Hlen
      by (rewrite length_append; simpl; lia).
    simpl. unfold Regexp.flushIndex. destruct (Regexp.wordByte c) eqn:Hc.
    + (* the run goes on *)
      destruct (IH (pre +:+ String c EmptyString) (Some (default (String.length pre) start))
                  (run +:+ String c EmptyString) Hwhole') as [Heq Hiff].
      { rewrite Hlen. destruct start as [i0|]; simpl in Hscan |- *.
        - destruct Hscan as (Hlt & -> & Hne & Hrun & Hleft).
          split_and!; [lia| |by destruct (String.substring _ _ _)| |done].
          + apply substring_snoc; [lia|done].
          + intros j Hj. destruct (decide (j = String.length pre)) as [->|];
              [by exists c|apply Hrun; lia].
        - destruct Hscan as [-> Hleft].
          split_and!; [lia| |done| |done].
          + rewrite <- (substring_snoc whole _ _ c) by (done || lia).
            by rewrite Nat.sub_diag, substring_zero.
          + intros j Hj. assert (j = String.length pre) as -> by lia. by exists c. }
      rewrite Hlen in Heq, Hiff. split; [done|].
      intros i n. rewrite Hiff. split; [intros [? ?]; split; [done|lia]|].
      intros [Hmax Hend]. split; [done|].
      destruct (decide ((i + n)%nat = String.length pre)) as [Heqn|]; [|lia].
      destruct Hmax as (_ & _ & _ & Hright). exfalso. apply Hright.
      rewrite Heqn. by exists c.
    + (* the run, if any, ends here *)
      assert (¬ wordAt whole (String.length pre)) as Hnot.
      { intros (c' & Hget' & Hc'). congruence. }
      destruct (IH (pre +:+ String c EmptyString) None EmptyString Hwhole') as [Heq Hiff].
      { rewrite Hlen. split; [done|]. right. by rewrite Nat.sub_1_r. }
      rewrite Hlen in Heq, Hiff. rewrite fmap_app, <- Heq.
      destruct start as [i0|]; simpl in Hscan |- *.
      * destruct Hscan as (Hlt & -> & Hne & Hrun & Hleft). split.
        -- unfold Regexp.flush. by rewrite decide_False.
        -- intros i n. rewrite elem_of_cons, Hiff. split.
           ++ intros [[= -> ->]|[? ?]]; [|split; [done|lia]].
              split; [|lia]. split_and!; [lia| |done|].
              ** intros j Hj. apply Hrun. lia.
              ** by replace (i0 + (String.length pre - i0))%nat with (String.length pre) by lia.
           ++ intros [Hmax Hend].
              destruct (decide ((i + n)%nat = String.length pre)) as [Heqn|];
                [left|right; split; [done|lia]].
              destruct Hmax as (Hn & Hrun' & Hleft' & _).
              assert (i = i0) as ->.
              { apply (run_start_unique whole i i0 (String.length pre));
                  [lia|done| |done|done|done].
                intros j Hj. apply Hrun'. lia. }
              f_equal. lia.
      * destruct Hscan as [-> Hleft]. split; [done|].
        intros i n. rewrite Hiff. split; [intros [? ?]; split; [done|lia]|].
        intros [Hmax Hend]. split; [done|].
        destruct (decide ((i + n)%nat = String.length pre)) as [Heqn|]; [|lia]. exfalso.
        destruct Hmax as (Hn & Hrun' & _ & _).
        destruct Hleft as [Hz|Hnw]; [lia|]. apply Hnw, Hrun'. lia.
Qed.

Lemma FindAllIndex_go_end start pos s i n :
  (i, n) ∈ Regexp.FindAllIndex_go start pos s → (pos ≤ i + n)%nat.
Proof.
  revert start pos. induction s as [|c s IH]; intros start pos; simpl;
    unfold Regexp.flushIndex.
  - destruct start; simpl; [|by intros ?%elem_of_nil].
    intros [= -> ->]%list_elem_of_singleton. lia.
  - destruct (Regexp.wordByte c).
    + intros ?%IH. lia.
    + intros [Hin|?%IH]%elem_of_app; [|lia].
      destruct start; simpl in Hin; [|by apply elem_of_nil in Hin].
      apply list_elem_of_singleton in Hin as [= -> ->]. lia.
Qed.

Lemma FindAllIndex_go_NoDup start pos s :
  (∀ i, start = Some i → (i < pos)%nat) →
  NoDup (Regexp.FindAllIndex_go start pos s).
Proof.
  revert start pos. induction s as [|c s IH]; intros start pos Hstart; simpl;
    unfold Regexp.flushIndex.
  - destruct start; simpl; [apply NoDup_singleton|apply NoDup_nil_2].
  - destruct (Regexp.wordByte c).
    + apply IH. intros i [= <-]. destruct start as [i0|]; simpl; [|lia].
      specialize (Hstart i0 eq_refl). lia.
    + destruct start as [i0|]; simpl; [|by apply IH].
      apply NoDup_cons. split; [|by apply IH].
      intros Hin%FindAllIndex_go_end. specialize (Hstart i0 eq_refl). lia.
Qed.

(** The matches of [[A-Za-z0-9]+] in [s] are the maximal runs of ASCII
    letters and digits of [s], each listed once. *)
Lemma FindAllString_maximal_runs s :
  Regexp.FindAllString s = piece s <$> Regexp.FindAllStringIndex s
  ∧ NoDup (Regexp.FindAllStringIndex s)
  ∧ ∀ i n, (i, n) ∈ Regexp.FindAllStringIndex s ↔ maximalRun s i n.
Proof.
  destruct (FindAll_go_spans s s EmptyString None EmptyString) as [Heq Hiff];
    [done|by split; [|left]|].
  split_and!; [done|by apply FindAllIndex_go_NoDup|].
  intros i n. unfold Regexp.FindAllStringIndex. rewrite (Hiff i n). simpl.
  split; [by intros [? _]|]. intros ?. split; [done|lia].
Qed.

Lemma is_Some_decide {A} (P : Prop) `{Decision P} (a : A) :
  is_Some (if decide P then Some a else None) ↔ P.
Proof. case_decide; split; intros Hx; [done|by eexists|by destruct Hx|done]. Qed.

Section MapperCounts.

Context {table : CaseTable}.

Lemma wordsOf_ascii text :
  Strings.isASCII text = true →
  wordsOf text = Strings.mapBytes Strings.lowerByte <$> Regexp.FindAllString text.
Proof.
  intros Hascii. unfold wordsOf, Strings.ToLower. rewrite Hascii.
  apply (FindAll_go_lower EmptyString).
Qed.

Lemma wordsOf_fit text :
  len (Strings.ToLower text) ≤ max_int → Z.of_nat (length (wordsOf text)) ≤ max_int.
Proof. intros Hlen. etrans; [apply FindAllString_length|done]. Qed.

(** A map call that answers with its output address has stored the
    encoding of the counts of the chunk it read at that address. *)
Lemma mapHandler_success mode c w code out w' :
  serve (mapHandler mode c) w = (ROutput code out, w') →
  ∃ text outBucket outKey,
    fetched w (Query c "chunk_s3") text
    ∧ parseS3 (Query c "out_s3") = Some (outBucket, outKey)
    ∧ out = Query c "out_s3"
    ∧ object w' outBucket outKey = Some (JSON.Marshal (countWords text)).
Proof.
  handler_unfold. destruct (decide (mode ≠ "mapper")); [done|].
  destruct (parseS3 (Query c "chunk_s3")) as [[bucket key]|] eqn:Hparse; [|done].
  destruct (Download bucket key w) as [[text|msg] w1] eqn:Hdl; [|done].
  assert (object w bucket key = Some text ∧ w1 = record (GetObject bucket key) w)
    as [Hobj ->].
  { unfold Download in Hdl. unfold object.
    destruct (buckets w !! bucket) as [objs|]; [|done]. simpl.
    by destruct (objs !! key); simplify_eq. }
  destruct (parseS3 (Query c "out_s3")) as [[outBucket outKey]|] eqn:Hout; [|done].
  destruct (Upload outBucket outKey _ _) as [[[]|msg] w2] eqn:Hup; [|done].
  intros [= <- <- <-]. exists text, outBucket, outKey.
  split_and!; [by exists bucket, key|done|done|].
  unfold Upload in Hup. simpl in Hup.
  destruct (buckets w !! outBucket) as [objs|]; [|done].
  simplify_eq. unfold object. simpl. rewrite lookup_insert_eq. simpl.
  by rewrite lookup_insert_eq.
Qed.

(** C6, as the code has it.  The text is lower-cased as a whole by
    [strings.ToLower] and the words are cut afterwards.  The keys are
    exactly the maximal runs of ASCII letters and digits of the
    lower-cased text, each value is the number of occurrences of its key
    among those runs, and the values add up to the number of those runs.
    For text that is ASCII throughout, the words are the lower-cased
    matches, that is maximal runs, of the text itself. *)
Theorem counts_of_lowered_runs (text : string) :
  len (Strings.ToLower text) ≤ max_int →
  let lowered := Strings.ToLower text in
  let spans := Regexp.FindAllStringIndex lowered in
  (NoDup spans ∧ ∀ i n, (i, n) ∈ spans ↔ maximalRun lowered i n)
  ∧ (∀ k, is_Some (countWords text !! k)
          ↔ ∃ i n, maximalRun lowered i n ∧ k = String.substring i n lowered)
  ∧ (∀ k v, countWords text !! k = Some v → v = occurrences k (piece lowered <$> spans))
  ∧ sumValues (countWords text) = Z.of_nat (length spans)
  ∧ (Strings.isASCII text = true →
     wordsOf text = Strings.mapBytes Strings.lowerByte <$> Regexp.FindAllString text).
Proof.
  intros Hlen%wordsOf_fit lowered spans.
  destruct (counting_loop (wordsOf text) Hlen) as [Hlookup Hsum].
  destruct (FindAllString_maximal_runs lowered) as (Hwords & Hnodup & Hspans).
  fold spans in Hwords, Hnodup, Hspans.
  change (Regexp.FindAllString lowered) with (wordsOf text) in Hwords.
  split_and!; [done|done| | | |apply wordsOf_ascii].
  - intros k. unfold countWords. rewrite Hlookup, is_Some_decide, Hwords.
    rewrite list_elem_of_fmap. split.
    + intros ([i n] & -> & Hin%Hspans). by exists i, n.
    + intros (i & n & Hmax%Hspans & ->). by exists (i, n).
  - intros k v. unfold countWords. rewrite Hlookup, <- Hwords. case_decide; congruence.
  - unfold countWords. by rewrite Hsum, Hwords, length_fmap.
Qed.

End MapperCounts.

Lemma counts_of_lowered_runs_witness :
  let lowered := Strings.ToLower (table := Unicode.latin_table) kingText in
  let spans := Regexp.FindAllStringIndex lowered in
  (NoDup spans ∧ ∀ i n, (i, n) ∈ spans ↔ maximalRun lowered i n)
  ∧ (∀ k, is_Some (countWords (table := Unicode.latin_table) kingText !! k)
          ↔ ∃ i n, maximalRun lowered i n ∧ k = String.substring i n lowered)
  ∧ (∀ k v, countWords (table := Unicode.latin_table) kingText !! k = Some v →
            v = occurrences k (piece lowered <$> spans))
  ∧ sumValues (countWords (table := Unicode.latin_table) kingText)
    = Z.of_nat (length spans)
  ∧ (Strings.isASCII kingText = true →
     wordsOf (table := Unicode.latin_table) kingText
     = Strings.mapBytes Strings.lowerByte <$> Regexp.FindAllString kingText).
Proof.
  apply (counts_of_lowered_runs (table := Unicode.latin_table) kingText).
  vm_compute. discriminate.
Defined.

(** C6 as stated fails.  [strings.ToLower] maps the KELVIN SIGN (three
    non-ASCII bytes, no letter or digit among them) to the ASCII letter k:
    the chunk has no run of ASCII letters or digits, yet the counts are
    k: 1. *)
Lemma counts_kelvin_counterexample :
  (∀ i n, ¬ maximalRun kelvinText i n)
  ∧ Regexp.FindAllString kelvinText = []
  ∧ map_to_list (countWords (table := Unicode.latin_table) kelvinText) = [("k", 1)]
  ∧ ¬ (∀ text : string,
         dom (countWords (table := Unicode.latin_table) text)
           =@{gset string} list_to_set (Strings.mapBytes Strings.lowerByte
                                          <$> Regexp.FindAllString text)
         ∧ sumValues (countWords (table := Unicode.latin_table) text)
           = Z.of_nat (length (Regexp.FindAllString text))).
Proof.
  split_and!; [|reflexivity..|].
  - intros i n Hmax.
    apply (FindAllString_maximal_runs kelvinText) in Hmax.
    vm_compute in Hmax. by apply elem_of_nil in Hmax.
  - intros Hclaim. destruct (Hclaim kelvinText) as [_ Hsum].
    vm_compute in Hsum. discriminate Hsum.
Qed.

(** ** The reducer's fold (C7) *)

(** Adding a partial into the running total, key by key. *)
Lemma addCounts_lookup (total m : gmap string Z) k :
  addCounts total m !! k
  = match m !! k with
    | Some v => Some (wrap64 (get total k + v))
    | None => total !! k
    end.
Proof.
  unfold addCounts. revert k.
  apply (map_fold_weak_ind
           (λ r (m : gmap string Z), ∀ k,
              r !! k = match m !! k with
                       | Some v => Some (wrap64 (get total k + v))
                       | None => total !! k
                       end)); clear m.
  - intros k. by rewrite lookup_empty.
  - intros i x m r Hi IH k. rewrite !lookup_insert. case_decide as Hik.
    + subst k. unfold get at 1. by rewrite IH, Hi.
    + apply IH.
Qed.

Lemma addCounts_get (total m : gmap string Z) k :
  in_range (get total k) →
  get (addCounts total m) k = wrap64 (get total k + get m k).
Proof.
  intros Hr. unfold get at 1 3. rewrite addCounts_lookup.
  destruct (m !! k); simpl; [done|]. rewrite Z.add_0_r. symmetry. by apply wrap64_id.
Qed.

Lemma sumAt_absent k (partials : list (gmap string Z)) :
  Forall (λ m, m !! k = None) partials → sumAt k partials = 0.
Proof.
  induction 1 as [|m ms Hm _ IH]; [done|].
  simpl. unfold get. rewrite Hm. simpl. fold (sumAt k ms). lia.
Qed.

(** The running total after a list of partials: a key met in some partial
    holds the wrapped sum of what it held before and of its values; any
    other key is as before. *)
Lemma foldl_addCounts_lookup (partials : list (gmap string Z)) total k :
  foldl addCounts total partials !! k
  = if decide (Exists (λ m, is_Some (m !! k)) partials)
    then Some (wrap64 (get total k + sumAt k partials))
    else total !! k.
Proof.
  revert total. induction partials as [|m ms IH]; intros total; cbn [foldl].
  - rewrite decide_False; [done|]. by intros ?%Exists_nil.
  - rewrite IH. change (sumAt k (m :: ms)) with (get m k + sumAt k ms).
    destruct (decide (Exists _ ms)) as [Hex|Hnex].
    + rewrite decide_True by (by right). f_equal.
      unfold get at 1. rewrite addCounts_lookup. unfold get at 3.
      destruct (m !! k) as [v|]; simpl.
      * rewrite wrap64_add_l. f_equal. lia.
      * f_equal.
    + rewrite addCounts_lookup.
      assert (sumAt k ms = 0) as ->.
      { apply sumAt_absent. apply Forall_forall. intros m' Hm'.
        apply eq_None_not_Some. intros Hs. apply Hnex, Exists_exists. eauto. }
      unfold get. destruct (m !! k) as [v|] eqn:Hm; simpl.
      * rewrite decide_True; [by rewrite Z.add_0_r|].
        left. rewrite Hm. by eexists.
      * rewrite decide_False; [done|].
        intros [Hs|?]%Exists_cons; [|done]. rewrite Hm in Hs. by destruct Hs.
Qed.

Lemma reduceFold_lookup (partials : list (gmap string Z)) k :
  reduceFold partials !! k
  = if decide (Exists (λ m, is_Some (m !! k)) partials)
    then Some (wrap64 (sumAt k partials))
    else None.
Proof.
  unfold reduceFold. rewrite foldl_addCounts_lookup, get_empty, lookup_empty.
  by rewrite Z.add_0_l.
Qed.

Lemma reduceFold_get (partials : list (gmap string Z)) k :
  get (reduceFold partials) k = wrap64 (sumAt k partials).
Proof.
  unfold get. rewrite reduceFold_lookup. case_decide as Hex; [done|]. simpl.
  rewrite sumAt_absent; [done|]. apply Forall_forall. intros m Hm.
  apply eq_None_not_Some. intros Hs. apply Hex, Exists_exists. eauto.
Qed.

Lemma sumAt_app k (l1 l2 : list (gmap string Z)) :
  sumAt k (l1 ++ l2) = sumAt k l1 + sumAt k l2.
Proof.
  unfold sumAt. induction l1 as [|m l1 IH]; simpl; [done|]. rewrite IH. lia.
Qed.

Lemma sumAt_Permutation k (l1 l2 : list (gmap string Z)) :
  l1 ≡ₚ l2 → sumAt k l1 = sumAt k l2.
Proof.
  unfold sumAt. induction 1 as [|m l1 l2 _ IH|m1 m2 l|l1 l2 l3 _ IH1 _ IH2]; simpl.
  - done.
  - by rewrite IH.
  - lia.
  - by rewrite IH1.
Qed.

Lemma elem_of_concat {A} (x : A) (ls : list (list A)) :
  x ∈ concat ls ↔ ∃ l, x ∈ l ∧ l ∈ ls.
Proof.
  induction ls as [|l ls IH]; simpl.
  - split; [by intros ?%elem_of_nil|by intros (? & _ & ?%elem_of_nil)].
  - rewrite elem_of_app, IH. split.
    + intros [?|(l' & ? & ?)]; [exists l; split; [done|left]|exists l'; split; [done|by right]].
    + intros (l' & ? & [->|?]%elem_of_cons); [by left|right; eauto].
Qed.

(** Folding the totals of the groups is folding all their partials. *)
Lemma sumAt_groups k (groups : list (list (gmap string Z))) :
  wrap64 (sumAt k (reduceFold <$> groups)) = wrap64 (sumAt k (concat groups)).
Proof.
  induction groups as [|g gs IH]; [done|].
  rewrite fmap_cons. change (concat (g :: gs)) with (g ++ concat gs).
  change (sumAt k (reduceFold g :: (reduceFold <$> gs)))
    with (get (reduceFold g) k + sumAt k (reduceFold <$> gs)).
  rewrite sumAt_app, reduceFold_get, wrap64_add_l.
  by rewrite <- wrap64_add_r, IH, wrap64_add_r.
Qed.

(** C7, as the code has it.  [total[k] += v] is addition on [int]: the
    total of a key is the sum of its values over all partials (0 where it
    is absent, a partial counted as often as it is listed) wrapped into the
    64-bit range, hence the sum itself whenever that sum fits an [int];
    the keys of the total are the keys of the partials; the total does not
    change when the list is permuted, nor when the list is cut into
    groups that are reduced first and whose totals are then reduced. *)
Theorem reduce_additive (partials : list (gmap string Z)) :
  (∀ k, get (reduceFold partials) k = wrap64 (sumAt k partials))
  ∧ (∀ k, in_range (sumAt k partials) →
          get (reduceFold partials) k = sumAt k partials)
  ∧ (∀ k, is_Some (reduceFold partials !! k)
          ↔ Exists (λ m, is_Some (m !! k)) partials)
  ∧ (∀ partials', partials ≡ₚ partials' → reduceFold partials' = reduceFold partials)
  ∧ (∀ groups, concat groups = partials →
               reduceFold (reduceFold <$> groups) = reduceFold partials).
Proof.
  split_and!.
  - apply reduceFold_get.
  - intros k Hr. rewrite reduceFold_get. by apply wrap64_id.
  - intros k. by rewrite reduceFold_lookup, is_Some_decide.
  - intros partials' Hperm. apply map_eq. intros k. rewrite !reduceFold_lookup.
    rewrite (sumAt_Permutation k _ _ Hperm).
    destruct (decide (Exists _ partials)) as [Hex|Hnex].
    + rewrite decide_True; [done|]. by rewrite <- Hperm.
    + rewrite decide_False; [done|]. by rewrite <- Hperm.
  - intros groups <-. apply map_eq. intros k. rewrite !reduceFold_lookup.
    rewrite sumAt_groups.
    assert (Exists (λ m, is_Some (m !! k)) (reduceFold <$> groups)
            ↔ Exists (λ m, is_Some (m !! k)) (concat groups)) as Hiff.
    { rewrite !Exists_exists. split.
      - intros (m & (g & -> & Hg)%list_elem_of_fmap & Hs).
        rewrite reduceFold_lookup, is_Some_decide in Hs.
        apply Exists_exists in Hs as (m & Hm & Hs). exists m. split; [|done].
        apply elem_of_concat. eauto.
      - intros (m & (g & Hm & Hg)%elem_of_concat & Hs).
        exists (reduceFold g). split; [by apply list_elem_of_fmap_2|].
        rewrite reduceFold_lookup, is_Some_decide. apply Exists_exists. eauto. }
    destruct (decide (Exists _ (concat groups))) as [Hex|Hnex].
    + rewrite decide_True; [done|]. by apply Hiff.
    + rewrite decide_False; [done|]. by rewrite Hiff.
Qed.

Lemma reduce_additive_witness :
  let partials : list (gmap string Z) :=
    [ {[ "the" := 2; "king" := 1 ]}; {[ "the" := 1 ]}; {[ "the" := 2; "king" := 1 ]} ] in
  get (reduceFold partials) "the" = 5
  ∧ reduceFold (reverse partials) = reduceFold partials
  ∧ reduceFold (reduceFold <$> [ [ {[ "the" := 2; "king" := 1 ]} ];
                                  [ {[ "the" := 1 ]}; {[ "the" := 2; "king" := 1 ]} ] ])
    = reduceFold partials.
Proof.
  intros partials.
  destruct (reduce_additive partials) as (_ & Hsum & _ & Hperm & Hgroups).
  split_and!.
  - apply (Hsum "the"). vm_compute. split; discriminate.
  - apply Hperm. symmetry. apply reverse_Permutation.
  - apply Hgroups. reflexivity.
Defined.

(** C7 as stated fails.  Two partials that each give the key 2^62 add up
    to 2^63, which is not an [int]: the total holds -2^63.  The reduce
    call on two such objects persists that value. *)
Lemma reduce_overflow_counterexample :
  ¬ (∀ (partials : list (gmap string Z)) k,
       get (reduceFold partials) k = sumAt k partials)
  ∧ (let w := bucketOf "bucket" {[ "maps/map-0.json" := partialBig;
                                   "maps/map-1.json" := partialBig ]} in
     let c := mkContext [("in", "s3://bucket/maps/map-0.json");
                         ("in", "s3://bucket/maps/map-1.json");
                         ("out_s3", "s3://bucket/reduce/final.json")] in
     decode partialBig = {[ "a" := 2 ^ 62 ]}
     ∧ object (snd (serve (reduceHandler "reducer" c) w)) "bucket" "reduce/final.json"
       = Some (JSON.Marshal {[ "a" := - 2 ^ 63 ]})).
Proof.
  split.
  - intros Hclaim.
    specialize (Hclaim [ {[ "a" := 2 ^ 62 ]}; {[ "a" := 2 ^ 62 ]} ] "a").
    vm_compute in Hclaim. discriminate Hclaim.
  - vm_compute. split; reflexivity.
Qed.

(** The order in which [range] visits the entries of a partial does not
    matter. *)
Lemma addCounts_any_order (total m : gmap string Z) (entries : list (string * Z)) :
  entries ≡ₚ map_to_list m →
  foldr (λ kv total, <[kv.1 := wrap64 (get total kv.1 + kv.2)]> total) total entries
  = addCounts total m.
Proof.
  intros Hperm. unfold addCounts. rewrite map_fold_foldr.
  assert (∀ l, foldr (uncurry (λ (k : string) (v : Z) (total : gmap string Z),
                        <[k := wrap64 (get total k + v)]> total)) total l
               = foldr (λ kv total, <[kv.1 := wrap64 (get total kv.1 + kv.2)]> total) total l)
    as ->.
  { induction l as [|[k v] l IH]; simpl; [done|]. by rewrite IH. }
  apply (foldr_permutation (=)); [solve_proper| |done].
  intros j1 [k1 v1] j2 [k2 v2] b _ _ _. simpl.
  apply map_eq. intros k. rewrite !lookup_insert, !get_insert.
  repeat case_decide; simplify_eq; try done.
  rewrite !wrap64_add_l. do 2 f_equal. lia.
Qed.

(** ** The reduce handler (C3) *)

Lemma record_object op w bucket key : object (record op w) bucket key = object w bucket key.
Proof. done. Qed.

Lemma fetched_record op w input body : fetched (record op w) input body ↔ fetched w input body.
Proof. done. Qed.

(** A run of the reduce loop that reaches its end has read every input in
    order and has folded what it decoded of each. *)
Lemma reduceLoop_Next inputs total w total' w' :
  reduceLoop inputs total w = (Next total', w') →
  ∃ bodies,
    Forall2 (fetched w) inputs bodies
    ∧ total' = foldl addCounts total (decode <$> bodies)
    ∧ buckets w' = buckets w.
Proof.
  revert total w. induction inputs as [|input rest IH]; intros total w; simpl.
  - unfold hret. intros [= <- <-]. by exists [].
  - unfold hbind at 1, must.
    destruct (parseS3 input) as [[bucket key]|] eqn:Hparse; [|done].
    unfold hbind at 1, try.
    destruct (Download bucket key w) as [[body|msg] w1] eqn:Hdl; [|done].
    assert (object w bucket key = Some body ∧ w1 = record (GetObject bucket key) w)
      as [Hobj ->].
    { unfold Download in Hdl. unfold object.
      destruct (buckets w !! bucket) as [objs|]; [|done]. simpl.
      by destruct (objs !! key); simplify_eq. }
    intros (bodies & Hall & -> & Hb)%IH.
    exists (body :: bodies). split_and!; [|done|done].
    constructor; [by exists bucket, key|].
    eapply Forall2_impl; [done|]. intros ?? Hf. by apply fetched_record in Hf.
Qed.

Lemma reduceLoop_Done inputs total w r w' :
  reduceLoop inputs total w = (Done r, w') →
  r = RPanic ∨ ∃ msg, r = RString 500 msg.
Proof.
  revert total w. induction inputs as [|input rest IH]; intros total w; simpl; [done|].
  unfold hbind at 1, must.
  destruct (parseS3 input) as [[bucket key]|]; [|intros [= <- _]; by left].
  unfold hbind at 1, try.
  destruct (Download bucket key w) as [[body|msg] w1]; [by apply IH|].
  intros [= <- _]. eauto.
Qed.

(** A reduce call that answers with its output address has read every
    partial and has stored the encoding of their fold at that address. *)
Lemma reduceHandler_success mode c w code out w' :
  serve (reduceHandler mode c) w = (ROutput code out, w') →
  ∃ bodies outBucket outKey,
    Forall2 (fetched w) (QueryArray c "in") bodies
    ∧ parseS3 (Query c "out_s3") = Some (outBucket, outKey)
    ∧ object w' outBucket outKey = Some (JSON.Marshal (reduceFold (decode <$> bodies))).
Proof.
  handler_unfold. destruct (decide (mode ≠ "reducer")); [done|].
  destruct (reduceLoop _ _ w) as [[total|r] w1] eqn:Hloop;
    [|apply reduceLoop_Done in Hloop as [->|[msg ->]]; done].
  apply reduceLoop_Next in Hloop as (bodies & Hall & -> & Hb).
  destruct (parseS3 (Query c "out_s3")) as [[outBucket outKey]|] eqn:Hparse; [|done].
  destruct (Upload outBucket outKey _ w1) as [[[]|msg] w2] eqn:Hup; [|done].
  intros [= <- <- <-]. exists bodies, outBucket, outKey. split_and!; [done..|].
  unfold Upload in Hup. destruct (buckets w1 !! outBucket) as [objs|]; [|done].
  simplify_eq. unfold object. simpl. rewrite lookup_insert_eq. simpl.
  by rewrite lookup_insert_eq.
Qed.

Lemma Download_buckets bucket key w : buckets (Download bucket key w).2 = buckets w.
Proof. unfold Download. by repeat case_match. Qed.

Lemma reduceLoop_buckets inputs total w o w' :
  reduceLoop inputs total w = (o, w') → buckets w' = buckets w.
Proof.
  revert total w. induction inputs as [|input rest IH]; intros total w; simpl.
  - unfold hret. by intros [= _ <-].
  - unfold hbind at 1, must.
    destruct (parseS3 input) as [[bucket key]|]; [|by intros [= _ <-]].
    unfold hbind at 1, try. pose proof (Download_buckets bucket key w) as Hb.
    destruct (Download bucket key w) as [[body|msg] w1]; simpl in Hb.
    + intros ->%IH. done.
    + by intros [= _ <-].
Qed.

(** The half of C3 that holds: a reduce call that does not answer with its
    output address, be it for an unreadable partial, a rejected address or
    a failed upload, leaves every object of the store as it was. *)
Lemma reduceHandler_failure_stores_nothing mode c w r w' :
  serve (reduceHandler mode c) w = (r, w') →
  (∀ code out, r ≠ ROutput code out) →
  buckets w' = buckets w.
Proof.
  handler_unfold. destruct (decide (mode ≠ "reducer")); [by intros [= _ <-]|].
  destruct (reduceLoop _ _ w) as [[total|r1] w1] eqn:Hloop;
    apply reduceLoop_buckets in Hloop; [|by intros [= _ <-]].
  destruct (parseS3 (Query c "out_s3")) as [[outBucket outKey]|]; [|by intros [= _ <-]].
  unfold Upload. destruct (buckets w1 !! outBucket) as [objs|].
  - intros [= <- _] Hr. by destruct (Hr 200 (Query c "out_s3")).
  - by intros [= _ <-].
Qed.

(** An unreadable partial is such a case. *)
Lemma reduceLoop_unreadable inputs good input rest total w :
  inputs = good ++ input :: rest →
  (∀ x, x ∈ good → ∃ body, fetched w x body) →
  (∃ bucket key, parseS3 input = Some (bucket, key) ∧ object w bucket key = None) →
  ∃ msg w', reduceLoop inputs total w = (Done (RString 500 msg), w').
Proof.
  intros -> Hgood (bucket & key & Hparse & Hnone).
  revert total w Hgood Hnone. induction good as [|x good IH]; intros total w Hgood Hnone; simpl.
  - unfold hbind at 1, must. rewrite Hparse. unfold hbind, try, Download.
    unfold object in Hnone. destruct (buckets w !! bucket) as [objs|]; simpl in Hnone.
    + rewrite Hnone. eauto.
    + eauto.
  - destruct (Hgood x) as (body & b & k & Hp & Hobj); [left|].
    unfold hbind at 1, must. rewrite Hp. unfold hbind at 1, try.
    rewrite (Download_object _ _ _ _ Hobj).
    apply IH; [|done]. intros y Hy. destruct (Hgood y) as (body' & Hf); [by right|].
    exists body'. by apply fetched_record.
Qed.

(** The unreadable half of C3 at the level of the call: when the first
    partial that cannot be read comes after partials that can, the call
    answers 500 with the error of the store and stores nothing. *)
Lemma reduce_unreadable_aborts c w good input rest :
  QueryArray c "in" = good ++ input :: rest →
  (∀ x, x ∈ good → ∃ body, fetched w x body) →
  (∃ bucket key, parseS3 input = Some (bucket, key) ∧ object w bucket key = None) →
  ∃ msg w', serve (reduceHandler "reducer" c) w = (RString 500 msg, w')
            ∧ buckets w' = buckets w.
Proof.
  intros Hin Hgood Hbad.
  destruct (reduceLoop_unreadable _ good input rest ∅ w Hin Hgood Hbad) as (msg & w' & Hloop).
  exists msg, w'.
  assert (serve (reduceHandler "reducer" c) w = (RString 500 msg, w')) as Hserve.
  { handler_unfold. simpl. by rewrite Hloop. }
  split; [done|].
  by eapply reduceHandler_failure_stores_nothing.
Qed.

(** C3, at a failing input.  The second partial is a JSON text cut short;
    [json.Unmarshal] reports an error for it, the handler drops that error,
    counts the partial as empty, stores the total of the first partial
    alone and answers 200. *)
Theorem reduce_ignores_unparsable :
  let w := bucketOf "bucket" {[ "maps/map-0.json" := partialAB;
                                "maps/map-1.json" := partialCut ]} in
  let c := mkContext [("in", "s3://bucket/maps/map-0.json");
                      ("in", "s3://bucket/maps/map-1.json");
                      ("out_s3", "s3://bucket/reduce/final.json")] in
  is_Some (snd (JSON.Unmarshal partialCut ∅))
  ∧ fst (serve (reduceHandler "reducer" c) w) = ROutput 200 "s3://bucket/reduce/final.json"
  ∧ object (snd (serve (reduceHandler "reducer" c) w)) "bucket" "reduce/final.json"
    = Some partialAB.
Proof. vm_compute. split_and!; [by eexists|done..]. Qed.

(** ** The chunks of a split (C1, C4, C5) *)

Lemma cut_Some lines chunkSize i p :
  0 ≤ chunkSize → 0 ≤ i → (i + 1) * chunkSize ≤ max_int →
  cut lines chunkSize i = Some p →
  i * chunkSize ≤ Z.of_nat (length lines)
  ∧ p = take (Z.to_nat (Z.min ((i + 1) * chunkSize) (Z.of_nat (length lines))
                        - i * chunkSize))
             (drop (Z.to_nat (i * chunkSize)) lines).
Proof.
  intros Hcs Hi Hmax. unfold cut, slice.
  rewrite !wrap64_id by (unfold in_range, min_int, max_int in *; nia).
  case_bool_decide as Hend; destruct (decide _) as [Hb|]; try done;
    intros [= <-]; (split; [lia|]); do 2 f_equal; lia.
Qed.

(** Consecutive cuts, taken from chunk [i] on, lie side by side in
    [lines]. *)
Lemma cuts_concat lines chunkSize (ps : list (list string)) i :
  0 ≤ chunkSize → 0 ≤ i →
  (i + Z.of_nat (length ps)) * chunkSize ≤ max_int →
  ps ≠ [] →
  (∀ (j : nat) p, ps !! j = Some p → cut lines chunkSize (i + Z.of_nat j) = Some p) →
  i * chunkSize ≤ Z.of_nat (length lines)
  ∧ concat ps
    = take (Z.to_nat (Z.min ((i + Z.of_nat (length ps)) * chunkSize)
                            (Z.of_nat (length lines)) - i * chunkSize))
           (drop (Z.to_nat (i * chunkSize)) lines)
  ∧ Forall (λ p, Z.of_nat (length p) ≤ chunkSize) ps.
Proof.
  intros Hcs. revert i. induction ps as [|p ps IH]; intros i Hi Hmax Hne Hcuts; [done|].
  clear Hne. cbn [length] in Hmax. rewrite Nat2Z.inj_succ in Hmax.
  destruct (cut_Some lines chunkSize i p) as [Hstart Hp]; [lia|lia|nia|..].
  { specialize (Hcuts 0%nat p eq_refl). by rewrite Z.add_0_r in Hcuts. }
  assert (Z.of_nat (length p) ≤ chunkSize) as Hplen.
  { rewrite Hp, length_take. lia. }
  destruct ps as [|q ps].
  - split_and!; [done| |by repeat constructor].
    simpl. rewrite app_nil_r, Hp. do 2 f_equal; lia.
  - destruct (IH (i + 1)) as (Hnext & Hconcat & Hall); [lia| |done| |].
    { cbn [length] in *. nia. }
    { intros j p' Hj. specialize (Hcuts (S j) p' Hj). rewrite <- Hcuts. f_equal. lia. }
    split_and!; [done| |by constructor].
    change (concat (p :: q :: ps)) with (p ++ concat (q :: ps)).
    rewrite Hconcat, Hp.
    replace (Z.to_nat ((i + 1) * chunkSize))
      with (Z.to_nat (i * chunkSize) + Z.to_nat chunkSize)%nat by lia.
    rewrite <- drop_drop.
    replace (Z.to_nat (Z.min ((i + 1) * chunkSize) (Z.of_nat (length lines)) - i * chunkSize))
      with (Z.to_nat chunkSize) by lia.
    rewrite take_take_drop. f_equal. cbn [length] in *. lia.
Qed.

(** Ceiling division, as the handler computes it. *)
Lemma chunkSize_ceiling L parts chunkSize :
  0 ≤ L → 1 ≤ parts → L + parts - 1 ≤ max_int →
  GoInt.div (wrap64 (L + parts - 1)) parts = Some chunkSize →
  chunkSize = (L + parts - 1) `div` parts
  ∧ 0 ≤ chunkSize ∧ L ≤ parts * chunkSize ≤ L + parts - 1.
Proof.
  intros HL Hparts Hmax. unfold GoInt.div.
  rewrite decide_False by lia.
  rewrite (wrap64_id (L + parts - 1)) by (unfold in_range, min_int, max_int in *; lia).
  rewrite Z.quot_div_nonneg by lia.
  pose proof (Z.div_mod (L + parts - 1) parts ltac:(lia)) as Hdm.
  pose proof (Z.mod_pos_bound (L + parts - 1) parts ltac:(lia)) as Hmod.
  assert (0 ≤ (L + parts - 1) `div` parts) by (apply Z.div_pos; lia).
  rewrite wrap64_id by (unfold in_range, min_int, max_int in *; nia).
  intros [= <-]. split_and!; [done|done|nia|nia].
Qed.

(** Split completeness for a run that reaches its end.  When the chunk
    loop of a document of L lines and [parts] parts runs through, the
    chunks it has put are, in index order, consecutive pieces of the list
    of lines that together make up that list, and none has more than
    ceil(L / parts) lines. *)
Lemma splitInto_complete parts content bucket prefix w urls w' :
  1 ≤ parts →
  Z.of_nat (length (Split content "010")) + parts - 1 ≤ max_int →
  splitInto parts content bucket prefix w = (Next urls, w') →
  ∃ ps : list (list string),
    length ps = Z.to_nat parts
    ∧ concat ps = Split content "010"
    ∧ Forall (λ p, Z.of_nat (length p)
                   ≤ (Z.of_nat (length (Split content "010")) + parts - 1) `div` parts) ps
    ∧ urls = chunkUrls bucket prefix 0 (Z.to_nat parts)
    ∧ trace w' = trace w ++ chunkPuts bucket prefix 0 ps.
Proof.
  intros Hparts Hmax. unfold splitInto, hbind, must.
  set (lines := Split content "010") in *.
  destruct (GoInt.div _ parts) as [chunkSize|] eqn:Hdiv; [|done].
  apply chunkSize_ceiling in Hdiv as (Hcs & Hpos & Hlo & Hhi); [|lia..].
  intros (ps & Hlen & Hcuts & -> & Htr)%splitLoop_Next.
  exists ps. split_and!; [done| | |done|done].
  - destruct (cuts_concat lines chunkSize ps 0) as (_ & Hconcat & _);
      [lia..| |done|].
    { intros ->. simpl in Hlen. lia. }
    rewrite Hconcat, Hlen.
    replace (Z.to_nat (0 * chunkSize)) with 0%nat by lia.
    rewrite drop_0. apply take_ge. lia.
  - rewrite <- Hcs.
    destruct (cuts_concat lines chunkSize ps 0) as (_ & _ & Hall); [lia..| |done|done].
    intros ->. simpl in Hlen. lia.
Qed.

(** The same for a whole split call that answers with its list: three
    chunks, put in index order, that cut the lines of the document into
    consecutive pieces of at most ceil(L / 3) lines. *)
Lemma splitHandler_complete mode c w code urls w' :
  serve (splitHandler mode c) w = (RUrls code urls, w') →
  ∃ bucket key content (ps : list (list string)),
    parseS3 (Query c "input_s3") = Some (bucket, key)
    ∧ object w bucket key = Some content
    ∧ (Z.of_nat (length (Split content "010")) + 2 ≤ max_int →
       length ps = 3%nat
       ∧ concat ps = Split content "010"
       ∧ Forall (λ p, Z.of_nat (length p)
                      ≤ (Z.of_nat (length (Split content "010")) + 2) `div` 3) ps)
    ∧ length urls = 3%nat
    ∧ issued w w' = GetObject bucket key :: chunkPuts bucket (Query c "out_prefix") 0 ps.
Proof.
  intros (bucket & key & content & chunkSize & ps & Hparse & Hobj & Hdiv & Hlen
          & Hcuts & -> & -> & Htr)%splitHandler_success.
  exists bucket, key, content, ps. split_and!; [done|done| |done|].
  - intros Hmax.
    apply chunkSize_ceiling in Hdiv as (Hcs & Hpos & Hlo & Hhi); [|lia..].
    destruct (cuts_concat (Split content "010") chunkSize ps 0) as (_ & Hconcat & Hall);
      [lia|lia|rewrite Hlen; lia|by intros ->|done|].
    split_and!; [done| |].
    + rewrite Hconcat, Hlen.
      replace (Z.to_nat (0 * chunkSize)) with 0%nat by lia.
      rewrite drop_0. apply take_ge. lia.
    + replace (Z.of_nat (length (Split content "010")) + 2)
        with (Z.of_nat (length (Split content "010")) + 3 - 1) by lia.
      by rewrite <- Hcs.
  - unfold issued. by rewrite Htr, drop_app_length.
Qed.

(** C1, at a failing input.  The driver asks for two parts of a document
    of four lines; the handler never reads [parts], cuts into 3 chunks,
    puts three objects and returns three addresses. *)
Theorem split_ignores_parts :
  let w := bucketOf "bucket" {[ "doc.txt" := fourLines ]} in
  Query (splitRequest 2) "parts" = "2"
  ∧ fst (serve (splitHandler "splitter" (splitRequest 2)) w)
    = RUrls 200 [ "s3://bucket/splits/run-2/chunk-0.txt";
                  "s3://bucket/splits/run-2/chunk-1.txt";
                  "s3://bucket/splits/run-2/chunk-2.txt" ]
  ∧ issued w (snd (serve (splitHandler "splitter" (splitRequest 2)) w))
    = [ GetObject "bucket" "doc.txt";
        PutObject "bucket" "splits/run-2/chunk-0.txt"
          ("To be, or not to be" +:+ newline +:+ "that is the question");
        PutObject "bucket" "splits/run-2/chunk-1.txt"
          ("Whether 'tis nobler" +:+ newline +:+ "in the mind to suffer");
        PutObject "bucket" "splits/run-2/chunk-2.txt" EmptyString ].
Proof. vm_compute. done. Qed.

(** C4, at a failing input.  The document has one line, fewer than the 3
    parts.  The chunk size is 1; chunk 2 starts at 2 while its end is
    clamped to 1, and [lines[2:1]] panics: the call does not succeed and
    the third chunk is never put. *)
Theorem split_short_document_panics :
  let w := bucketOf "bucket" {[ "doc.txt" := "hello" ]} in
  Split "hello" "010" = ["hello"]
  ∧ cut ["hello"] 1 2 = None
  ∧ fst (serve (splitHandler "splitter" (splitRequest 3)) w) = RPanic
  ∧ issued w (snd (serve (splitHandler "splitter" (splitRequest 3)) w))
    = [ GetObject "bucket" "doc.txt";
        PutObject "bucket" "splits/run-3/chunk-0.txt" "hello";
        PutObject "bucket" "splits/run-3/chunk-1.txt" EmptyString ].
Proof. vm_compute. done. Qed.

(** C5, at its failing inputs.  Whatever the single line of a one-line
    document is, the split call on it panics in the third iteration: no
    list of chunks is returned, and only the chunks 0 and 1 are put. *)
Theorem split_one_line_incomplete c w bucket key content :
  parseS3 (Query c "input_s3") = Some (bucket, key) →
  object w bucket key = Some content →
  length (Split content "010") = 1%nat →
  fst (serve (splitHandler "splitter" c) w) = RPanic
  ∧ ∃ line, Split content "010" = [line]
      ∧ issued w (snd (serve (splitHandler "splitter" c) w))
        = [ GetObject bucket key;
            PutObject bucket (chunkKey (Query c "out_prefix") 0) line;
            PutObject bucket (chunkKey (Query c "out_prefix") 1) EmptyString ].
Proof.
  intros Hparse Hobj Hone.
  destruct (Split content "010") as [|line [|]] eqn:Hlines; try done. clear Hone.
  assert (∃ w', serve (splitHandler "splitter" c) w
                = (RPanic, mkWorld w' (trace w ++ [ GetObject bucket key;
                     PutObject bucket (chunkKey (Query c "out_prefix") 0) line;
                     PutObject bucket (chunkKey (Query c "out_prefix") 1) EmptyString ])))
    as [bs ->].
  { handler_unfold. simpl. rewrite Hparse, (Download_object _ _ _ _ Hobj), Hlines.
    unfold object in Hobj.
    destruct (buckets w !! bucket) as [objs|] eqn:Hbucket; [|done].
    change (wrap64 (wrap64 (Z.of_nat (length [line]) + 3 - 1) `quot` 3)) with 1.
    change (cut [line] 1 0) with (Some [line]).
    change (cut [line] 1 (0 + 1)) with (Some (@nil string)).
    change (cut [line] 1 (0 + 1 + 1)) with (@None (list string)).
    unfold hbind, must, try, hret.
    rewrite (Upload_bucket _ _ _ _ objs) by done. cbv beta iota.
    erewrite Upload_bucket by apply lookup_insert_eq. cbv beta iota.
    eexists. simpl. by rewrite <- !app_assoc. }
  split; [done|]. exists line. split; [done|].
  unfold issued. simpl. by rewrite drop_app_length.
Qed.

Lemma split_one_line_incomplete_witness :
  let w := bucketOf "bucket" {[ "doc.txt" := kingText ]} in
  fst (serve (splitHandler "splitter" (splitRequest 2)) w) = RPanic
  ∧ ∃ line, Split kingText "010" = [line]
      ∧ issued w (snd (serve (splitHandler "splitter" (splitRequest 2)) w))
        = [ GetObject "bucket" "doc.txt";
            PutObject "bucket" (chunkKey (Query (splitRequest 2) "out_prefix") 0) line;
            PutObject "bucket" (chunkKey (Query (splitRequest 2) "out_prefix") 1) EmptyString ].
Proof.
  intros w.
  apply (split_one_line_incomplete (splitRequest 2) w "bucket" "doc.txt" kingText);
    reflexivity.
Defined.

(** ** Encoding and decoding count maps *)

Lemma run_append st m s t :
  JSON.run st m (s +:+ t) = JSON.run (JSON.run st m s).1 (JSON.run st m s).2 t.
Proof.
  revert st m. induction s as [|c s IH]; intros st m; [done|].
  rewrite append_cons. simpl. destruct (JSON.step st m c) as [st' m']. apply IH.
Qed.

Lemma run_key acc k m rest :
  plainKey k = true →
  JSON.run (JSON.SKey acc) m (k +:+ String JSON.quote rest)
  = JSON.run (JSON.SColon (acc +:+ k)) m rest.
Proof.
  revert acc. induction k as [|c k IH]; intros acc Hplain; simpl in Hplain.
  - rewrite append_nil_r. by simpl.
  - apply andb_prop in Hplain as [Hc Hk]. unfold plainByte in Hc.
    apply andb_prop in Hc as [[Hq Hb]%andb_prop Hctl].
    apply negb_true_iff, bool_decide_eq_false in Hq, Hb, Hctl.
    rewrite append_cons. simpl.
    rewrite !decide_False by done. rewrite bool_decide_eq_false_2 by done.
    rewrite IH by done. by rewrite append_assoc.
Qed.

(** The digits of a decimal numeral, read by the number states. *)
Lemma run_digits k neg l p m rest :
  JSON.run (JSON.SDigits k neg (Z.pos p)) m (NilEmpty.string_of_uint l +:+ rest)
  = JSON.run (JSON.SDigits k neg (Z.pos (Pos.of_uint_acc l p))) m rest.
Proof.
  revert p. induction l as [|l IH|l IH|l IH|l IH|l IH|l IH|l IH|l IH|l IH|l IH];
    intros p; [done|..];
    cbn [NilEmpty.string_of_uint]; rewrite append_cons;
    cbn [JSON.run JSON.step]; cbv [JSON.digit];
    match goal with
    | |- context [bool_decide (?P)] =>
        rewrite (bool_decide_eq_true_2 P) by (vm_compute; split; discriminate)
    end;
    cbv beta iota; cbn [Pos.of_uint_acc];
    match goal with
    | |- JSON.run (JSON.SDigits _ _ ?v) _ _
         = JSON.run (JSON.SDigits _ _ (Z.pos (Pos.of_uint_acc _ ?q))) _ _ =>
        replace v with (Z.pos q) by (vm_compute (byte_val _); lia)
    end;
    apply IH.
Qed.

(** A positive number is written with a non-zero leading digit, and its
    digits read back, most significant first, give the number. *)
Lemma to_uint_leading p :
  ∃ d l, Pos.to_uint p = d l
         ∧ d ∈ [Decimal.D1; Decimal.D2; Decimal.D3; Decimal.D4; Decimal.D5;
                Decimal.D6; Decimal.D7; Decimal.D8; Decimal.D9]
         ∧ Pos.of_uint (d l) = Npos p.
Proof.
  pose proof (DecimalPos.Unsigned.of_to p) as Hof.
  pose proof (DecimalPos.Unsigned.to_uint_nonnil p) as Hnil.
  pose proof (DecimalPos.Unsigned.to_uint_nonzero p) as Hzero.
  pose proof (DecimalPos.Unsigned.to_of (Pos.to_uint p)) as Hnorm.
  rewrite Hof in Hnorm. change (N.to_uint (N.pos p)) with (Pos.to_uint p) in Hnorm.
  destruct (Pos.to_uint p) as [|l|l|l|l|l|l|l|l|l|l] eqn:Hp; [done| |..].
  { exfalso. rewrite DecimalFacts.unorm_D0 in Hnorm. unfold Decimal.unorm in Hnorm.
    destruct (Decimal.nzhead l) eqn:Hl; try done.
    simplify_eq. by eapply DecimalFacts.nzhead_nonzero. }
  all: eexists _, l; split; [reflexivity|]; split; [|done].
  all: repeat first [by left|right].
Qed.

Lemma after_separator c :
  c = ","%char ∨ c = "}"%char → JSON.after c ≠ JSON.SFail ∧ JSON.digit c = None.
Proof. by intros [-> | ->]. Qed.

Lemma step_number_end k neg n m c :
  c = ","%char ∨ c = "}"%char → in_range (JSON.signed neg n) →
  JSON.step (JSON.SDigits k neg n) m c = (JSON.after c, <[k := JSON.signed neg n]> m).
Proof.
  intros Hc Hr. simpl. unfold JSON.store.
  rewrite bool_decide_eq_true_2 by done.
  by destruct Hc as [-> | ->].
Qed.

(** A number as [Itoa] writes it, followed by a comma or a closing brace,
    is read back and stored. *)
Lemma run_number k v m c rest :
  in_range v → c = ","%char ∨ c = "}"%char →
  JSON.run (JSON.SValue k) m (Itoa v +:+ String c rest)
  = JSON.run (JSON.after c) (<[k := v]> m) rest.
Proof.
  intros Hr Hc. unfold Itoa. destruct v as [|p|p].
  - change (NilZero.string_of_int (Z.to_int 0)) with "0".
    rewrite append_cons, append_nil_l. cbn [JSON.run].
    change (JSON.step (JSON.SValue k) m "0") with (JSON.SZero k, m). cbv beta iota.
    cbn [JSON.step]. unfold JSON.store. rewrite bool_decide_eq_true_2 by done.
    by destruct Hc as [-> | ->].
  - destruct (to_uint_leading p) as (d & l & Hp & Hd & Hof).
    change (NilZero.string_of_int (Z.to_int (Z.pos p)))
      with (NilZero.string_of_uint (Pos.to_uint p)).
    rewrite Hp.
    assert (∃ c0 p0, NilZero.string_of_uint (d l) = String c0 (NilEmpty.string_of_uint l)
                     ∧ JSON.step (JSON.SValue k) m c0 = (JSON.SDigits k false (Z.pos p0), m)
                     ∧ Pos.of_uint_acc l p0 = p) as (c0 & p0 & -> & Hstep & Hacc).
    { repeat (apply elem_of_cons in Hd as [->|Hd];
              [eexists _, _; split; [reflexivity|]; split; [reflexivity|];
               simpl in Hof; by injection Hof|]).
      by apply elem_of_nil in Hd. }
    rewrite append_cons. cbn [JSON.run]. rewrite Hstep. cbv beta iota.
    rewrite run_digits, Hacc. cbn [JSON.run].
    by rewrite (step_number_end k false (Z.pos p) m c Hc Hr).
  - destruct (to_uint_leading p) as (d & l & Hp & Hd & Hof).
    change (NilZero.string_of_int (Z.to_int (Z.neg p)))
      with (String "-" (NilZero.string_of_uint (Pos.to_uint p))).
    rewrite Hp.
    assert (∃ c0 p0, NilZero.string_of_uint (d l) = String c0 (NilEmpty.string_of_uint l)
                     ∧ JSON.step (JSON.SMinus k) m c0 = (JSON.SDigits k true (Z.pos p0), m)
                     ∧ Pos.of_uint_acc l p0 = p) as (c0 & p0 & -> & Hstep & Hacc).
    { repeat (apply elem_of_cons in Hd as [->|Hd];
              [eexists _, _; split; [reflexivity|]; split; [reflexivity|];
               simpl in Hof; by injection Hof|]).
      by apply elem_of_nil in Hd. }
    rewrite !append_cons. cbn [JSON.run].
    change (JSON.step (JSON.SValue k) m "-") with (JSON.SMinus k, m). cbv beta iota.
    rewrite Hstep. cbv beta iota.
    rewrite run_digits, Hacc. cbn [JSON.run].
    by rewrite (step_number_end k true (Z.pos p) m c Hc Hr).
Qed.

(** One entry, followed by a comma or the closing brace. *)
Lemma run_entry st k v m c rest :
  st = JSON.SOpen ∨ st = JSON.SComma →
  plainKey k = true → in_range v → c = ","%char ∨ c = "}"%char →
  JSON.run st m (JSON.entry (k, v) +:+ String c rest)
  = JSON.run (JSON.after c) (<[k := v]> m) rest.
Proof.
  intros Hst Hk Hv Hc.
  assert (JSON.entry (k, v) +:+ String c rest
          = String JSON.quote (k +:+ String JSON.quote (String ":" (Itoa v +:+ String c rest))))
    as ->.
  { unfold JSON.entry. simpl fst. simpl snd.
    by repeat first [rewrite append_cons | rewrite append_assoc | rewrite append_nil_l]. }
  cbn [JSON.run].
  assert (JSON.step st m JSON.quote = (JSON.SKey EmptyString, m)) as ->
    by (by destruct Hst as [-> | ->]).
  cbv beta iota. rewrite run_key by done. rewrite append_nil_l.
  cbn [JSON.run].
  change (JSON.step (JSON.SColon k) m ":") with (JSON.SValue k, m). cbv beta iota.
  by apply run_number.
Qed.

Lemma run_entries st (l : list (string * Z)) m :
  st = JSON.SOpen ∨ st = JSON.SComma →
  l ≠ [] →
  Forall (λ kv, plainKey kv.1 = true ∧ in_range kv.2) l →
  JSON.run st m (Join (JSON.entry <$> l) "," +:+ "}") = (JSON.SEnd, storeAll l m).
Proof.
  intros Hst Hne Hall. revert st m Hst.
  induction Hall as [|[k v] l [Hk Hv] Hall IH]; intros st m Hst; [done|]. clear Hne.
  destruct l as [|kv l].
  - simpl Join. rewrite run_entry by auto. done.
  - change (Join (JSON.entry <$> (k, v) :: kv :: l) ",")
      with (JSON.entry (k, v) +:+ "," +:+ Join (JSON.entry <$> kv :: l) ",").
    rewrite !append_assoc. rewrite append_cons, append_nil_l.
    rewrite run_entry by auto.
    change (JSON.after ",") with JSON.SComma.
    rewrite IH by auto. done.
Qed.

Lemma insertSorted_Permutation kv l : JSON.insertSorted kv l ≡ₚ kv :: l.
Proof.
  induction l as [|kv' l IH]; simpl; [done|].
  destruct (String.leb _ _); [done|]. rewrite IH. apply Permutation_swap.
Qed.

Lemma sortedEntries_Permutation (m : gmap string Z) :
  JSON.sortedEntries m ≡ₚ map_to_list m.
Proof.
  unfold JSON.sortedEntries. induction (map_to_list m) as [|kv l IH]; simpl; [done|].
  by rewrite insertSorted_Permutation, IH.
Qed.

Lemma storeAll_list_to_map (l : list (string * Z)) :
  storeAll l ∅ = list_to_map (reverse l).
Proof.
  unfold storeAll. induction l as [|kv l IH] using rev_ind; [done|].
  by rewrite foldl_snoc, reverse_snoc, IH.
Qed.

Lemma storeAll_sortedEntries (m : gmap string Z) :
  storeAll (JSON.sortedEntries m) ∅ = m.
Proof.
  rewrite storeAll_list_to_map.
  rewrite <- (list_to_map_to_list m) at 2.
  apply list_to_map_proper.
  - rewrite reverse_Permutation, sortedEntries_Permutation.
    apply NoDup_fst_map_to_list.
  - by rewrite reverse_Permutation, sortedEntries_Permutation.
Qed.

(** What [json.Marshal] writes for a count map with plain keys and values
    in the range of [int], [json.Unmarshal] reads back without error. *)
Lemma Unmarshal_Marshal (m m0 : gmap string Z) :
  (∀ k v, m !! k = Some v → plainKey k = true ∧ in_range v) →
  JSON.Unmarshal (JSON.Marshal m) m0 = (m ∪ m0, None).
Proof.
  intros Hm. unfold JSON.Unmarshal, JSON.Marshal.
  rewrite append_cons, append_nil_l. cbn [JSON.run].
  change (JSON.step JSON.SStart ∅ "{") with (JSON.SOpen, ∅ : gmap string Z).
  cbv beta iota.
  destruct (JSON.sortedEntries m) as [|kv l] eqn:Hl.
  - assert (m = ∅) as ->.
    { apply map_to_list_empty_iff, Permutation_nil_r.
      by rewrite <- sortedEntries_Permutation, Hl. }
    done.
  - rewrite <- Hl. rewrite run_entries; [|by left|by rewrite Hl|].
    + by rewrite storeAll_sortedEntries.
    + apply Forall_forall. intros [k v] Hin. apply Hm.
      apply elem_of_map_to_list. by rewrite <- sortedEntries_Permutation.
Qed.

Lemma wordByte_plain c : Regexp.wordByte c = true → plainByte c = true.
Proof. by destruct c as [[] [] [] [] [] [] [] []]. Qed.

Lemma wordBytes_plain s : wordBytes s = true → plainKey s = true.
Proof.
  induction s as [|c s IH]; [done|]. simpl.
  intros [Hc Hs]%andb_prop. by rewrite wordByte_plain, IH.
Qed.

Lemma wordBytes_snoc run c :
  wordBytes run = true → Regexp.wordByte c = true →
  wordBytes (run +:+ String c EmptyString) = true.
Proof.
  induction run as [|a run IH]; simpl; [by intros _ ->|].
  intros [Ha Hr]%andb_prop Hc. by rewrite Ha, IH.
Qed.

(** Every match consists of letters and digits. *)
Lemma FindAll_go_wordBytes run s :
  wordBytes run = true →
  Forall (λ w, wordBytes w = true) (Regexp.FindAll_go run s).
Proof.
  revert run. induction s as [|c s IH]; intros run Hrun; simpl.
  - unfold Regexp.flush. case_decide; by repeat constructor.
  - destruct (Regexp.wordByte c) eqn:Hc.
    + apply IH. by apply wordBytes_snoc.
    + apply Forall_app. split; [|by apply IH].
      unfold Regexp.flush. case_decide; by repeat constructor.
Qed.

Section PersistedCounts.

Context {table : CaseTable}.

(** The counts of a chunk survive the encoding: what the mapper stores
    decodes to the counts it held. *)
Lemma countWords_decodes (text : string) :
  len (Strings.ToLower text) ≤ max_int →
  decode (JSON.Marshal (countWords text)) = countWords text.
Proof.
  intros Hlen%wordsOf_fit. unfold decode.
  rewrite Unmarshal_Marshal; [by rewrite (right_id_L ∅ (∪))|].
  destruct (counting_loop (wordsOf text) Hlen) as [Hlookup _].
  intros k v. unfold countWords. rewrite Hlookup. case_decide as Hin; [|done].
  intros [= <-]. split.
  - apply wordBytes_plain.
    pose proof (FindAll_go_wordBytes EmptyString (Strings.ToLower text) eq_refl) as Hall.
    rewrite Forall_forall in Hall. by apply Hall.
  - pose proof (occurrences_bounds k (wordsOf text)).
    unfold in_range, min_int, max_int in *. lia.
Qed.

(** A map call that answers with its output address has stored an object
    that decodes to the counts of the chunk it read. *)
Lemma mapHandler_persists_counts mode c w code out w' :
  serve (mapHandler mode c) w = (ROutput code out, w') →
  ∃ text outBucket outKey body,
    fetched w (Query c "chunk_s3") text
    ∧ parseS3 out = Some (outBucket, outKey)
    ∧ object w' outBucket outKey = Some body
    ∧ (len (Strings.ToLower text) ≤ max_int → decode body = countWords text).
Proof.
  intros (text & outBucket & outKey & Hf & Hparse & -> & Hobj)%mapHandler_success.
  exists text, outBucket, outKey, (JSON.Marshal (countWords text)).
  split_and!; [done..|]. apply countWords_decodes.
Qed.

End PersistedCounts.

(** ** The store under the handlers *)

Lemma hasBucket_object w bucket key body : object w bucket key = Some body → hasBucket w bucket.
Proof. unfold object, hasBucket. by destruct (buckets w !! bucket). Qed.

(** A put into an existing bucket: the object is there afterwards, every
    other object is as before, and no bucket comes or goes. *)
Lemma Upload_effect bucket key body w :
  hasBucket w bucket →
  ∃ w', Upload bucket key body w = (Ok (), w')
        ∧ trace w' = trace w ++ [PutObject bucket key body]
        ∧ object w' bucket key = Some body
        ∧ (∀ b k, (b, k) ≠ (bucket, key) → object w' b k = object w b k)
        ∧ (∀ b, hasBucket w' b ↔ hasBucket w b).
Proof.
  intros [objs Hobjs]. rewrite (Upload_bucket _ _ _ _ objs Hobjs).
  eexists. split; [done|]. split; [done|]. unfold object, hasBucket. simpl. split_and!.
  - rewrite lookup_insert_eq. simpl. by rewrite lookup_insert_eq.
  - intros b k Hne. destruct (decide (b = bucket)) as [->|Hb].
    + rewrite lookup_insert_eq, Hobjs. simpl.
      rewrite lookup_insert_ne; [done|]. congruence.
    + by rewrite lookup_insert_ne.
  - intros b. destruct (decide (b = bucket)) as [->|Hb].
    + rewrite lookup_insert_eq, Hobjs. split; by eexists.
    + by rewrite lookup_insert_ne.
Qed.

(** ** Map of each chunk, then reduce of all partials, run forward *)

Section MapReduceRuns.

Context {table : CaseTable}.

(** A map call whose chunk is there and whose output bucket exists
    answers 200 with the output address; it has read the chunk, stored the
    encoding of the counts and touched no other object. *)
Lemma mapHandler_runs c w bucket key text outBucket outKey :
  parseS3 (Query c "chunk_s3") = Some (bucket, key) →
  object w bucket key = Some text →
  parseS3 (Query c "out_s3") = Some (outBucket, outKey) →
  hasBucket w outBucket →
  ∃ w', serve (mapHandler "mapper" c) w = (ROutput 200 (Query c "out_s3"), w')
        ∧ trace w' = trace w ++ [GetObject bucket key;
                                 PutObject outBucket outKey (JSON.Marshal (countWords text))]
        ∧ object w' outBucket outKey = Some (JSON.Marshal (countWords text))
        ∧ (∀ b k, (b, k) ≠ (outBucket, outKey) → object w' b k = object w b k)
        ∧ (∀ b, hasBucket w' b ↔ hasBucket w b).
Proof.
  intros Hparse Hobj Hout Hb.
  destruct (Upload_effect outBucket outKey (JSON.Marshal (countWords text))
              (record (GetObject bucket key) w) Hb)
    as (w' & Hup & Htrace & Hstored & Hframe & Hbuckets).
  exists w'. split_and!; [|by rewrite Htrace; cbn [record trace]; rewrite <- app_assoc|done..].
  handler_unfold. destruct (decide ("mapper" ≠ "mapper")) as [|_]; [done|].
  by rewrite Hparse, (Download_object _ _ _ _ Hobj), Hout, Hup.
Qed.

(** The map calls of runnable jobs all answer 200; every output address
    then holds the encoding of the counts of its chunk, and nothing else
    has changed. *)
Lemma mapEach_runs jobs chunks outs w :
  runnable w jobs chunks outs →
  ∃ w', mapEach jobs w = ((λ job, ROutput 200 job.2) <$> jobs, w')
        ∧ Forall2 (λ out chunk,
                     object w' out.1 out.2 = Some (JSON.Marshal (countWords chunk)))
                  outs chunks
        ∧ (∀ b k, (b, k) ∉ outs → object w' b k = object w b k)
        ∧ (∀ b, hasBucket w' b ↔ hasBucket w b).
Proof.
  revert chunks outs w. induction jobs as [|job jobs IH]; intros chunks outs w (Hin & Hout & Hnd).
  - apply Forall2_nil_inv_l in Hin as ->. apply Forall2_nil_inv_l in Hout as ->.
    exists w. by split_and!.
  - apply Forall2_cons_inv_l in Hin as (chunk & chunks' & Hchunk & Hin & ->).
    apply Forall2_cons_inv_l in Hout as ([outBucket outKey] & outs' & [Hparse Hb] & Hout & ->).
    destruct Hchunk as (bucket & key & Hp & Hobj & Hfresh).
    apply NoDup_cons in Hnd as [Hhead Hnd].
    destruct (mapHandler_runs (mkContext [("chunk_s3", job.1); ("out_s3", job.2)]) w
                bucket key chunk outBucket outKey)
      as (w1 & Hserve & _ & Hstored & Hframe & Hbuckets); [done..|].
    destruct (IH chunks' outs' w1) as (w' & Hrest & Hall & Hframe' & Hbuckets').
    { split_and!; [| |done].
      - eapply Forall2_impl; [done|]. intros j ch (b & k & ? & Ho & Hn).
        apply not_elem_of_cons in Hn as [Hne Hn].
        exists b, k. split_and!; [done| |done]. by rewrite Hframe.
      - eapply Forall2_impl; [done|]. intros j o [? ?]. split; [done|].
        by apply Hbuckets. }
    exists w'. cbn [mapEach].
    change (Query (mkContext [("chunk_s3", job.1); ("out_s3", job.2)]) "out_s3")
      with job.2 in Hserve.
    rewrite Hserve, Hrest. split_and!.
    + done.
    + constructor; [|done]. simpl. by rewrite Hframe'.
    + intros b k [Hne Hn]%not_elem_of_cons. by rewrite Hframe', Hframe.
    + intros b. by rewrite Hbuckets', Hbuckets.
Qed.

End MapReduceRuns.

Lemma QueryArray_in partials outS3 :
  QueryArray (mkContext (((λ input, ("in", input)) <$> partials) ++ [("out_s3", outS3)])) "in"
  = partials.
Proof.
  unfold QueryArray. cbn [query]. induction partials as [|p ps IH]; [done|].
  cbn [fmap list_fmap app]. rewrite filter_cons_True by done.
  cbn [fmap list_fmap snd]. f_equal. apply IH.
Qed.

Lemma Query_out_s3 partials outS3 :
  Query (mkContext (((λ input, ("in", input)) <$> partials) ++ [("out_s3", outS3)])) "out_s3"
  = outS3.
Proof.
  unfold Query. cbn [query]. induction partials as [|p ps IH]; [done|]. apply IH.
Qed.

(** The reduce loop over inputs that are all there runs through: it reads
    them in order and leaves the store as it was. *)
Lemma reduceLoop_runs inputs bodies total w :
  Forall2 (fetched w) inputs bodies →
  ∃ w', reduceLoop inputs total w = (Next (foldl addCounts total (decode <$> bodies)), w')
        ∧ buckets w' = buckets w
        ∧ trace w' = trace w ++ reads inputs.
Proof.
  intros Hall. revert total w Hall.
  induction inputs as [|input rest IH] in bodies |- *; intros total w Hall.
  - apply Forall2_nil_inv_l in Hall as ->. exists w. by rewrite app_nil_r.
  - apply Forall2_cons_inv_l in Hall as (body & bodies' & (bucket & key & Hp & Hobj) & Hall & ->).
    destruct (IH bodies' (addCounts total (decode body)) (record (GetObject bucket key) w))
      as (w' & Hrun & Hb & Htrace); [done|].
    exists w'. split_and!; [|done|].
    + cbn [reduceLoop]. unfold hbind at 1, must. rewrite Hp.
      unfold hbind at 1, try. by rewrite (Download_object _ _ _ _ Hobj).
    + rewrite Htrace. unfold reads. rewrite bind_cons. unfold getOf at 2. rewrite Hp.
      cbn [record trace]. by rewrite <- app_assoc.
Qed.

(** A reduce call whose partials are all there and whose output bucket
    exists answers 200; it has read the partials in order, stored the
    encoding of the fold at the output address and touched no other
    object. *)
Lemma reduceHandler_runs c bodies outBucket outKey w :
  Forall2 (fetched w) (QueryArray c "in") bodies →
  parseS3 (Query c "out_s3") = Some (outBucket, outKey) →
  hasBucket w outBucket →
  ∃ w', serve (reduceHandler "reducer" c) w = (ROutput 200 (Query c "out_s3"), w')
        ∧ trace w' = trace w ++ reads (QueryArray c "in")
                     ++ [PutObject outBucket outKey
                           (JSON.Marshal (reduceFold (decode <$> bodies)))]
        ∧ object w' outBucket outKey
          = Some (JSON.Marshal (reduceFold (decode <$> bodies)))
        ∧ (∀ b k, (b, k) ≠ (outBucket, outKey) → object w' b k = object w b k).
Proof.
  intros Hall Hparse Hb.
  destruct (reduceLoop_runs _ bodies ∅ w Hall) as (w1 & Hrun & Hb1 & Htrace1).
  destruct (Upload_effect outBucket outKey (JSON.Marshal (reduceFold (decode <$> bodies))) w1)
    as (w' & Hup & Htrace & Hstored & Hframe & _).
  { unfold hasBucket. by rewrite Hb1. }
  exists w'. split_and!; [| |done|].
  - handler_unfold. destruct (decide ("reducer" ≠ "reducer")) as [|_]; [done|].
    rewrite Hrun, Hparse. fold (reduceFold (decode <$> bodies)). by rewrite Hup.
  - by rewrite Htrace, Htrace1, <- app_assoc.
  - intros b k Hne. rewrite Hframe by done. unfold object. by rewrite Hb1.
Qed.

Lemma reduceAll_runs partials bodies outS3 outBucket outKey w :
  Forall2 (fetched w) partials bodies →
  parseS3 outS3 = Some (outBucket, outKey) →
  hasBucket w outBucket →
  ∃ w', serve (reduceAll partials outS3) w = (ROutput 200 outS3, w')
        ∧ object w' outBucket outKey
          = Some (JSON.Marshal (reduceFold (decode <$> bodies)))
        ∧ (∀ b k, (b, k) ≠ (outBucket, outKey) → object w' b k = object w b k).
Proof.
  intros Hall Hparse Hb.
  destruct (reduceHandler_runs
              (mkContext (((λ input, ("in", input)) <$> partials) ++ [("out_s3", outS3)]))
              bodies outBucket outKey w) as (w' & Hserve & _ & Hstored & Hframe).
  - by rewrite QueryArray_in.
  - by rewrite Query_out_s3.
  - done.
  - exists w'. rewrite Query_out_s3 in Hserve. by split_and!.
Qed.

Lemma addCounts_empty total : addCounts total ∅ = total.
Proof. unfold addCounts. apply map_fold_empty. Qed.

(** The chunks of a document of one line: empty ones and the line. *)
Lemma concat_nil_inv {A} (ps : list (list A)) : concat ps = [] → Forall (λ p, p = []) ps.
Proof.
  induction ps as [|p ps IH]; simpl; [by constructor|].
  intros [-> ?]%app_eq_nil. constructor; [done|by apply IH].
Qed.

Section MapReduceCorrect.

Context {table : CaseTable}.

Lemma countWords_empty : countWords EmptyString = ∅.
Proof. reflexivity. Qed.

(** What the mapper stores decodes to the counts it held, as long as the
    number of words fits an [int]. *)
Lemma countWords_decodes_fit (text : string) :
  Z.of_nat (length (wordsOf text)) ≤ max_int →
  decode (JSON.Marshal (countWords text)) = countWords text.
Proof.
  intros Hlen. unfold decode.
  rewrite Unmarshal_Marshal; [by rewrite (right_id_L ∅ (∪))|].
  destruct (counting_loop (wordsOf text) Hlen) as [Hlookup _].
  intros k v. unfold countWords. rewrite Hlookup. case_decide as Hin; [|done].
  intros [= <-]. split.
  - apply wordBytes_plain.
    pose proof (FindAll_go_wordBytes EmptyString (Strings.ToLower text) eq_refl) as Hall.
    rewrite Forall_forall in Hall. by apply Hall.
  - pose proof (occurrences_bounds k (wordsOf text)).
    unfold in_range, min_int, max_int in *. lia.
Qed.

(** Map of each chunk, then reduce of all partials: with runnable jobs
    and an output bucket that exists, every call answers 200 and the
    output address of the reduce call holds the encoding of the fold of
    the counts of the chunks. *)
Lemma mapReduce_runs jobs chunks outs outS3 outBucket outKey w :
  runnable w jobs chunks outs →
  parseS3 outS3 = Some (outBucket, outKey) →
  hasBucket w outBucket →
  Forall (λ chunk, Z.of_nat (length (wordsOf chunk)) ≤ max_int) chunks →
  ∃ w', mapReduce jobs outS3 w
        = (((λ job, ROutput 200 job.2) <$> jobs, ROutput 200 outS3), w')
        ∧ object w' outBucket outKey
          = Some (JSON.Marshal (reduceFold (countWords <$> chunks))).
Proof.
  intros Hrun Hparse Hb Hlen.
  destruct (mapEach_runs jobs chunks outs w Hrun) as (w1 & Hmaps & Hall & _ & Hb1).
  destruct Hrun as (_ & Houts & _).
  assert (Forall2 (fetched w1) (snd <$> jobs)
            ((λ chunk, JSON.Marshal (countWords chunk)) <$> chunks)) as Hfetched.
  { apply Forall2_fmap. clear Hmaps Hlen.
    revert outs chunks Houts Hall. induction jobs as [|job jobs IH]; intros outs chunks Houts Hall.
    - apply Forall2_nil_inv_l in Houts as ->. apply Forall2_nil_inv_l in Hall as ->.
      constructor.
    - apply Forall2_cons_inv_l in Houts as ([b k] & outs' & [Hp _] & Houts & ->).
      apply Forall2_cons_inv_l in Hall as (chunk & chunks' & Hobj & Hall & ->).
      constructor; [by exists b, k|by eapply IH]. }
  destruct (reduceAll_runs _ _ outS3 outBucket outKey w1 Hfetched Hparse)
    as (w' & Hreduce & Hstored & _); [by apply Hb1|].
  exists w'. unfold mapReduce. rewrite Hmaps, Hreduce. split; [done|].
  rewrite Hstored. do 3 f_equal. rewrite <- list_fmap_compose.
  apply Forall_fmap_ext. eapply Forall_impl; [done|].
  intros chunk ?. by apply countWords_decodes_fit.
Qed.

(** The fold over the chunks of a document of the single line [x]. *)
Lemma foldl_addCounts_one_line (x : string) (ps : list (list string)) total :
  (concat ps = [] →
   foldl addCounts total (countWords <$> ((λ p, Join p newline) <$> ps)) = total)
  ∧ (concat ps = [x] →
     foldl addCounts total (countWords <$> ((λ p, Join p newline) <$> ps))
     = addCounts total (countWords x)).
Proof.
  revert total. induction ps as [|p ps IH]; intros total; [by split|].
  cbn [concat fmap list_fmap foldl]. split.
  - intros [-> Hps]%app_eq_nil. cbn [Join]. rewrite countWords_empty, addCounts_empty.
    by apply IH.
  - destruct p as [|y [|z p]].
    + intros Hps. cbn [Join]. rewrite countWords_empty, addCounts_empty. by apply IH.
    + intros [= -> Hps]. cbn [Join]. by apply IH.
    + by intros [=].
Qed.

End MapReduceCorrect.

Lemma concat_singleton_inv {A} (x : A) (ps : list (list A)) :
  concat ps = [x] → Forall (λ p, p = [] ∨ p = [x]) ps.
Proof.
  induction ps as [|p ps IH]; simpl; [by constructor|].
  destruct p as [|y [|z p]].
  - intros Hps. constructor; [by left|by apply IH].
  - intros [= -> Hps%concat_nil_inv]. constructor; [by right|].
    eapply Forall_impl; [done|]. intros ? ->. by left.
  - by intros [=].
Qed.

(** ** What the mapper stores (C10) *)

Section StoredCounts.

Context {table : CaseTable}.

(** C10, as the code has it.  A map call that answers with its output
    address has stored an object at that address.  When the lower-cased
    chunk is a Go string (its length fits an [int]), that object decodes
    to a mapping in which every value is at least 1 and whose keys are
    exactly the maximal runs of ASCII letters and digits of the chunk
    after [strings.ToLower]; for a chunk that is ASCII throughout, the
    keys are exactly the lower-cased maximal runs of the chunk itself. *)
Theorem map_call_stores_positive_counts mode c w code out w' :
  serve (mapHandler mode c) w = (ROutput code out, w') →
  ∃ text outBucket outKey body,
    fetched w (Query c "chunk_s3") text
    ∧ parseS3 (Query c "out_s3") = Some (outBucket, outKey)
    ∧ object w' outBucket outKey = Some body
    ∧ (len (Strings.ToLower text) ≤ max_int →
       let lowered := Strings.ToLower text in
       (∀ k v, decode body !! k = Some v → 1 ≤ v)
       ∧ (∀ k, is_Some (decode body !! k)
               ↔ ∃ i n, maximalRun lowered i n ∧ k = String.substring i n lowered)
       ∧ (Strings.isASCII text = true →
          ∀ k, is_Some (decode body !! k)
               ↔ ∃ i n, maximalRun text i n
                        ∧ k = Strings.mapBytes Strings.lowerByte (String.substring i n text))).
Proof.
  intros (text & outBucket & outKey & Hf & Hparse & -> & Hobj)%mapHandler_success.
  exists text, outBucket, outKey, (JSON.Marshal (countWords text)).
  split_and!; [done..|]. intros Hlen lowered.
  rewrite (countWords_decodes text Hlen).
  apply wordsOf_fit in Hlen.
  destruct (counting_loop (wordsOf text) Hlen) as [Hlookup _].
  unfold countWords. split_and!.
  - intros k v. rewrite Hlookup. case_decide as Hin; [|done]. intros [= <-].
    by apply occurrences_pos.
  - destruct (FindAllString_maximal_runs lowered) as (Hwords & _ & Hspans).
    change (Regexp.FindAllString lowered) with (wordsOf text) in Hwords.
    intros k. rewrite Hlookup, is_Some_decide, Hwords, list_elem_of_fmap. split.
    + intros ([i n] & -> & Hin%Hspans). by exists i, n.
    + intros (i & n & Hmax%Hspans & ->). by exists (i, n).
  - intros Hascii k.
    destruct (FindAllString_maximal_runs text) as (Hwords & _ & Hspans).
    rewrite Hlookup, is_Some_decide, (wordsOf_ascii text Hascii), Hwords.
    rewrite <- list_fmap_compose, list_elem_of_fmap. split.
    + intros ([i n] & -> & Hin%Hspans). by exists i, n.
    + intros (i & n & Hmax%Hspans & ->). by exists (i, n).
Qed.

End StoredCounts.

Lemma map_call_stores_positive_counts_witness :
  let c := mkContext [("chunk_s3", "s3://bucket/splits/run-2/chunk-0.txt");
                      ("out_s3", "s3://bucket/maps/run-2/map-0.json")] in
  let w' := (serve (mapHandler (table := Unicode.latin_table) "mapper" c) kingChunks).2 in
  ∃ text outBucket outKey body,
    fetched kingChunks (Query c "chunk_s3") text
    ∧ parseS3 (Query c "out_s3") = Some (outBucket, outKey)
    ∧ object w' outBucket outKey = Some body
    ∧ (len (Strings.ToLower (table := Unicode.latin_table) text) ≤ max_int →
       let lowered := Strings.ToLower (table := Unicode.latin_table) text in
       (∀ k v, decode body !! k = Some v → 1 ≤ v)
       ∧ (∀ k, is_Some (decode body !! k)
               ↔ ∃ i n, maximalRun lowered i n ∧ k = String.substring i n lowered)
       ∧ (Strings.isASCII text = true →
          ∀ k, is_Some (decode body !! k)
               ↔ ∃ i n, maximalRun text i n
                        ∧ k = Strings.mapBytes Strings.lowerByte (String.substring i n text))).
Proof.
  intros c w'.
  apply (map_call_stores_positive_counts (table := Unicode.latin_table)
           "mapper" c kingChunks 200 "s3://bucket/maps/run-2/map-0.json" w').
  vm_compute. reflexivity.
Defined.

(** C10 as stated fails.  The chunk holds the KELVIN SIGN and nothing
    else: no letter or digit occurs in it, so no token does, yet the
    object the map call stores has the key k. *)
Lemma map_call_kelvin_counterexample :
  let w := bucketOf "bucket" {[ "splits/chunk-0.txt" := kelvinText ]} in
  let c := mkContext [("chunk_s3", "s3://bucket/splits/chunk-0.txt");
                      ("out_s3", "s3://bucket/maps/map-0.json")] in
  let call := serve (mapHandler (table := Unicode.latin_table) "mapper" c) w in
  (∀ i n, ¬ maximalRun kelvinText i n)
  ∧ call.1 = ROutput 200 "s3://bucket/maps/map-0.json"
  ∧ ∃ body, object call.2 "bucket" "maps/map-0.json" = Some body
            ∧ decode body !! "k" = Some 1
            ∧ ¬ (∀ k, is_Some (decode body !! k)
                      ↔ ∃ i n, maximalRun kelvinText i n
                               ∧ k = Strings.mapBytes Strings.lowerByte
                                       (String.substring i n kelvinText)).
Proof.
  intros w c call.
  assert (∀ i n, ¬ maximalRun kelvinText i n) as Hnone.
  { intros i n Hmax. apply (FindAllString_maximal_runs kelvinText) in Hmax.
    vm_compute in Hmax. by apply elem_of_nil in Hmax. }
  split_and!; [done|reflexivity|].
  eexists. split; [vm_compute; reflexivity|]. split; [reflexivity|].
  intros Hclaim. destruct (Hclaim "k") as [Hk _].
  destruct Hk as (i & n & Hmax & _); [by eexists|]. by apply (Hnone i n).
Qed.

(** ** The end-to-end example (C8) *)

(** C8, as the code has it.  Take the text of the example cut at its line
    boundaries into chunks, any number of them and two among others, each
    chunk stored at the chunk address of a job.  Map of each chunk, then
    reduce of all partials: every call answers 200, and the output address
    of the reduce call holds the encoding of the mapping the: 3, king: 3,
    is: 1, dead: 1, long: 1, live: 1, which decodes to this mapping. *)
Theorem king_example_map_reduce {table : CaseTable} (ps : list (list string))
    (jobs outs : list (string * string)) (outS3 outBucket outKey : string) (w : World) :
  concat ps = Split kingText "010" →
  runnable w jobs ((λ p, Join p newline) <$> ps) outs →
  parseS3 outS3 = Some (outBucket, outKey) →
  hasBucket w outBucket →
  ∃ w', mapReduce jobs outS3 w
        = (((λ job, ROutput 200 job.2) <$> jobs, ROutput 200 outS3), w')
        ∧ object w' outBucket outKey = Some (JSON.Marshal kingCounts)
        ∧ decode (JSON.Marshal kingCounts) = kingCounts.
Proof.
  change (Split kingText "010") with [kingText]. intros Hps Hrun Hparse Hb.
  destruct (mapReduce_runs jobs _ outs outS3 outBucket outKey w Hrun Hparse Hb)
    as (w' & Hcalls & Hstored).
  { apply Forall_fmap. eapply Forall_impl; [by apply concat_singleton_inv|].
    intros p [-> | ->]; vm_compute; discriminate. }
  exists w'. split_and!; [done| |by vm_compute].
  rewrite Hstored. unfold reduceFold.
  destruct (foldl_addCounts_one_line kingText ps ∅) as [_ ->]; [|done].
  by vm_compute.
Qed.

Lemma king_example_map_reduce_witness :
  ∃ w', mapReduce (table := Unicode.latin_table) kingJobs
          "s3://bucket/reduce/run-2/final.json" kingChunks
        = (((λ job, ROutput 200 job.2) <$> kingJobs,
            ROutput 200 "s3://bucket/reduce/run-2/final.json"), w')
        ∧ object w' "bucket" "reduce/run-2/final.json" = Some (JSON.Marshal kingCounts)
        ∧ decode (JSON.Marshal kingCounts) = kingCounts.
Proof.
  apply (king_example_map_reduce (table := Unicode.latin_table) [[kingText]; []] kingJobs
           [("bucket", "maps/run-2/map-0.json"); ("bucket", "maps/run-2/map-1.json")]).
  - reflexivity.
  - split_and!.
    + repeat constructor.
      * exists "bucket", "splits/run-2/chunk-0.txt".
        split_and!; [reflexivity..|].
        rewrite !not_elem_of_cons. split_and!; [discriminate..|apply not_elem_of_nil].
      * exists "bucket", "splits/run-2/chunk-1.txt".
        split_and!; [reflexivity..|].
        rewrite !not_elem_of_cons. split_and!; [discriminate..|apply not_elem_of_nil].
    + repeat constructor; by eexists.
    + repeat constructor; rewrite ?not_elem_of_cons;
        try split_and!; try discriminate; apply not_elem_of_nil.
  - reflexivity.
  - by eexists.
Defined.

(** C8 as stated fails, twice.  The split call for two parts of the
    example answers with a panic and names no chunk to map.  And the text
    holds the word "the" three times, not four: with the text cut in two
    chunks, map and reduce store a mapping with the: 3, which is not the
    mapping of the specification. *)
Lemma king_example_counterexample :
  (serve (splitHandler "splitter" (splitRequest 2)) kingWorld).1 = RPanic
  ∧ wordsOf (table := Unicode.latin_table) kingText
    = ["the"; "king"; "the"; "king"; "is"; "dead"; "long"; "live"; "the"; "king"]
  ∧ ∃ answers w' body,
      mapReduce (table := Unicode.latin_table) kingJobs
        "s3://bucket/reduce/run-2/final.json" kingChunks
      = ((answers, ROutput 200 "s3://bucket/reduce/run-2/final.json"), w')
      ∧ object w' "bucket" "reduce/run-2/final.json" = Some body
      ∧ get (decode body) "the" = 3
      ∧ decode body ≠ kingCountsStated.
Proof.
  split_and!; [reflexivity..|].
  eexists _, _, _. split_and!; [vm_compute; reflexivity|vm_compute; reflexivity|reflexivity|].
  intros Heq. apply (f_equal (λ m, get m "the")) in Heq.
  vm_compute in Heq. discriminate Heq.
Qed.

(** ** More on strings: lines, prefixes, chunk keys *)

Lemma Split_go_nonempty cur s sep : Split_go cur s sep ≠ [].
Proof.
  revert cur. induction s as [|a s IH]; intros cur; simpl; [done|].
  destruct (decide (a = sep)); [done|apply IH].
Qed.

Lemma Join_cons e rest sep :
  rest ≠ [] → Join (e :: rest) sep = e +:+ sep +:+ Join rest sep.
Proof. by destruct rest. Qed.

Lemma Split_go_Join cur s sep :
  Join (Split_go cur s sep) (String sep EmptyString) = cur +:+ s.
Proof.
  revert cur. induction s as [|a s IH]; intros cur; simpl.
  - by rewrite append_nil_r.
  - destruct (decide (a = sep)) as [->|Hne].
    + rewrite Join_cons by apply Split_go_nonempty. rewrite IH. done.
    + rewrite IH. by rewrite append_assoc.
Qed.

Lemma skip_length s : skip (String.length s) s = EmptyString.
Proof. by induction s. Qed.

Lemma skip_append_length s t : skip (String.length s) (s +:+ t) = t.
Proof. apply skip_append. Qed.

Lemma TrimSuffix_append p : TrimSuffix (p +:+ "/") "/" = p.
Proof.
  unfold TrimSuffix, HasSuffix. rewrite length_append. simpl String.length.
  rewrite bool_decide_eq_true_2 by lia.
  replace (String.length p + 1 - 1)%nat with (String.length p) by lia.
  rewrite skip_append. rewrite bool_decide_eq_true_2 by done. simpl.
  apply substring_0_length.
Qed.

Lemma append_inj_r s s' t : s +:+ t = s' +:+ t → s = s'.
Proof.
  revert s'. induction s as [|a s IH]; intros [|a' s'] Heq; [done|..].
  - apply (f_equal String.length) in Heq.
    rewrite !length_append in Heq. simpl in Heq. lia.
  - apply (f_equal String.length) in Heq.
    rewrite !length_append in Heq. simpl in Heq. lia.
  - rewrite !append_cons in Heq. injection Heq as -> Heq. f_equal. by apply IH.
Qed.

Lemma Itoa_inj i j : Itoa i = Itoa j → i = j.
Proof.
  unfold Itoa. intros Heq. apply DecimalZ.to_int_inj.
  assert (∀ z, NilZero.int_of_string (NilZero.string_of_int (Z.to_int z)) = Some (Z.to_int z))
    as Hisi.
  { intros z. apply NilZero.isi; destruct z; simpl; try done;
      intros [= Hnil]; by apply DecimalPos.Unsigned.to_uint_nonnil in Hnil. }
  pose proof (Hisi i) as Hi. rewrite Heq, Hisi in Hi. by injection Hi.
Qed.

(** ** The store after the chunk loop *)

Lemma World_eta w : mkWorld (buckets w) (trace w) = w.
Proof. by destruct w. Qed.

Lemma chunkKey_inj prefix i j : chunkKey prefix i = chunkKey prefix j → i = j.
Proof.
  unfold chunkKey. intros Heq.
  apply (inj (String.app _)) in Heq. apply (inj (String.app _)) in Heq.
  apply append_inj_r in Heq. by apply Itoa_inj.
Qed.

Lemma storeChunks_other prefix i parts objs k :
  (∀ j : nat, (j < length parts)%nat → k ≠ chunkKey prefix (i + Z.of_nat j)) →
  storeChunks prefix i parts objs !! k = objs !! k.
Proof.
  revert i objs. induction parts as [|p ps IH]; intros i objs Hk; simpl; [done|].
  rewrite IH.
  - rewrite lookup_insert_ne; [done|]. specialize (Hk 0%nat). simpl in Hk.
    rewrite Z.add_0_r in Hk. intros Heq. apply Hk; [lia|done].
  - intros j Hj. specialize (Hk (S j)). simpl in Hk.
    replace (i + 1 + Z.of_nat j) with (i + Z.of_nat (S j)) by lia. apply Hk. lia.
Qed.

(** After the loop every chunk key holds its chunk. *)
Lemma storeChunks_lookup prefix i parts objs (j : nat) p :
  parts !! j = Some p →
  storeChunks prefix i parts objs !! chunkKey prefix (i + Z.of_nat j)
  = Some (Join p newline).
Proof.
  revert i objs j. induction parts as [|q ps IH]; intros i objs j Hj; [done|].
  destruct j as [|j]; cbn [storeChunks].
  - injection Hj as ->. rewrite Z.add_0_r. rewrite storeChunks_other.
    + by rewrite lookup_insert_eq.
    + intros j _ Heq%chunkKey_inj. lia.
  - replace (i + Z.of_nat (S j)) with (i + 1 + Z.of_nat j) by lia.
    by apply IH.
Qed.

(** The chunk loop, run forward: when every cut is defined and the bucket
    exists, the loop runs through. *)
Lemma splitLoop_runs n i lines chunkSize bucket prefix urls w (ps : list (list string)) objs :
  length ps = n →
  (∀ (j : nat) p, ps !! j = Some p → cut lines chunkSize (i + Z.of_nat j) = Some p) →
  buckets w !! bucket = Some objs →
  splitLoop n i lines chunkSize bucket prefix urls w
  = (Next (urls ++ chunkUrls bucket prefix i n),
     mkWorld (<[bucket := storeChunks prefix i ps objs]> (buckets w))
             (trace w ++ chunkPuts bucket prefix i ps)).
Proof.
  revert i urls w ps objs. induction n as [|n IH]; intros i urls w ps objs Hlen Hcuts Hb.
  - destruct ps; [|done]. simpl. unfold hret.
    rewrite !app_nil_r, insert_id by done. by rewrite World_eta.
  - destruct ps as [|p ps]; [done|]. simpl in Hlen. injection Hlen as Hlen.
    cbn [splitLoop]. unfold hbind at 1, must.
    pose proof (Hcuts 0%nat p eq_refl) as H0. rewrite Z.add_0_r in H0. rewrite H0.
    unfold hbind at 1, try. rewrite (Upload_bucket _ _ _ _ objs Hb).
    rewrite (IH (i + 1) _ _ ps (<[chunkKey prefix i := Join p newline]> objs)).
    + simpl. rewrite insert_insert_eq. by rewrite <- !app_assoc.
    + done.
    + intros j q Hq. specialize (Hcuts (S j) q Hq). rewrite <- Hcuts. f_equal. lia.
    + simpl. apply lookup_insert_eq.
Qed.

(** ** When the chunk loop runs through *)

Lemma cut_defined lines chunkSize (j : nat) :
  0 ≤ chunkSize → (Z.of_nat j + 1) * chunkSize ≤ max_int →
  Z.of_nat j * chunkSize ≤ Z.of_nat (length lines) →
  cut lines chunkSize (Z.of_nat j) = Some (chunkLines lines chunkSize j).
Proof.
  intros Hcs Hmax Hstart. unfold cut, slice, chunkLines.
  rewrite !wrap64_id by (unfold in_range, min_int, max_int in *; nia).
  case_bool_decide as Hend; (rewrite decide_True by nia); do 3 f_equal; lia.
Qed.

Lemma cut_undefined lines chunkSize (j : nat) :
  0 ≤ chunkSize → (Z.of_nat j + 1) * chunkSize ≤ max_int →
  Z.of_nat (length lines) < Z.of_nat j * chunkSize →
  cut lines chunkSize (Z.of_nat j) = None.
Proof.
  intros Hcs Hmax Hstart. unfold cut, slice.
  rewrite !wrap64_id by (unfold in_range, min_int, max_int in *; nia).
  case_bool_decide as Hend; by rewrite decide_False by nia.
Qed.

(** The loop for a document of L lines and [parts] parts, run forward. *)
Lemma splitInto_runs parts content bucket prefix w objs :
  let lines := Split content "010" in
  let L := Z.of_nat (length lines) in
  let chunkSize := (L + parts - 1) `div` parts in
  1 ≤ parts → L + parts - 1 ≤ max_int →
  buckets w !! bucket = Some objs →
  (parts - 1) * chunkSize ≤ L →
  splitInto parts content bucket prefix w
  = (Next (chunkUrls bucket prefix 0 (Z.to_nat parts)),
     mkWorld (<[bucket := storeChunks prefix 0
                            (chunkLines lines chunkSize <$> seq 0 (Z.to_nat parts)) objs]>
                (buckets w))
             (trace w ++ chunkPuts bucket prefix 0
                           (chunkLines lines chunkSize <$> seq 0 (Z.to_nat parts)))).
Proof.
  intros lines L chunkSize Hparts Hmax Hb Hlast.
  unfold splitInto, hbind, must. fold lines. fold L.
  destruct (GoInt.div (wrap64 (L + parts - 1)) parts) as [cs|] eqn:Hdiv.
  2: { unfold GoInt.div in Hdiv. by rewrite decide_False in Hdiv by lia. }
  apply chunkSize_ceiling in Hdiv as (Hcs & Hpos & Hlo & Hhi); [|unfold L; lia|lia..].
  fold chunkSize in Hcs. subst cs.
  rewrite (splitLoop_runs _ _ _ _ _ _ _ _
             (chunkLines lines chunkSize <$> seq 0 (Z.to_nat parts)) objs);
    [done|by rewrite length_fmap, length_seq| |done].
  intros j p Hj. rewrite list_lookup_fmap in Hj.
  destruct (seq 0 (Z.to_nat parts) !! j) as [j'|] eqn:Hseq; [|done].
  apply lookup_seq in Hseq as [-> Hlt]. simpl in Hj. injection Hj as <-.
  rewrite Z.add_0_l. apply cut_defined; [done|nia|fold L; nia].
Qed.

(** The defect of the chunk loop, exactly: for a document of L lines cut
    into [parts] >= 1 parts with the chunk bucket in place, the loop runs
    through if and only if the last chunk starts inside the document,
    (parts - 1) * ceil(L / parts) <= L; otherwise it panics. *)
Lemma splitInto_runs_iff parts content bucket prefix w :
  let L := Z.of_nat (length (Split content "010")) in
  1 ≤ parts → L + parts - 1 ≤ max_int →
  hasBucket w bucket →
  ((∃ urls w', splitInto parts content bucket prefix w = (Next urls, w'))
   ↔ (parts - 1) * ((L + parts - 1) `div` parts) ≤ L)
  ∧ ((∃ w', splitInto parts content bucket prefix w = (Done RPanic, w'))
     ↔ L < (parts - 1) * ((L + parts - 1) `div` parts)).
Proof.
  intros L Hparts Hmax [objs Hb].
  assert ((∃ urls w', splitInto parts content bucket prefix w = (Next urls, w'))
          ↔ (parts - 1) * ((L + parts - 1) `div` parts) ≤ L) as Hiff.
  { split.
    - intros (urls & w' & Hrun). unfold splitInto, hbind, must in Hrun.
      destruct (GoInt.div _ parts) as [cs|] eqn:Hdiv; [|done].
      apply chunkSize_ceiling in Hdiv as (Hcs & Hpos & Hlo & Hhi); [|lia..].
      fold L in Hcs. rewrite <- Hcs.
      apply splitLoop_Next in Hrun as (ps & Hlen & Hcuts & _ & _).
      destruct (ps !! Z.to_nat (parts - 1)) as [p|] eqn:Hp.
      + apply Hcuts in Hp. rewrite Z.add_0_l in Hp.
        apply cut_Some in Hp as [Hstart _]; [|done|lia|fold L in Hhi; nia].
        fold L in Hstart. by rewrite Z2Nat.id in Hstart by lia.
      + apply lookup_ge_None in Hp. lia.
    - intros Hlast. eexists _, _. by apply splitInto_runs. }
  split; [done|]. split.
  - intros [w' Hrun]. destruct (decide ((parts - 1) * ((L + parts - 1) `div` parts) ≤ L))
      as [Hle|]; [|lia].
    apply Hiff in Hle as (urls & w'' & Hok). congruence.
  - intros Hlt. unfold splitInto, hbind, must.
    destruct (GoInt.div _ parts) as [cs|] eqn:Hdiv.
    2: { unfold GoInt.div in Hdiv. by rewrite decide_False in Hdiv by lia. }
    destruct (splitLoop _ _ _ _ _ _ _ w) as [[urls|r] w'] eqn:Hloop.
    + exfalso. assert (¬ (parts - 1) * ((L + parts - 1) `div` parts) ≤ L) as Hn by lia.
      apply Hn, Hiff. exists urls, w'. unfold splitInto, hbind, must.
      by rewrite Hdiv.
    + exists w'. f_equal. f_equal.
      (* the loop cannot end on a failed upload: the bucket is there *)
      clear Hiff Hlt Hdiv. revert Hloop. generalize (@nil string) as urls.
      generalize 0 as i. revert w objs Hb.
      induction (Z.to_nat parts) as [|n IH]; intros w objs Hb i urls; simpl; [done|].
      unfold hbind at 1, must. destruct (cut _ _ i); [|by intros [= <- _]].
      unfold hbind at 1, try. rewrite (Upload_bucket _ _ _ _ objs Hb).
      eapply IH. simpl. apply lookup_insert_eq.
Qed.

Lemma Split_length_pos content : (1 ≤ length (Split content "010"))%nat.
Proof.
  pose proof (Split_go_nonempty EmptyString content "010") as Hne.
  unfold Split. destruct (Split_go _ _ _); [done|simpl; lia].
Qed.

Lemma last_of_three L : 1 ≤ L → (3 - 1) * ((L + 3 - 1) `div` 3) ≤ L ↔ 2 ≤ L.
Proof.
  intros HL. pose proof (Z.div_mod (L + 3 - 1) 3 ltac:(lia)) as Hdm.
  pose proof (Z.mod_pos_bound (L + 3 - 1) 3 ltac:(lia)) as Hmod.
  split; intros H.
  - destruct (decide (L = 1)) as [->|]; [|lia]. vm_compute in H. by destruct H.
  - destruct (decide (L = 2)) as [->|]; [by vm_compute|].
    destruct (decide (L = 3)) as [->|]; [by vm_compute|]. lia.
Qed.

(** The split handler, run forward on a document of at least two lines. *)
Lemma splitHandler_runs c w bucket key content objs :
  let lines := Split content "010" in
  let chunkSize := (Z.of_nat (length lines) + 3 - 1) `div` 3 in
  let ps := chunkLines lines chunkSize <$> seq 0 3 in
  parseS3 (Query c "input_s3") = Some (bucket, key) →
  buckets w !! bucket = Some objs →
  objs !! key = Some content →
  Z.of_nat (length lines) + 2 ≤ max_int →
  (2 ≤ length lines)%nat →
  serve (splitHandler "splitter" c) w
  = (RUrls 200 (chunkUrls bucket (Query c "out_prefix") 0 3),
     mkWorld (<[bucket := storeChunks (Query c "out_prefix") 0 ps objs]> (buckets w))
             (trace w ++ GetObject bucket key
                :: chunkPuts bucket (Query c "out_prefix") 0 ps)).
Proof.
  intros lines chunkSize ps Hparse Hb Hobj Hmax Htwo.
  assert (object w bucket key = Some content) as Hobject
    by (unfold object; rewrite Hb; done).
  unfold serve, splitHandler. rewrite decide_False by (by intros []).
  unfold hbind at 1, must. rewrite Hparse.
  unfold hbind at 1, try. rewrite (Download_object _ _ _ _ Hobject).
  unfold hbind at 1.
  rewrite (splitInto_runs 3 content bucket (Query c "out_prefix")
             (record (GetObject bucket key) w) objs); [| lia | fold lines; lia | done |].
  - unfold hret. simpl. by rewrite <- app_assoc.
  - apply last_of_three; fold lines; lia.
Qed.

(** A split call on a readable document (at most 2^63 - 3 lines):
    it answers with its list of three addresses if and only if the
    document has at least two lines, that is, at least one newline; on a
    one-line document it panics. *)
Theorem split_call_succeeds_iff c w bucket key content :
  parseS3 (Query c "input_s3") = Some (bucket, key) →
  object w bucket key = Some content →
  Z.of_nat (length (Split content "010")) + 2 ≤ max_int →
  ((serve (splitHandler "splitter" c) w).1
     = RUrls 200 (chunkUrls bucket (Query c "out_prefix") 0 3)
   ↔ (2 ≤ length (Split content "010"))%nat)
  ∧ ((serve (splitHandler "splitter" c) w).1 = RPanic
     ↔ length (Split content "010") = 1%nat).
Proof.
  intros Hparse Hobject Hmax.
  pose proof (Split_length_pos content) as Hpos.
  assert (∃ objs, buckets w !! bucket = Some objs ∧ objs !! key = Some content)
    as (objs & Hb & Hobj).
  { unfold object in Hobject. destruct (buckets w !! bucket) as [objs|]; [|done].
    by exists objs. }
  destruct (decide (2 ≤ length (Split content "010"))%nat) as [Htwo|Hone].
  - rewrite (splitHandler_runs c w bucket key content objs) by done. simpl.
    split; split; try done; lia.
  - assert (length (Split content "010") = 1%nat) as Hlen by lia.
    assert ((serve (splitHandler "splitter" c) w).1 = RPanic) as ->.
    { destruct (splitInto_runs_iff 3 content bucket (Query c "out_prefix")
                  (record (GetObject bucket key) w)) as [_ [_ Hpanic]];
        [lia|lia|by exists objs|].
      destruct Hpanic as [w' Hrun]; [rewrite Hlen; by vm_compute|].
      unfold serve, splitHandler. rewrite decide_False by (by intros []).
      unfold hbind at 1, must. rewrite Hparse.
      unfold hbind at 1, try. rewrite (Download_object _ _ _ _ Hobject).
      unfold hbind at 1. by rewrite Hrun. }
    split; split; try done; lia.
Qed.

(** ** The split call, end to end *)

(** A split call on a readable document (at most 2^63 - 3 lines) of at
    least two lines answers with its three addresses; afterwards the key
    of chunk j holds lines j * ceil(L/3) up to (j + 1) * ceil(L/3) of the
    document (as far as there are lines), joined by newlines, and every
    object that is not at a chunk key is as before. *)
Theorem split_call_stores_chunks c w bucket key content :
  let lines := Split content "010" in
  let chunkSize := (Z.of_nat (length lines) + 3 - 1) `div` 3 in
  let prefix := Query c "out_prefix" in
  parseS3 (Query c "input_s3") = Some (bucket, key) →
  object w bucket key = Some content →
  Z.of_nat (length lines) + 2 ≤ max_int →
  (2 ≤ length lines)%nat →
  ∃ w', serve (splitHandler "splitter" c) w = (RUrls 200 (chunkUrls bucket prefix 0 3), w')
        ∧ (∀ j : nat, (j < 3)%nat →
             object w' bucket (chunkKey prefix (Z.of_nat j))
             = Some (Join (chunkLines lines chunkSize j) newline))
        ∧ (∀ b k, (b = bucket → ∀ j : nat, (j < 3)%nat → k ≠ chunkKey prefix (Z.of_nat j)) →
             object w' b k = object w b k).
Proof.
  intros lines chunkSize prefix Hparse Hobject Hmax Htwo.
  assert (∃ objs, buckets w !! bucket = Some objs ∧ objs !! key = Some content)
    as (objs & Hb & Hobj).
  { unfold object in Hobject. destruct (buckets w !! bucket) as [objs|]; [|done].
    by exists objs. }
  eexists. split; [by apply (splitHandler_runs c w bucket key content objs)|].
  fold lines chunkSize prefix. unfold object. cbn [buckets]. split.
  - intros j Hj. rewrite lookup_insert_eq. cbn [mbind option_bind].
    rewrite <- (Z.add_0_l (Z.of_nat j)). apply storeChunks_lookup.
    rewrite list_lookup_fmap, lookup_seq_lt by done. done.
  - intros b k Hk. destruct (decide (b = bucket)) as [->|Hne].
    + rewrite lookup_insert_eq, Hb. cbn [mbind option_bind].
      apply storeChunks_other. rewrite length_fmap, length_seq.
      intros j Hj. rewrite Z.add_0_l. by apply Hk.
    + by rewrite lookup_insert_ne.
Qed.

Lemma split_call_stores_chunks_witness :
  let c := splitRequest 3 in
  let lines := Split fourLines "010" in
  let chunkSize := (Z.of_nat (length lines) + 3 - 1) `div` 3 in
  let prefix := Query c "out_prefix" in
  ∃ w', serve (splitHandler "splitter" c) fourLinesWorld
        = (RUrls 200 (chunkUrls "bucket" prefix 0 3), w')
        ∧ (∀ j : nat, (j < 3)%nat →
             object w' "bucket" (chunkKey prefix (Z.of_nat j))
             = Some (Join (chunkLines lines chunkSize j) newline))
        ∧ (∀ b k, (b = "bucket" → ∀ j : nat, (j < 3)%nat → k ≠ chunkKey prefix (Z.of_nat j)) →
             object w' b k = object fourLinesWorld b k).
Proof.
  apply (split_call_stores_chunks (splitRequest 3) fourLinesWorld "bucket" "doc.txt" fourLines).
  - reflexivity.
  - reflexivity.
  - vm_compute. discriminate.
  - vm_compute. lia.
Defined.

Lemma split_call_succeeds_iff_witness :
  ((serve (splitHandler "splitter" (splitRequest 3)) fourLinesWorld).1
     = RUrls 200 (chunkUrls "bucket" (Query (splitRequest 3) "out_prefix") 0 3)
   ↔ (2 ≤ length (Split fourLines "010"))%nat)
  ∧ ((serve (splitHandler "splitter" (splitRequest 3)) fourLinesWorld).1 = RPanic
     ↔ length (Split fourLines "010") = 1%nat).
Proof.
  apply (split_call_succeeds_iff (splitRequest 3) fourLinesWorld "bucket" "doc.txt" fourLines).
  - reflexivity.
  - reflexivity.
  - vm_compute. discriminate.
Defined.

(** The chunk loop for any part count.  For a document of L lines cut
    into [parts] >= 1 parts, with the chunk bucket in place, the loop
    runs through exactly when the last chunk starts inside the document,
    (parts - 1) * ceil(L / parts) <= L, and panics otherwise; a document
    of at least (parts - 1)^2 lines is always long enough.  (Six lines
    in five parts are not: the chunks of two lines start at 0, 2, 4, 6
    and 8.) *)
Theorem chunk_loop_runs_iff parts content bucket prefix w :
  let L := Z.of_nat (length (Split content "010")) in
  let chunkSize := (L + parts - 1) `div` parts in
  1 ≤ parts → L + parts - 1 ≤ max_int →
  hasBucket w bucket →
  ((∃ urls w', splitInto parts content bucket prefix w = (Next urls, w'))
   ↔ (parts - 1) * chunkSize ≤ L)
  ∧ ((∃ w', splitInto parts content bucket prefix w = (Done RPanic, w'))
     ↔ L < (parts - 1) * chunkSize)
  ∧ ((parts - 1) * (parts - 1) ≤ L → (parts - 1) * chunkSize ≤ L).
Proof.
  intros L chunkSize Hparts Hmax Hb.
  destruct (splitInto_runs_iff parts content bucket prefix w Hparts Hmax Hb) as [Hruns Hpanics].
  split_and!; [done..|].
  intros Hlong.
  pose proof (Z.div_mod (L + parts - 1) parts ltac:(lia)) as Hdm.
  pose proof (Z.mod_pos_bound (L + parts - 1) parts ltac:(lia)) as Hmod.
  fold chunkSize in Hdm. nia.
Qed.

Lemma chunk_loop_runs_iff_witness :
  let L := Z.of_nat (length (Split sixLines "010")) in
  let chunkSize := (L + 5 - 1) `div` 5 in
  ((∃ urls w', splitInto 5 sixLines "bucket" "splits/" (bucketOf "bucket" ∅) = (Next urls, w'))
   ↔ (5 - 1) * chunkSize ≤ L)
  ∧ ((∃ w', splitInto 5 sixLines "bucket" "splits/" (bucketOf "bucket" ∅) = (Done RPanic, w'))
     ↔ L < (5 - 1) * chunkSize)
  ∧ ((5 - 1) * (5 - 1) ≤ L → (5 - 1) * chunkSize ≤ L).
Proof.
  apply (chunk_loop_runs_iff 5 sixLines "bucket" "splits/" (bucketOf "bucket" ∅)).
  - lia.
  - vm_compute. discriminate.
  - by eexists.
Defined.

(** A split call that answers with its list has lost nothing: the lines
    of the three chunks it has put, taken in index order and joined by
    newlines, are the document byte for byte. *)
Theorem split_call_loses_nothing mode c w code urls w' :
  serve (splitHandler mode c) w = (RUrls code urls, w') →
  ∃ bucket key content (ps : list (list string)),
    parseS3 (Query c "input_s3") = Some (bucket, key)
    ∧ object w bucket key = Some content
    ∧ issued w w' = GetObject bucket key :: chunkPuts bucket (Query c "out_prefix") 0 ps
    ∧ (Z.of_nat (length (Split content "010")) + 2 ≤ max_int →
       length ps = 3%nat ∧ Join (concat ps) newline = content).
Proof.
  intros (bucket & key & content & ps & Hparse & Hobj & Hps & _ & Hissued)%splitHandler_complete.
  exists bucket, key, content, ps. split_and!; [done..|].
  intros (Hlen & -> & _)%Hps. split; [done|]. apply (Split_go_Join EmptyString).
Qed.

Lemma split_call_loses_nothing_witness :
  let call := serve (splitHandler "splitter" (splitRequest 3)) fourLinesWorld in
  ∃ bucket key content (ps : list (list string)),
    parseS3 (Query (splitRequest 3) "input_s3") = Some (bucket, key)
    ∧ object fourLinesWorld bucket key = Some content
    ∧ issued fourLinesWorld call.2
      = GetObject bucket key :: chunkPuts bucket (Query (splitRequest 3) "out_prefix") 0 ps
    ∧ (Z.of_nat (length (Split content "010")) + 2 ≤ max_int →
       length ps = 3%nat ∧ Join (concat ps) newline = content).
Proof.
  intros call.
  apply (split_call_loses_nothing "splitter" (splitRequest 3) fourLinesWorld 200
           (chunkUrls "bucket" (Query (splitRequest 3) "out_prefix") 0 3) call.2).
  vm_compute. reflexivity.
Defined.

(** Six lines in five parts: more lines than parts, and the loop
    panics. *)
Example chunk_loop_six_lines_five_parts :
  ∃ w', splitInto 5 sixLines "bucket" "splits/" (bucketOf "bucket" ∅) = (Done RPanic, w').
Proof. eexists. vm_compute. reflexivity. Qed.

(** Chunk keys under one prefix differ whenever the indices differ, so
    no chunk of a run overwrites another. *)
Theorem chunk_keys_distinct prefix i j : chunkKey prefix i = chunkKey prefix j ↔ i = j.
Proof. split; [apply chunkKey_inj|by intros ->]. Qed.

(** ** Single calls, run forward *)

Lemma issued_app w w' ops : trace w' = trace w ++ ops → issued w w' = ops.
Proof. unfold issued. intros ->. by rewrite drop_app_length. Qed.

Section MapCalls.

Context {table : CaseTable}.

(** A map call whose chunk is there and whose output bucket exists
    answers 200 with the output address.  It has made two store calls,
    the get of the chunk and the put of the encoded counts, and has
    changed no object but the one at the output address. *)
Theorem map_call_effect c w bucket key text outBucket outKey :
  parseS3 (Query c "chunk_s3") = Some (bucket, key) →
  object w bucket key = Some text →
  parseS3 (Query c "out_s3") = Some (outBucket, outKey) →
  hasBucket w outBucket →
  ∃ w', serve (mapHandler "mapper" c) w = (ROutput 200 (Query c "out_s3"), w')
        ∧ issued w w' = [GetObject bucket key;
                         PutObject outBucket outKey (JSON.Marshal (countWords text))]
        ∧ object w' outBucket outKey = Some (JSON.Marshal (countWords text))
        ∧ (∀ b k, (b, k) ≠ (outBucket, outKey) → object w' b k = object w b k).
Proof.
  intros Hparse Hobj Hout Hb.
  destruct (mapHandler_runs c w bucket key text outBucket outKey)
    as (w' & Hserve & Htrace & Hstored & Hframe & _); [done..|].
  exists w'. split_and!; [done|by apply issued_app|done..].
Qed.

(** A map call whose chunk is missing answers 500 after the get: nothing
    is put, whatever the output address is. *)
Theorem map_call_missing_chunk c w bucket key :
  parseS3 (Query c "chunk_s3") = Some (bucket, key) →
  object w bucket key = None →
  ∃ msg, serve (mapHandler "mapper" c) w
         = (RString 500 msg, record (GetObject bucket key) w).
Proof.
  intros Hparse Hnone. handler_unfold.
  destruct (decide ("mapper" ≠ "mapper")) as [|_]; [done|].
  rewrite Hparse. unfold Download. unfold object in Hnone.
  destruct (buckets w !! bucket) as [objs|]; simpl in Hnone.
  - rewrite Hnone. by eexists.
  - by eexists.
Qed.

End MapCalls.

Lemma map_call_effect_witness :
  let c := mkContext [("chunk_s3", "s3://bucket/splits/run-2/chunk-0.txt");
                      ("out_s3", "s3://bucket/maps/run-2/map-0.json")] in
  let body := JSON.Marshal (countWords (table := Unicode.latin_table) kingText) in
  ∃ w', serve (mapHandler (table := Unicode.latin_table) "mapper" c) kingChunks
        = (ROutput 200 (Query c "out_s3"), w')
        ∧ issued kingChunks w'
          = [GetObject "bucket" "splits/run-2/chunk-0.txt";
             PutObject "bucket" "maps/run-2/map-0.json" body]
        ∧ object w' "bucket" "maps/run-2/map-0.json" = Some body
        ∧ (∀ b k, (b, k) ≠ ("bucket", "maps/run-2/map-0.json") →
                  object w' b k = object kingChunks b k).
Proof.
  apply (map_call_effect (table := Unicode.latin_table)
           (mkContext [("chunk_s3", "s3://bucket/splits/run-2/chunk-0.txt");
                       ("out_s3", "s3://bucket/maps/run-2/map-0.json")])
           kingChunks "bucket" "splits/run-2/chunk-0.txt" kingText
           "bucket" "maps/run-2/map-0.json").
  - reflexivity.
  - reflexivity.
  - reflexivity.
  - by eexists.
Defined.

Lemma map_call_missing_chunk_witness :
  let c := mkContext [("chunk_s3", "s3://bucket/splits/run-2/chunk-7.txt");
                      ("out_s3", "s3://bucket/maps/run-2/map-7.json")] in
  ∃ msg, serve (mapHandler (table := Unicode.latin_table) "mapper" c) kingChunks
         = (RString 500 msg, record (GetObject "bucket" "splits/run-2/chunk-7.txt") kingChunks).
Proof.
  apply (map_call_missing_chunk (table := Unicode.latin_table)
           (mkContext [("chunk_s3", "s3://bucket/splits/run-2/chunk-7.txt");
                       ("out_s3", "s3://bucket/maps/run-2/map-7.json")])
           kingChunks "bucket" "splits/run-2/chunk-7.txt").
  - reflexivity.
  - reflexivity.
Defined.



Lemma reduceFold_Permutation (partials partials' : list (gmap string Z)) :
  partials ≡ₚ partials' → reduceFold partials = reduceFold partials'.
Proof.
  intros Hperm. apply map_eq. intros k. rewrite !reduceFold_lookup.
  rewrite (sumAt_Permutation k _ _ Hperm).
  destruct (decide (Exists _ partials)) as [Hex|Hex];
    destruct (decide (Exists _ partials')) as [Hex'|Hex']; try done; exfalso.
  - apply Hex'. by rewrite <- Hperm.
  - apply Hex. by rewrite Hperm.
Qed.

Lemma fetched_Permutation w (inputs inputs' bodies : list string) :
  inputs' ≡ₚ inputs →
  Forall2 (fetched w) inputs bodies →
  ∃ bodies', Forall2 (fetched w) inputs' bodies' ∧ bodies' ≡ₚ bodies.
Proof.
  intros Hperm. revert bodies.
  induction Hperm as [|x l l' _ IH|x y l|l l' l'' _ IH1 _ IH2]; intros bodies Hall.
  - apply Forall2_nil_inv_l in Hall as ->. by exists [].
  - apply Forall2_cons_inv_l in Hall as (b & bs & Hb & Hall & ->).
    destruct (IH bs Hall) as (bs' & Hall' & Hp). exists (b :: bs'). split; [by constructor|].
    by constructor.
  - apply Forall2_cons_inv_l in Hall as (bx & bs & Hbx & Hall & ->).
    apply Forall2_cons_inv_l in Hall as (by_ & bs' & Hby & Hall & ->).
    exists (by_ :: bx :: bs'). split; [by repeat constructor|]. apply perm_swap.
  - destruct (IH2 bodies Hall) as (bs' & Hall' & Hp').
    destruct (IH1 bs' Hall') as (bs'' & Hall'' & Hp'').
    exists bs''. split; [done|]. by etrans.
Qed.

(** The order of the [in] parameters does not matter, not even when sums
    wrap around: two reduce calls over the same partials, listed in any
    two orders, answer alike and leave the same store. *)
Theorem reduce_order_irrelevant c c' bodies outBucket outKey w :
  Forall2 (fetched w) (QueryArray c "in") bodies →
  QueryArray c' "in" ≡ₚ QueryArray c "in" →
  Query c' "out_s3" = Query c "out_s3" →
  parseS3 (Query c "out_s3") = Some (outBucket, outKey) →
  hasBucket w outBucket →
  ∃ w1 w2, serve (reduceHandler "reducer" c) w = (ROutput 200 (Query c "out_s3"), w1)
           ∧ serve (reduceHandler "reducer" c') w = (ROutput 200 (Query c "out_s3"), w2)
           ∧ ∀ b k, object w2 b k = object w1 b k.
Proof.
  intros Hall Hperm Hout Hparse Hb.
  destruct (fetched_Permutation w _ _ bodies Hperm Hall) as (bodies' & Hall' & Hbodies).
  destruct (reduceHandler_runs c bodies outBucket outKey w)
    as (w1 & Hserve1 & _ & Hstored1 & Hframe1); [done..|].
  destruct (reduceHandler_runs c' bodies' outBucket outKey w)
    as (w2 & Hserve2 & _ & Hstored2 & Hframe2); [done|by rewrite Hout|done|].
  exists w1, w2. rewrite Hout in Hserve2. split_and!; [done..|].
  intros b k. destruct (decide ((b, k) = (outBucket, outKey))) as [[= -> ->]|Hne].
  - rewrite Hstored1, Hstored2. do 2 f_equal.
    apply reduceFold_Permutation. by apply fmap_Permutation.
  - by rewrite Hframe1, Hframe2.
Qed.

Lemma reduce_order_irrelevant_witness :
  let w := bucketOf "bucket" {[ "maps/map-0.json" := partialAB; "maps/map-1.json" := partialBig ]} in
  let c := mkContext [("in", "s3://bucket/maps/map-0.json");
                      ("in", "s3://bucket/maps/map-1.json");
                      ("in", "s3://bucket/maps/map-1.json");
                      ("out_s3", "s3://bucket/reduce/final.json")] in
  let c' := mkContext [("out_s3", "s3://bucket/reduce/final.json");
                       ("in", "s3://bucket/maps/map-1.json");
                       ("in", "s3://bucket/maps/map-0.json");
                       ("in", "s3://bucket/maps/map-1.json")] in
  ∃ w1 w2, serve (reduceHandler "reducer" c) w = (ROutput 200 (Query c "out_s3"), w1)
           ∧ serve (reduceHandler "reducer" c') w = (ROutput 200 (Query c "out_s3"), w2)
           ∧ ∀ b k, object w2 b k = object w1 b k.
Proof.
  intros w c c'.
  apply (reduce_order_irrelevant c c' [partialAB; partialBig; partialBig]
           "bucket" "reduce/final.json" w).
  - repeat constructor; eexists _, _; split; reflexivity.
  - apply perm_swap.
  - reflexivity.
  - reflexivity.
  - by eexists.
Defined.

Lemma reduce_unreadable_aborts_witness :
  let w := bucketOf "bucket" {[ "maps/map-0.json" := partialAB ]} in
  let c := mkContext [("in", "s3://bucket/maps/map-0.json");
                      ("in", "s3://bucket/maps/map-1.json");
                      ("out_s3", "s3://bucket/reduce/final.json")] in
  ∃ msg w', serve (reduceHandler "reducer" c) w = (RString 500 msg, w')
            ∧ buckets w' = buckets w.
Proof.
  intros w c.
  apply (reduce_unreadable_aborts c w ["s3://bucket/maps/map-0.json"]
           "s3://bucket/maps/map-1.json" []).
  - reflexivity.
  - intros x ->%list_elem_of_singleton. exists partialAB, "bucket", "maps/map-0.json".
    split; reflexivity.
  - exists "bucket", "maps/map-1.json". split; reflexivity.
Defined.

(** ** Map and reduce together *)

Section MapThenReduce.

Context {table : CaseTable}.

Lemma get_countWords text k :
  len (Strings.ToLower text) ≤ max_int →
  get (countWords text) k = occurrences k (wordsOf text).
Proof.
  intros Hlen%wordsOf_fit.
  destruct (counting_loop (wordsOf text) Hlen) as [Hlookup _].
  unfold get, countWords. rewrite Hlookup. case_decide as Hin; [done|]. simpl.
  pose proof (occurrences_bounds k (wordsOf text)).
  pose proof (occurrences_pos k (wordsOf text)) as Hpos.
  destruct (decide (1 ≤ occurrences k (wordsOf text))) as [Hone|]; [|lia].
  by apply Hpos in Hone.
Qed.

Lemma countWords_keys text k :
  len (Strings.ToLower text) ≤ max_int →
  is_Some (countWords text !! k) ↔ k ∈ wordsOf text.
Proof.
  intros Hlen%wordsOf_fit.
  destruct (counting_loop (wordsOf text) Hlen) as [Hlookup _].
  unfold countWords. by rewrite Hlookup, is_Some_decide.
Qed.

(** Map of each chunk, then reduce of all partials, counts the words of
    all the chunks.  With runnable jobs, an output bucket in place and
    chunks whose lower-cased text is a Go string, every call answers 200
    and the object at the output address of the reduce call decodes to a
    mapping whose keys are the words of the chunks and whose value for a
    word is the number of its occurrences over all chunks, wrapped into
    the range of [int]. *)
Theorem map_then_reduce_sums_counts jobs chunks outs outS3 outBucket outKey w :
  runnable w jobs chunks outs →
  parseS3 outS3 = Some (outBucket, outKey) →
  hasBucket w outBucket →
  Forall (λ chunk, len (Strings.ToLower chunk) ≤ max_int) chunks →
  ∃ w' body,
    mapReduce jobs outS3 w = (((λ job, ROutput 200 job.2) <$> jobs, ROutput 200 outS3), w')
    ∧ object w' outBucket outKey = Some body
    ∧ ∀ k, get (decode body) k
           = wrap64 (foldr (λ chunk acc, occurrences k (wordsOf chunk) + acc) 0 chunks)
           ∧ (is_Some (decode body !! k) ↔ ∃ chunk, chunk ∈ chunks ∧ k ∈ wordsOf chunk).
Proof.
  intros Hrun Hparse Hb Hlen.
  destruct (mapReduce_runs jobs chunks outs outS3 outBucket outKey w Hrun Hparse Hb)
    as (w' & Hcalls & Hstored).
  { eapply Forall_impl; [done|]. intros chunk. apply wordsOf_fit. }
  exists w', (JSON.Marshal (reduceFold (countWords <$> chunks))). split_and!; [done..|].
  assert (∀ k, is_Some (reduceFold (countWords <$> chunks) !! k)
               ↔ ∃ chunk, chunk ∈ chunks ∧ k ∈ wordsOf chunk) as Hkeys.
  { intros k. rewrite reduceFold_lookup, is_Some_decide, Exists_exists. split.
    - intros (m & (chunk & -> & Hin)%list_elem_of_fmap & Hk).
      exists chunk. split; [done|]. apply countWords_keys; [|done].
      rewrite Forall_forall in Hlen. by apply Hlen.
    - intros (chunk & Hin & Hk). exists (countWords chunk). split.
      + apply list_elem_of_fmap. by exists chunk.
      + apply countWords_keys; [|done]. rewrite Forall_forall in Hlen. by apply Hlen. }
  assert (decode (JSON.Marshal (reduceFold (countWords <$> chunks)))
          = reduceFold (countWords <$> chunks)) as ->.
  { unfold decode. rewrite Unmarshal_Marshal; [by rewrite (right_id_L ∅ (∪))|].
    intros k v Hk. split.
    - assert (is_Some (reduceFold (countWords <$> chunks) !! k)) as Hs by (by eexists).
      apply Hkeys in Hs as (chunk & _ & Hin). apply wordBytes_plain.
      pose proof (FindAll_go_wordBytes EmptyString (Strings.ToLower chunk) eq_refl) as Hall.
      rewrite Forall_forall in Hall. by apply Hall.
    - rewrite reduceFold_lookup in Hk. case_decide; [|done]. injection Hk as <-.
      apply wrap64_range. }
  intros k. split; [|apply Hkeys].
  rewrite reduceFold_get. f_equal. clear Hkeys Hstored Hcalls Hrun.
  induction Hlen as [|chunk chunks Hchunk _ IH]; [done|].
  cbn [fmap list_fmap foldr]. change (sumAt k (countWords chunk :: (countWords <$> chunks)))
    with (get (countWords chunk) k + sumAt k (countWords <$> chunks)).
  by rewrite IH, get_countWords.
Qed.

End MapThenReduce.

Lemma map_then_reduce_sums_counts_witness :
  ∃ w' body,
    mapReduce (table := Unicode.latin_table) kingJobs
      "s3://bucket/reduce/run-2/final.json" kingChunks
    = (((λ job, ROutput 200 job.2) <$> kingJobs,
        ROutput 200 "s3://bucket/reduce/run-2/final.json"), w')
    ∧ object w' "bucket" "reduce/run-2/final.json" = Some body
    ∧ ∀ k, get (decode body) k
           = wrap64 (foldr (λ chunk acc,
                              occurrences k (wordsOf (table := Unicode.latin_table) chunk) + acc)
                       0 [kingText; EmptyString])
           ∧ (is_Some (decode body !! k)
              ↔ ∃ chunk, chunk ∈ [kingText; EmptyString]
                         ∧ k ∈ wordsOf (table := Unicode.latin_table) chunk).
Proof.
  apply (map_then_reduce_sums_counts (table := Unicode.latin_table) kingJobs
           [kingText; EmptyString]
           [("bucket", "maps/run-2/map-0.json"); ("bucket", "maps/run-2/map-1.json")]).
  - split_and!.
    + repeat constructor.
      * exists "bucket", "splits/run-2/chunk-0.txt".
        split_and!; [reflexivity..|].
        rewrite !not_elem_of_cons. split_and!; [discriminate..|apply not_elem_of_nil].
      * exists "bucket", "splits/run-2/chunk-1.txt".
        split_and!; [reflexivity..|].
        rewrite !not_elem_of_cons. split_and!; [discriminate..|apply not_elem_of_nil].
    + repeat constructor; by eexists.
    + repeat constructor; rewrite ?not_elem_of_cons;
        try split_and!; try discriminate; apply not_elem_of_nil.
  - reflexivity.
  - by eexists.
  - repeat constructor; vm_compute; discriminate.
Defined.

Lemma addCounts_any_order_witness :
  foldr (λ kv total, <[kv.1 := wrap64 (get total kv.1 + kv.2)]> total)
    ({[ "a" := 5 ]} : gmap string Z) [("b", 2); ("a", 1)]
  = addCounts {[ "a" := 5 ]} {[ "a" := 1; "b" := 2 ]}.
Proof.
  apply (addCounts_any_order {[ "a" := 5 ]} {[ "a" := 1; "b" := 2 ]} [("b", 2); ("a", 1)]).
  match goal with |- _ ≡ₚ ?l => let l' := eval vm_compute in l in change l with l' end.
  first [apply perm_swap | reflexivity].
Defined.

(** ** Lower-casing and cutting words, line by line *)

Lemma byte_chr_val c : byte_chr (byte_val c) = c.
Proof. unfold byte_chr, byte_val. by rewrite N2Z.id, ascii_N_embedding. Qed.

Lemma byte_val_nonneg c : 0 ≤ byte_val c.
Proof. unfold byte_val. lia. Qed.

Lemma lead_lo b0 lo hi n : UTF8.lead b0 = Some (lo, hi, n) → 0x80 ≤ lo ∧ (2 ≤ n ≤ 4)%nat.
Proof. unfold UTF8.lead. repeat case_bool_decide; intros [= <- <- <-]; lia. Qed.

(** A newline after a line never takes part in a rune of the line: a
    sequence cut short by the end of the line is invalid either way. *)
Lemma DecodeRune_newline a b :
  a ≠ EmptyString →
  UTF8.DecodeRune (a +:+ String "010" b) = UTF8.DecodeRune a.
Proof.
  destruct a as [|c0 s1]; [done|]. intros _. rewrite append_cons.
  unfold UTF8.DecodeRune. cbv zeta. case_bool_decide; [done|].
  destruct (UTF8.lead (byte_val c0)) as [[[lo hi] n]|] eqn:Hlead; [|done].
  apply lead_lo in Hlead as [Hlo Hn].
  assert (bool_decide (lo ≤ byte_val "010" ≤ hi) = false) as Hnl.
  { apply bool_decide_eq_false. change (byte_val "010") with 10. lia. }
  destruct n as [|[|[|[|[|n]]]]]; try lia.
  - destruct s1 as [|c1 s2]; [|done]. rewrite append_nil_l. by rewrite Hnl.
  - destruct s1 as [|c1 [|c2 s3]]; [| |done].
    + rewrite append_nil_l. destruct b; [done|]. by rewrite Hnl.
    + rewrite append_cons, append_nil_l.
      change (UTF8.is_cont (byte_val "010")) with false. by rewrite andb_false_r.
  - destruct s1 as [|c1 [|c2 [|c3 s4]]]; [| | |done].
    + rewrite append_nil_l. destruct b as [|? [|? ?]]; [done|done|]. by rewrite Hnl.
    + rewrite append_cons, append_nil_l. destruct b; [done|].
      change (UTF8.is_cont (byte_val "010")) with false. by rewrite andb_false_r.
    + rewrite !append_cons, append_nil_l.
      change (UTF8.is_cont (byte_val "010")) with false. by rewrite andb_false_r.
Qed.

(** A rune takes at least one byte and no more than there are. *)
Lemma DecodeRune_width c0 s1 :
  (1 ≤ (UTF8.DecodeRune (String c0 s1)).2 ≤ S (String.length s1))%nat.
Proof.
  unfold UTF8.DecodeRune. cbv zeta. case_bool_decide; [simpl; lia|].
  destruct (UTF8.lead (byte_val c0)) as [[[lo hi] n]|] eqn:Hlead; [|simpl; lia].
  destruct n as [|[|[|[|[|n]]]]]; try (simpl; lia).
  - destruct s1 as [|c1 s2]; [simpl; lia|]. case_bool_decide; simpl; lia.
  - destruct s1 as [|c1 [|c2 s3]]; [simpl; lia..|].
    destruct (_ && _); simpl; lia.
  - destruct s1 as [|c1 [|c2 [|c3 s4]]]; [simpl; lia..|].
    destruct (_ && _); simpl; lia.
Qed.

Lemma length_skip n s : String.length (skip n s) = (String.length s - n)%nat.
Proof.
  revert s. induction n as [|n IH]; intros s; simpl; [lia|].
  destruct s as [|a s]; [done|]. simpl. apply IH.
Qed.

Lemma skip_append_le n s t :
  (n ≤ String.length s)%nat → skip n (s +:+ t) = skip n s +:+ t.
Proof.
  revert s. induction n as [|n IH]; intros s Hn; [done|].
  destruct s as [|a s]; simpl in Hn; [lia|]. rewrite append_cons. simpl. apply IH. lia.
Qed.

Lemma Map_go_nil fuel mapping : Strings.Map_go fuel mapping EmptyString = EmptyString.
Proof. by destruct fuel. Qed.

Lemma Map_go_cons fuel mapping c0 s1 :
  Strings.Map_go (S fuel) mapping (String c0 s1)
  = (if bool_decide (0 ≤ mapping (UTF8.DecodeRune (String c0 s1)).1)
     then UTF8.EncodeRune (mapping (UTF8.DecodeRune (String c0 s1)).1)
     else EmptyString)
    +:+ Strings.Map_go fuel mapping (skip (UTF8.DecodeRune (String c0 s1)).2 (String c0 s1)).
Proof. cbn [Strings.Map_go]. by destruct (UTF8.DecodeRune (String c0 s1)). Qed.

(** The fuel of [Map_go] is the length of the string; more changes
    nothing. *)
Lemma Map_go_enough fuel fuel' mapping s :
  (String.length s ≤ fuel)%nat → (String.length s ≤ fuel')%nat →
  Strings.Map_go fuel mapping s = Strings.Map_go fuel' mapping s.
Proof.
  revert fuel' s. induction fuel as [|fuel IH]; intros fuel' s Hf Hf'.
  - destruct s; simpl in Hf; [|lia]. by rewrite !Map_go_nil.
  - destruct s as [|c0 s1]; [by rewrite !Map_go_nil|].
    destruct fuel' as [|fuel']; simpl in Hf, Hf'; [lia|].
    rewrite !Map_go_cons. f_equal.
    pose proof (DecodeRune_width c0 s1) as Hw.
    apply IH; rewrite length_skip; cbn [String.length]; lia.
Qed.

Lemma Map_cons mapping c0 s1 :
  Strings.Map mapping (String c0 s1)
  = (if bool_decide (0 ≤ mapping (UTF8.DecodeRune (String c0 s1)).1)
     then UTF8.EncodeRune (mapping (UTF8.DecodeRune (String c0 s1)).1)
     else EmptyString)
    +:+ Strings.Map mapping (skip (UTF8.DecodeRune (String c0 s1)).2 (String c0 s1)).
Proof.
  unfold Strings.Map. cbn [String.length]. rewrite Map_go_cons. f_equal.
  pose proof (DecodeRune_width c0 s1) as Hw.
  apply Map_go_enough; rewrite ?length_skip; cbn [String.length]; lia.
Qed.

(** [strings.Map] works line by line when the mapping keeps the
    newline. *)
Lemma Map_newline mapping a b :
  mapping 10 = 10 →
  Strings.Map mapping (a +:+ String "010" b)
  = Strings.Map mapping a +:+ String "010" (Strings.Map mapping b).
Proof.
  intros Hnl. remember (String.length a) as n eqn:Hn.
  revert a Hn. induction (lt_wf n) as [n _ IH]. intros a ->.
  destruct a as [|c0 s1].
  - rewrite append_nil_l, Map_cons.
    change (UTF8.DecodeRune (String "010" b)) with (10, 1%nat). cbn [fst snd skip].
    rewrite Hnl. done.
  - assert (UTF8.DecodeRune (String c0 (s1 +:+ String "010" b))
            = UTF8.DecodeRune (String c0 s1)) as Hd
      by (by apply (DecodeRune_newline (String c0 s1) b)).
    pose proof (DecodeRune_width c0 s1) as Hw.
    rewrite append_cons, Map_cons, Hd, (Map_cons mapping c0 s1).
    change (String c0 (s1 +:+ String "010" b)) with (String c0 s1 +:+ String "010" b).
    rewrite skip_append_le by (cbn [String.length]; lia).
    rewrite (IH (String.length (skip (UTF8.DecodeRune (String c0 s1)).2 (String c0 s1))));
      [|rewrite length_skip; cbn [String.length]; lia|done].
    by rewrite append_assoc.
Qed.

Section LineByLine.

Context {table : CaseTable}.

(** On ASCII text the byte loop and [Map(unicode.ToLower, s)] agree, so
    [strings.ToLower] is [Map(unicode.ToLower, s)] throughout. *)
Lemma Map_ascii s :
  Strings.isASCII s = true →
  Strings.Map Unicode.ToLower s = Strings.mapBytes Strings.lowerByte s.
Proof.
  induction s as [|c s IH]; [done|].
  unfold Strings.isASCII. cbn [list_ascii_of_string forallb].
  intros [Hc Hs]%andb_prop. apply bool_decide_eq_true in Hc.
  rewrite Map_cons. unfold UTF8.DecodeRune. cbv zeta.
  rewrite (bool_decide_eq_true_2 (byte_val c < 128)) by done.
  cbn [fst snd skip Strings.mapBytes]. rewrite (IH Hs).
  pose proof (byte_val_nonneg c).
  assert (Strings.lowerByte c
          = if bool_decide (65 ≤ byte_val c ≤ 90) then byte_chr (byte_val c + 32) else c)
    as -> by done.
  unfold Unicode.ToLower. rewrite (bool_decide_eq_true_2 (_ ≤ 127)) by lia.
  destruct (bool_decide (65 ≤ byte_val c ≤ 90)) eqn:Hup.
  - apply bool_decide_eq_true in Hup.
    rewrite bool_decide_eq_true_2 by lia. unfold UTF8.EncodeRune.
    by rewrite bool_decide_eq_true_2 by lia.
  - rewrite bool_decide_eq_true_2 by lia. unfold UTF8.EncodeRune.
    rewrite bool_decide_eq_true_2 by lia. cbn [UTF8.bytes foldr].
    by rewrite byte_chr_val.
Qed.

Lemma ToLower_Map s : Strings.ToLower s = Strings.Map Unicode.ToLower s.
Proof. unfold Strings.ToLower. destruct (Strings.isASCII s) eqn:Ha; [by rewrite Map_ascii|done]. Qed.

Lemma ToLower_newline a b :
  Strings.ToLower (a +:+ String "010" b)
  = Strings.ToLower a +:+ String "010" (Strings.ToLower b).
Proof. rewrite !ToLower_Map. by apply Map_newline. Qed.

Lemma FindAll_go_newline run a b :
  Regexp.FindAll_go run (a +:+ String "010" b)
  = Regexp.FindAll_go run a ++ Regexp.FindAll_go EmptyString b.
Proof.
  revert run. induction a as [|c a IH]; intros run; [done|].
  rewrite append_cons. cbn [Regexp.FindAll_go]. destruct (Regexp.wordByte c); [apply IH|].
  by rewrite IH, app_assoc.
Qed.

(** No word spans a newline. *)
Lemma wordsOf_newline a b : wordsOf (a +:+ String "010" b) = wordsOf a ++ wordsOf b.
Proof. unfold wordsOf, Regexp.FindAllString. by rewrite ToLower_newline, FindAll_go_newline. Qed.

(** The words of joined lines are the words of the lines. *)
Lemma wordsOf_Join (lines : list string) :
  wordsOf (Join lines newline) = concat (wordsOf <$> lines).
Proof.
  induction lines as [|e [|e' rest] IH]; [done|by cbn; rewrite app_nil_r|].
  change (Join (e :: e' :: rest) newline)
    with (e +:+ String "010" (Join (e' :: rest) newline)).
  rewrite wordsOf_newline, IH. done.
Qed.

Lemma wordsOf_chunks (ps : list (list string)) :
  concat (wordsOf <$> ((λ p, Join p newline) <$> ps)) = wordsOf (Join (concat ps) newline).
Proof.
  rewrite wordsOf_Join. induction ps as [|p ps IH]; [done|].
  cbn [fmap list_fmap concat]. rewrite IH, wordsOf_Join, fmap_app, concat_app. done.
Qed.

End LineByLine.

Lemma occurrences_app w (l1 l2 : list string) :
  occurrences w (l1 ++ l2) = occurrences w l1 + occurrences w l2.
Proof. unfold occurrences. rewrite filter_app, length_app. lia. Qed.

(** Counting chunk by chunk and adding up is counting all the words, as
    long as their number fits an [int]. *)
Lemma reduceFold_counts (Ws : list (list string)) :
  Z.of_nat (length (concat Ws)) ≤ max_int →
  reduceFold (foldl increment ∅ <$> Ws) = foldl increment ∅ (concat Ws).
Proof.
  intros Hfit. apply map_eq. intros k.
  destruct (counting_loop (concat Ws) Hfit) as [-> _].
  rewrite reduceFold_lookup.
  assert (Forall (λ W, Z.of_nat (length W) ≤ max_int) Ws) as Hall.
  { clear k. induction Ws as [|W Ws IH]; [done|].
    cbn [concat] in Hfit. rewrite length_app in Hfit. constructor; [lia|apply IH; lia]. }
  assert (sumAt k (foldl increment ∅ <$> Ws) = occurrences k (concat Ws)) as ->.
  { clear Hfit. induction Hall as [|W Ws HW _ IH]; [done|].
    cbn [fmap list_fmap concat]. rewrite occurrences_app, <- IH.
    change (sumAt k (foldl increment ∅ W :: (foldl increment ∅ <$> Ws)))
      with (get (foldl increment ∅ W) k + sumAt k (foldl increment ∅ <$> Ws)).
    f_equal. destruct (counting_loop W HW) as [Hl _]. unfold get. rewrite Hl.
    case_decide as Hin; [done|]. simpl.
    pose proof (occurrences_bounds k W). pose proof (occurrences_pos k W) as Hpos.
    destruct (decide (1 ≤ occurrences k W)) as [Hone|]; [|lia]. by apply Hpos in Hone. }
  assert (Exists (λ m : gmap string Z, is_Some (m !! k)) (foldl increment ∅ <$> Ws)
          ↔ k ∈ concat Ws) as Hex.
  { rewrite Exists_exists, elem_of_concat. rewrite Forall_forall in Hall. split.
    - intros (m & (W & -> & HW)%list_elem_of_fmap & Hk). exists W. split; [|done].
      destruct (counting_loop W (Hall W HW)) as [Hl _].
      rewrite Hl in Hk. by apply is_Some_decide in Hk.
    - intros (W & Hk & HW). exists (foldl increment ∅ W). split.
      + apply list_elem_of_fmap. by exists W.
      + destruct (counting_loop W (Hall W HW)) as [Hl _].
        rewrite Hl. by apply is_Some_decide. }
  pose proof (occurrences_bounds k (concat Ws)).
  destruct (decide (Exists _ _)) as [He|He]; destruct (decide (k ∈ concat Ws)) as [Hk|Hk].
  - f_equal. apply wrap64_id. unfold in_range, min_int, max_int in *. lia.
  - by apply Hex in He.
  - by apply Hex in Hk.
  - done.
Qed.

(** ** The whole document *)

Lemma length_concat_elem {A} (l : list A) (ls : list (list A)) :
  l ∈ ls → (length l ≤ length (concat ls))%nat.
Proof.
  induction ls as [|l' ls IH]; [by intros ?%elem_of_nil|].
  cbn [concat]. rewrite length_app. intros [->|Hin%IH]%elem_of_cons; lia.
Qed.

Lemma hasBucket_insert w bucket objs trace' b :
  hasBucket w b → hasBucket (mkWorld (<[bucket := objs]> (buckets w)) trace') b.
Proof.
  unfold hasBucket. cbn [buckets]. intros Hb.
  destruct (decide (b = bucket)) as [->|Hne];
    [by rewrite lookup_insert_eq|by rewrite lookup_insert_ne].
Qed.

(** The three chunks the split handler cuts make up the lines. *)
Lemma chunkLines_concat lines :
  let chunkSize := (Z.of_nat (length lines) + 3 - 1) `div` 3 in
  (2 ≤ length lines)%nat →
  Z.of_nat (length lines) + 2 ≤ max_int →
  concat (chunkLines lines chunkSize <$> seq 0 3) = lines.
Proof.
  intros chunkSize Htwo Hmax.
  pose proof (Z.div_mod (Z.of_nat (length lines) + 3 - 1) 3 ltac:(lia)) as Hdm.
  pose proof (Z.mod_pos_bound (Z.of_nat (length lines) + 3 - 1) 3 ltac:(lia)) as Hmod.
  fold chunkSize in Hdm.
  assert (2 * chunkSize ≤ Z.of_nat (length lines)) as Hlast.
  { apply (last_of_three (Z.of_nat (length lines))); lia. }
  destruct (cuts_concat lines chunkSize (chunkLines lines chunkSize <$> seq 0 3) 0)
    as (_ & -> & _); [lia|lia|simpl; lia|done| |].
  - intros j p Hj. rewrite list_lookup_fmap in Hj.
    destruct (seq 0 3 !! j) as [j'|] eqn:Hseq; [|done].
    apply lookup_seq in Hseq as [-> Hlt]. simpl in Hj. injection Hj as <-.
    rewrite Z.add_0_l. apply cut_defined; [lia|nia|nia].
  - rewrite length_fmap, length_seq. cbn [drop Z.to_nat].
    rewrite Z.min_r by lia. rewrite Z.mul_0_l, Z.sub_0_r, Nat2Z.id. apply firstn_all.
Qed.

Section WholeDocument.

Context {table : CaseTable}.

Lemma chunk_counts_fold (content : string) (ps : list (list string)) :
  concat ps = Split content "010" →
  len (Strings.ToLower content) ≤ max_int →
  reduceFold (countWords <$> ((λ p, Join p newline) <$> ps)) = countWords content
  ∧ Forall (λ chunk, Z.of_nat (length (wordsOf chunk)) ≤ max_int)
           ((λ p, Join p newline) <$> ps).
Proof.
  intros Hps Hlen%wordsOf_fit.
  assert (concat (wordsOf <$> ((λ p, Join p newline) <$> ps)) = wordsOf content) as Hwords.
  { rewrite wordsOf_chunks, Hps. f_equal. apply (Split_go_Join EmptyString). }
  split.
  - unfold countWords. rewrite <- Hwords, <- reduceFold_counts by (by rewrite Hwords).
    by rewrite <- (list_fmap_compose wordsOf (foldl increment ∅)).
  - apply Forall_forall. intros chunk Hin.
    assert (wordsOf chunk ∈ wordsOf <$> ((λ p, Join p newline) <$> ps)) as Hw
      by (apply list_elem_of_fmap; by exists chunk).
    apply length_concat_elem in Hw. rewrite Hwords in Hw. lia.
Qed.

(** Counting the words chunk by chunk and adding up the counts is
    counting the words of the document: for every way of cutting the
    lines of a document into chunks, in any number, the fold of the
    counts of the chunks is the count of the document (whose lower-cased
    text has to be a Go string).  Lower-casing and cutting words work
    line by line, whatever the bytes of the lines are. *)
Theorem chunks_count_like_document (content : string) (ps : list (list string)) :
  concat ps = Split content "010" →
  len (Strings.ToLower content) ≤ max_int →
  wordsOf content = concat (wordsOf <$> Split content "010")
  ∧ reduceFold (countWords <$> ((λ p, Join p newline) <$> ps)) = countWords content.
Proof.
  intros Hps Hlen. split; [|by apply chunk_counts_fold].
  rewrite <- wordsOf_Join. f_equal. symmetry. apply (Split_go_Join EmptyString).
Qed.

(** The whole pipeline on a document of at least two lines.  Split, then
    map of chunk j to the j-th of three output addresses, then reduce of
    the three partials: when the output addresses are pairwise distinct,
    none is the address of a chunk and their buckets exist, every call
    answers 200 and the object at the output address of the reduce call
    is the encoding of the word count of the document, which decodes to
    that count. *)
Theorem pipeline_counts_document c w bucket key content mapOuts outs
    outS3 outBucket outKey :
  let prefix := Query c "out_prefix" in
  let urls := chunkUrls bucket prefix 0 3 in
  parseS3 (Query c "input_s3") = Some (bucket, key) →
  object w bucket key = Some content →
  (2 ≤ length (Split content "010"))%nat →
  Z.of_nat (length (Split content "010")) + 2 ≤ max_int →
  len (Strings.ToLower content) ≤ max_int →
  length mapOuts = 3%nat →
  Forall2 (λ out address, parseS3 out = Some address ∧ hasBucket w address.1) mapOuts outs →
  NoDup outs →
  (∀ j : nat, (j < 3)%nat → (bucket, chunkKey prefix (Z.of_nat j)) ∉ outs) →
  parseS3 outS3 = Some (outBucket, outKey) →
  hasBucket w outBucket →
  ∃ w1 w2,
    serve (splitHandler "splitter" c) w = (RUrls 200 urls, w1)
    ∧ mapReduce (zip urls mapOuts) outS3 w1
      = (((λ job, ROutput 200 job.2) <$> zip urls mapOuts, ROutput 200 outS3), w2)
    ∧ object w2 outBucket outKey = Some (JSON.Marshal (countWords content))
    ∧ decode (JSON.Marshal (countWords content)) = countWords content.
Proof.
  intros prefix urls Hparse Hobject Htwo Hmax Hlen Hthree Houts Hnd Hfresh Hout Hb.
  set (lines := Split content "010") in *.
  set (chunkSize := (Z.of_nat (length lines) + 3 - 1) `div` 3).
  set (ps := chunkLines lines chunkSize <$> seq 0 3).
  assert (∃ objs, buckets w !! bucket = Some objs ∧ objs !! key = Some content)
    as (objs & Hbucket & Hobj).
  { unfold object in Hobject. destruct (buckets w !! bucket) as [objs|]; [|done].
    by exists objs. }
  pose proof (splitHandler_runs c w bucket key content objs Hparse Hbucket Hobj Hmax Htwo)
    as Hsplit.
  fold lines chunkSize ps prefix urls in Hsplit.
  set (w1 := mkWorld (<[bucket := storeChunks prefix 0 ps objs]> (buckets w))
                     (trace w ++ GetObject bucket key :: chunkPuts bucket prefix 0 ps))
    in Hsplit.
  destruct (chunk_counts_fold content ps) as [Hfold Hfit];
    [by apply chunkLines_concat|done|].
  assert (IndexByte bucket "/" = -1) as Hslash by (by eapply parseS3_Some).
  destruct mapOuts as [|o0 [|o1 [|o2 [|? ?]]]]; try done.
  apply Forall2_cons_inv_l in Houts as (a0 & outs0 & [Hp0 Hb0] & Houts & ->).
  apply Forall2_cons_inv_l in Houts as (a1 & outs1 & [Hp1 Hb1] & Houts & ->).
  apply Forall2_cons_inv_l in Houts as (a2 & outs2 & [Hp2 Hb2] & Houts & ->).
  apply Forall2_nil_inv_l in Houts as ->.
  assert (∀ j : nat, (j < 3)%nat →
            object w1 bucket (chunkKey prefix (Z.of_nat j))
            = Some (Join (chunkLines lines chunkSize j) newline)) as Hchunks.
  { intros j Hj. unfold object, w1. cbn [buckets]. rewrite lookup_insert_eq.
    cbn [mbind option_bind]. rewrite <- (Z.add_0_l (Z.of_nat j)).
    apply storeChunks_lookup. unfold ps. by rewrite list_lookup_fmap, lookup_seq_lt. }
  destruct (mapReduce_runs (zip urls [o0; o1; o2]) ((λ p, Join p newline) <$> ps)
              [a0; a1; a2] outS3 outBucket outKey w1) as (w2 & Hcalls & Hstored).
  - split_and!; [| |done].
    + repeat constructor.
      * exists bucket, (chunkKey prefix 0). split_and!;
          [by apply parseS3_format|apply (Hchunks 0%nat); lia|apply (Hfresh 0%nat); lia].
      * exists bucket, (chunkKey prefix (0 + 1)). split_and!;
          [by apply parseS3_format|apply (Hchunks 1%nat); lia|apply (Hfresh 1%nat); lia].
      * exists bucket, (chunkKey prefix (0 + 1 + 1)). split_and!;
          [by apply parseS3_format|apply (Hchunks 2%nat); lia|apply (Hfresh 2%nat); lia].
    + repeat constructor; try done; by apply hasBucket_insert.
  - done.
  - by apply hasBucket_insert.
  - done.
  - exists w1, w2. split_and!; [done|done|by rewrite Hstored, Hfold|].
    by apply countWords_decodes.
Qed.

End WholeDocument.

Lemma chunks_count_like_document_witness :
  wordsOf (table := Unicode.latin_table) fourLines
  = concat (wordsOf (table := Unicode.latin_table) <$> Split fourLines "010")
  ∧ reduceFold (countWords (table := Unicode.latin_table)
                  <$> ((λ p, Join p newline)
                         <$> [["To be, or not to be"]; [];
                              ["that is the question"; "Whether 'tis nobler"];
                              ["in the mind to suffer"]]))
    = countWords (table := Unicode.latin_table) fourLines.
Proof.
  apply (chunks_count_like_document (table := Unicode.latin_table) fourLines
           [["To be, or not to be"]; [];
            ["that is the question"; "Whether 'tis nobler"];
            ["in the mind to suffer"]]).
  - reflexivity.
  - vm_compute. discriminate.
Defined.

Lemma pipeline_counts_document_witness :
  let c := splitRequest 3 in
  let mapOuts := ["s3://bucket/maps/run-3/map-0.json"; "s3://bucket/maps/run-3/map-1.json";
                  "s3://bucket/maps/run-3/map-2.json"] in
  let outS3 := "s3://bucket/reduce/run-3/final.json" in
  let urls := chunkUrls "bucket" (Query c "out_prefix") 0 3 in
  ∃ w1 w2,
    serve (splitHandler "splitter" c) fourLinesWorld = (RUrls 200 urls, w1)
    ∧ mapReduce (table := Unicode.latin_table) (zip urls mapOuts) outS3 w1
      = (((λ job, ROutput 200 job.2) <$> zip urls mapOuts, ROutput 200 outS3), w2)
    ∧ object w2 "bucket" "reduce/run-3/final.json"
      = Some (JSON.Marshal (countWords (table := Unicode.latin_table) fourLines))
    ∧ decode (JSON.Marshal (countWords (table := Unicode.latin_table) fourLines))
      = countWords (table := Unicode.latin_table) fourLines.
Proof.
  intros c mapOuts outS3.
  apply (pipeline_counts_document (table := Unicode.latin_table) c fourLinesWorld
           "bucket" "doc.txt" fourLines mapOuts
           [("bucket", "maps/run-3/map-0.json"); ("bucket", "maps/run-3/map-1.json");
            ("bucket", "maps/run-3/map-2.json")]
           outS3 "bucket" "reduce/run-3/final.json").
  - reflexivity.
  - reflexivity.
  - vm_compute. lia.
  - vm_compute. discriminate.
  - vm_compute. discriminate.
  - reflexivity.
  - repeat constructor; by eexists.
  - repeat constructor; rewrite ?not_elem_of_cons;
      try split_and!; try discriminate; apply not_elem_of_nil.
  - intros j Hj. destruct j as [|[|[|j]]]; [| | |lia];
      rewrite !not_elem_of_cons; split_and!; try discriminate; apply not_elem_of_nil.
  - reflexivity.
  - by eexists.
Defined.
